(** * SEBI reference finder: metadata extraction and reference resolution

    A shallow embedding of [sebi-reference-finder.js] (class
    [EnhancedAIReferenceFinder]) and the properties of its rule-based core.

    JavaScript strings are sequences of UTF-16 code units; they are modelled
    as [list N], one number below 65536 per code unit. *)

From Stdlib Require Import NArith ZArith Ascii String DecimalString.
From stdpp Require Import gmap list.

Set Warnings "-register-all".
Local Open Scope N_scope.

Abbreviation jsstring := (list N).

(** ** String literals

    The literals of the source are written as Rocq strings (UTF-8 bytes) and
    turned into UTF-16 code units. *)

Definition bytes_of_string (s : string) : list N :=
  map N_of_ascii (list_ascii_of_string s).

Definition surrogates (cp : N) : jsstring :=
  if cp <? 65536 then [cp]
  else [55296 + (cp - 65536) / 1024; 56320 + (cp - 65536) mod 1024].

Fixpoint utf16_of_utf8 (bs : list N) : jsstring :=
  match bs with
  | [] => []
  | b :: r =>
    if b <? 128 then b :: utf16_of_utf8 r
    else if b <? 224 then
      match r with
      | c1 :: r1 => surrogates ((b - 192) * 64 + (c1 - 128)) ++ utf16_of_utf8 r1
      | _ => []
      end
    else if b <? 240 then
      match r with
      | c1 :: c2 :: r2 =>
        surrogates ((b - 224) * 4096 + (c1 - 128) * 64 + (c2 - 128)) ++ utf16_of_utf8 r2
      | _ => []
      end
    else
      match r with
      | c1 :: c2 :: c3 :: r3 =>
        surrogates ((b - 240) * 262144 + (c1 - 128) * 4096 + (c2 - 128) * 64 + (c3 - 128))
          ++ utf16_of_utf8 r3
      | _ => []
      end
  end.

Definition js (s : string) : jsstring := utf16_of_utf8 (bytes_of_string s).

(** ** Built-in string operations *)

Definition jseqb (a b : jsstring) : bool := bool_decide (a = b).

(** WhiteSpace and LineTerminator code units: the set that [\s] matches and
    that [String.prototype.trim] strips. *)
Definition is_space (c : N) : bool :=
  ((9 <=? c) && (c <=? 13)) || (c =? 32) || (c =? 160) || (c =? 5760)
  || ((8192 <=? c) && (c <=? 8202)) || (c =? 8232) || (c =? 8233)
  || (c =? 8239) || (c =? 8287) || (c =? 12288) || (c =? 65279).

Definition is_line_terminator (c : N) : bool :=
  (c =? 10) || (c =? 13) || (c =? 8232) || (c =? 8233).

Definition is_digit (c : N) : bool := (48 <=? c) && (c <=? 57).

Definition to_upper (c : N) : N :=
  if (97 <=? c) && (c <=? 122) then c - 32 else c.

Definition to_lower (c : N) : N :=
  if (65 <=? c) && (c <=? 90) then c + 32 else c.

(** [String.prototype.toLowerCase], one code unit at a time.  ASCII and
    Latin-1 letters are mapped as Unicode maps them; the two other code units
    whose lower case contains an ASCII letter are U+212A (to [k]) and U+0130
    (to [i] followed by U+0307).  Every other code unit stays outside ASCII
    under the real mapping and is left as it is here, so that the ASCII
    content of the result, which is all the vocabulary search looks at, is
    the real one. *)
Definition lower_unit (c : N) : jsstring :=
  if (65 <=? c) && (c <=? 90) then [c + 32]
  else if (192 <=? c) && (c <=? 222) && negb (c =? 215) then [c + 32]
  else if c =? 8490 then [107]
  else if c =? 304 then [105; 775]
  else [c].

Definition toLowerCase (s : jsstring) : jsstring := flat_map lower_unit s.

(** [String.prototype.toUpperCase] on ASCII and Latin-1; cased letters beyond
    Latin-1 are left as they are. *)
Definition upper_unit (c : N) : jsstring :=
  if (97 <=? c) && (c <=? 122) then [c - 32]
  else if (224 <=? c) && (c <=? 254) && negb (c =? 247) then [c - 32]
  else if c =? 255 then [376]
  else if c =? 181 then [924]
  else if c =? 223 then [83; 83]
  else [c].

Definition toUpperCase (s : jsstring) : jsstring := flat_map upper_unit s.

Fixpoint startsWith (s p : jsstring) {struct p} : bool :=
  match p with
  | [] => true
  | b :: p' =>
    match s with
    | [] => false
    | a :: s' => (a =? b) && startsWith s' p'
    end
  end.

Definition endsWith (s p : jsstring) : bool := startsWith (rev s) (rev p).

Fixpoint includes (s t : jsstring) : bool :=
  startsWith s t || match s with [] => false | _ :: s' => includes s' t end.

(** [s.slice(n)] for [0 <= n] and [s.slice(0, -n)]. *)
Definition slice_from (n : nat) (s : jsstring) : jsstring := drop n s.
Definition slice_to_minus (n : nat) (s : jsstring) : jsstring :=
  take (length s - n) s.

Fixpoint trimStart (s : jsstring) : jsstring :=
  match s with
  | c :: s' => if is_space c then trimStart s' else s
  | [] => []
  end.

Definition trimEnd (s : jsstring) : jsstring := rev (trimStart (rev s)).

Definition trim (s : jsstring) : jsstring := trimEnd (trimStart s).

(** [s.replace(/\s+/g, ' ')]: every maximal run of white space becomes one
    space.  [in_run] tells that the previous code unit was white space. *)
Fixpoint collapse_from (in_run : bool) (s : jsstring) : jsstring :=
  match s with
  | [] => []
  | c :: s' =>
    if is_space c
    then (if in_run then collapse_from true s' else 32 :: collapse_from true s')
    else c :: collapse_from false s'
  end.

Definition collapse_spaces (s : jsstring) : jsstring := collapse_from false s.

Definition chr (s : string) : N := hd 0 (js s).

(** ** JavaScript values

    The values the program handles are the ones [JSON.parse] builds, plus
    [undefined].  A number is kept as the decimal it was written as,
    [(-1)^neg * mant * 10^expo]; it stands for the double nearest to that
    decimal. *)

Record number := { neg : bool; mant : N; expo : Z }.

Inductive value :=
| VUndefined
| VNull
| VBool (b : bool)
| VNum (n : number)
| VStr (s : jsstring)
| VArr (items : list value)
| VObj (props : list (jsstring * value)).

(** ** Regular expressions

    A backtracking matcher in continuation-passing style, the way ECMA-262
    specifies [RegExp.prototype.exec], for the constructs the source uses. *)

Module Regex.

Inductive class_item :=
| One (c : N)
| Range (lo hi : N)
| SpaceEsc.

Inductive regex :=
| Empty
| Lit (c : N)
| Class (items : list class_item)
| Dot
| Seq (r1 r2 : regex)
| Alt (r1 r2 : regex)
| Star (greedy : bool) (r : regex)
| Group (n : nat) (r : regex)
| EndOfInput.

Record mstate := { rest : jsstring; caps : list (nat * jsstring) }.

Definition item_mem (it : class_item) (c : N) : bool :=
  match it with
  | One a => c =? a
  | Range lo hi => (lo <=? c) && (c <=? hi)
  | SpaceEsc => is_space c
  end.

(** With the [i] flag two code units match when their canonical (upper case)
    forms agree.  No code unit outside ASCII canonicalises to an ASCII one,
    and the members of the source's patterns are ASCII or white space, so
    folding ASCII letters is all that is needed. *)
Definition lit_mem (icase : bool) (a c : N) : bool :=
  if icase then to_upper c =? to_upper a else c =? a.

Definition class_mem (icase : bool) (items : list class_item) (c : N) : bool :=
  existsb (fun it =>
    item_mem it c || (icase && (item_mem it (to_upper c) || item_mem it (to_lower c))))
    items.

Definition dot_mem (c : N) : bool := negb (is_line_terminator c).

Definition step (p : N -> bool) (k : mstate -> option mstate) (st : mstate)
  : option mstate :=
  match rest st with
  | c :: s' => if p c then k {| rest := s'; caps := caps st |} else None
  | [] => None
  end.

Definition orelse (a b : option mstate) : option mstate :=
  match a with Some x => Some x | None => b end.

(** The loop of a quantifier [r*] or [r*?] around the matcher [body] of [r]:
    an iteration that consumes nothing is rejected, so at most
    [length (rest st)] iterations can follow one another, and [n] starts
    there; a larger [n] changes nothing ([star_loop_fuel] below). *)
Fixpoint star_loop (body : (mstate -> option mstate) -> mstate -> option mstate)
    (greedy : bool) (k : mstate -> option mstate) (n : nat) (st : mstate)
  : option mstate :=
  match n with
  | O => k st
  | S n' =>
    let again :=
      body (fun st' =>
              if (length (rest st') <? length (rest st))%nat
              then star_loop body greedy k n' st' else None) st in
    if greedy then orelse again (k st) else orelse (k st) again
  end.

Fixpoint rmatch (icase : bool) (r : regex) (k : mstate -> option mstate)
    (st : mstate) {struct r} : option mstate :=
  match r with
  | Empty => k st
  | Lit a => step (lit_mem icase a) k st
  | Class items => step (class_mem icase items) k st
  | Dot => step dot_mem k st
  | Seq r1 r2 => rmatch icase r1 (rmatch icase r2 k) st
  | Alt r1 r2 => orelse (rmatch icase r1 k st) (rmatch icase r2 k st)
  | Star greedy r' => star_loop (rmatch icase r') greedy k (length (rest st)) st
  | Group n r' =>
    rmatch icase r'
      (fun st' =>
         k {| rest := rest st';
              caps := (n, take (length (rest st) - length (rest st')) (rest st))
                        :: caps st' |}) st
  | EndOfInput => match rest st with [] => k st | _ => None end
  end.

Record rmatch_result :=
  { m_index : nat; m_0 : jsstring; m_caps : list (nat * jsstring) }.

Definition group (m : rmatch_result) (n : nat) : option jsstring :=
  snd <$> List.find (fun p => Nat.eqb (fst p) n) (m_caps m).

(** [RegExp.prototype.exec] without the [g] flag: the first start position,
    from the left, at which the pattern matches. *)
Fixpoint exec_from (icase : bool) (r : regex) (i : nat) (s : jsstring)
  : option rmatch_result :=
  match rmatch icase r Some {| rest := s; caps := [] |} with
  | Some st =>
    Some {| m_index := i; m_0 := take (length s - length (rest st)) s;
            m_caps := caps st |}
  | None =>
    match s with
    | [] => None
    | _ :: s' => exec_from icase r (S i) s'
    end
  end.

Definition exec (icase : bool) (r : regex) (s : jsstring) : option rmatch_result :=
  exec_from icase r 0 s.

(** Derived forms. *)
Fixpoint word (s : jsstring) : regex :=
  match s with
  | [] => Empty
  | c :: s' => Seq (Lit c) (word s')
  end.

Definition plus (greedy : bool) (r : regex) : regex := Seq r (Star greedy r).
Definition opt (r : regex) : regex := Alt r Empty.
Definition seqs (rs : list regex) : regex := foldr Seq Empty rs.
Definition space : regex := Class [SpaceEsc].
Definition digit : regex := Class [Range 48 57].

(** The words a pattern can consume, whatever the order in which the
    matcher tries them. *)
Inductive lang (icase : bool) : regex -> jsstring -> Prop :=
| lang_empty : lang icase Empty []
| lang_lit a c : lit_mem icase a c = true -> lang icase (Lit a) [c]
| lang_class items c : class_mem icase items c = true -> lang icase (Class items) [c]
| lang_dot c : dot_mem c = true -> lang icase Dot [c]
| lang_seq r1 r2 w1 w2 :
    lang icase r1 w1 -> lang icase r2 w2 -> lang icase (Seq r1 r2) (w1 ++ w2)
| lang_alt_l r1 r2 w : lang icase r1 w -> lang icase (Alt r1 r2) w
| lang_alt_r r1 r2 w : lang icase r2 w -> lang icase (Alt r1 r2) w
| lang_star_nil g r : lang icase (Star g r) []
| lang_star_cons g r w1 w2 :
    lang icase r w1 -> lang icase (Star g r) w2 -> lang icase (Star g r) (w1 ++ w2)
| lang_group n r w : lang icase r w -> lang icase (Group n r) w
| lang_end : lang icase EndOfInput [].

(** A matcher [body] consumes words of [L]: whenever it succeeds, it has
    consumed a word of [L] and its continuation has succeeded on what was
    left. *)
Definition sound_for (L : jsstring -> Prop)
    (body : (mstate -> option mstate) -> mstate -> option mstate) : Prop :=
  forall k st res, body k st = Some res ->
    exists w st', rest st = w ++ rest st' /\ L w /\ k st' = Some res.

(** A matcher [body] moves forward: its result depends on its continuation
    only at states that are not before the current one in the input. *)
Definition forward (body : (mstate -> option mstate) -> mstate -> option mstate) : Prop :=
  forall k1 k2 st,
    (forall st', (length (rest st') <= length (rest st))%nat -> k1 st' = k2 st') ->
    body k1 st = body k2 st.

(** The code units a pattern can consume. *)
Fixpoint alphabet (icase : bool) (r : regex) (c : N) : bool :=
  match r with
  | Empty | EndOfInput => false
  | Lit a => lit_mem icase a c
  | Class items => class_mem icase items c
  | Dot => dot_mem c
  | Seq r1 r2 | Alt r1 r2 => alphabet icase r1 c || alphabet icase r2 c
  | Star _ r' | Group _ r' => alphabet icase r' c
  end.

End Regex.

Import Regex.

(** ** Metadata Extractor *)

(** [/SEBI\/[A-Z0-9\/_-]+\/(?:CIR|P)\/[A-Z0-9\/_-]+\/\d{4}\/\d+/i] *)
Definition code_class : regex :=
  Class [Range (chr "A") (chr "Z"); Range (chr "0") (chr "9");
         One (chr "/"); One (chr "_"); One (chr "-")].

Definition canonical_pattern : regex :=
  seqs [word (js "SEBI/"); plus true code_class; Lit (chr "/");
        Alt (word (js "CIR")) (word (js "P")); Lit (chr "/");
        plus true code_class; Lit (chr "/");
        digit; digit; digit; digit; Lit (chr "/"); plus true digit].

(** [/Circular[:\s]+No\.?\s*([A-Z0-9\/._-]+)/i] *)
Definition generic_prefix : regex :=
  seqs [word (js "Circular"); plus true (Class [One (chr ":"); SpaceEsc]);
        word (js "No"); opt (Lit (chr ".")); Star true space].

Definition generic_value : regex :=
  plus true (Class [Range (chr "A") (chr "Z"); Range (chr "0") (chr "9");
                    One (chr "/"); One (chr "."); One (chr "_"); One (chr "-")]).

Definition generic_pattern : regex := Seq generic_prefix (Group 1 generic_value).

(** [match[n]]: [undefined] for a group that took no part in the match. *)
Definition group_value (m : rmatch_result) (n : nat) : value :=
  match group m n with
  | Some s => VStr s
  | None => VUndefined
  end.

Fixpoint first_circular_number (patterns : list regex) (text : jsstring) : value :=
  match patterns with
  | [] => VNull
  | pattern :: more =>
    match exec true pattern text with
    | Some m => if includes (m_0 m) (js "/") then VStr (m_0 m) else group_value m 1
    | None => first_circular_number more text
    end
  end.

Definition extractCircularNumber (text : jsstring) : value :=
  first_circular_number [canonical_pattern; generic_pattern] text.

(** [/Subject:\s*(.+?)(?:\n|$)/i] and [/Re:\s*(.+?)(?:\n|$)/i] *)
Definition labelled_line (label : string) : regex :=
  seqs [word (js label); Star true space; Group 1 (plus false Dot);
        Alt (Lit 10) EndOfInput].

Definition subject_pattern : regex := labelled_line "Subject:".
Definition re_pattern : regex := labelled_line "Re:".

(** [match[1].trim().replace(/\s+/g, ' ')]; group 1 is not optional in the
    two patterns, so it is set in every match. *)
Definition normalized_subject (m : rmatch_result) : jsstring :=
  collapse_spaces (trim (default [] (group m 1))).

Fixpoint first_subject (patterns : list regex) (text : jsstring) : value :=
  match patterns with
  | [] => VNull
  | pattern :: more =>
    match exec true pattern text with
    | Some m =>
      let subject := normalized_subject m in
      if (10 <? length subject)%nat then VStr subject else first_subject more text
    | None => first_subject more text
    end
  end.

Definition extractSubject (text : jsstring) : value :=
  first_subject [subject_pattern; re_pattern] text.

Definition terms : list jsstring :=
  map js ["investment adviser"; "registrar"; "depository"; "mutual fund";
          "portfolio"; "compliance"; "audit"; "charter"; "framework";
          "guidelines"; "norms"; "requirements"; "risk management";
          "kyc"; "aml"; "disclosure"; "governance"; "intermediary"]%string.

(** The loop of [extractKeyTerms]: [foundTerms.push(term)] for each term that
    the lower-cased text includes. *)
Definition extractKeyTerms (text : jsstring) : list jsstring :=
  let textLower := toLowerCase text in
  fold_left
    (fun foundTerms term =>
       if includes textLower term then foundTerms ++ [term] else foundTerms)
    terms [].

(** ** Exceptions *)

(** What can end a step early: the two exceptions the built-ins throw on the
    values handled here, a failed call of the inference collaborator, and the
    exit of [main] on an empty collection. *)
Inductive error := TypeError | SyntaxError | CollaboratorError | NoLocalCirculars.

Inductive result (A : Type) :=
| Ok (a : A)
| Throw (e : error).
Arguments Ok {A} a.
Arguments Throw {A} e.

#[global] Instance result_ret : MRet result := fun A a => Ok a.
#[global] Instance result_bind : MBind result := fun A B f m =>
  match m with
  | Ok a => f a
  | Throw e => Throw e
  end.

(** ** Operations on values *)

Abbreviation object := (list (jsstring * value)).

Definition decimal (n : N) : jsstring := js (NilZero.string_of_uint (N.to_uint n)).

Fixpoint strip_zeros (rev_digits : jsstring) (e : Z) : jsstring * Z :=
  match rev_digits with
  | c :: r => if c =? 48 then strip_zeros r (e + 1)%Z else (rev rev_digits, e)
  | [] => ([], e)
  end.

(** *** Doubles

    [JSON.parse] turns the decimal it reads into the nearest double, the one
    with the even significand when two are at the same distance, zero when
    the decimal is too small and infinity when it is too large.  A number is
    kept as the decimal that was read; what the program tests and prints is
    the double of that decimal. *)

(** The magnitude of a double: [Finite f q] is [f * 2^q], with
    [0 < f < 2^53] and [-1074 <= q <= 971]. *)
Inductive double :=
| Zero
| Finite (f : N) (q : Z)
| Infinite.

(** The integer nearest to [a / b], the even one of two at the same
    distance. *)
Definition div_nearest (a b : N) : N :=
  let q := a / b in
  let r := a mod b in
  if 2 * r <? b then q
  else if b <? 2 * r then q + 1
  else if N.even q then q else q + 1.

(** [base^t <= a / b] *)
Definition power_le (base : N) (t : Z) (a b : N) : bool :=
  if (0 <=? t)%Z then b * base ^ Z.to_N t <=? a else b <=? a * base ^ Z.to_N (- t).

(** [m * 2^t] and [m * 10^t] as fractions. *)
Definition scaled (base m : N) (t : Z) : N * N :=
  if (0 <=? t)%Z then (m * base ^ Z.to_N t, 1) else (m, base ^ Z.to_N (- t)).

(** The integer part of the binary logarithm of [a / b], for [0 < a] and
    [0 < b]: the difference of the logarithms of [a] and [b], or one less. *)
Definition log2_fraction (a b : N) : Z :=
  let g := (Z.of_N (N.log2 a) - Z.of_N (N.log2 b))%Z in
  if power_le 2 g a b then g else (g - 1)%Z.

(** The double of the decimal [m * 10^e].  The first two tests set aside the
    decimals above [10^400] and below [2^-1080], far outside the range, so
    that the powers computed after them stay small. *)
Definition to_double (m : N) (e : Z) : double :=
  if m =? 0 then Zero
  else if (400 <? e)%Z then Infinite
  else if (Z.of_N (N.log2 m) + 3 * e <? -1080)%Z then Zero
  else
    let '(a, b) := scaled 10 m e in
    let q := Z.max (log2_fraction a b - 52) (-1074) in
    let f :=
      if (0 <=? q)%Z then div_nearest a (b * 2 ^ Z.to_N q)
      else div_nearest (a * 2 ^ Z.to_N (- q)) b in
    let '(f, q) := if f =? 2 ^ 53 then (2 ^ 52, (q + 1)%Z) else (f, q) in
    if f =? 0 then Zero
    else if (971 <? q)%Z then Infinite
    else Finite f q.

(** The integer part of the decimal logarithm of [a / b], for a fraction in
    the range of the doubles: the binary logarithm times 0.30103 is off by
    less than two. *)
Definition log10_fraction (a b : N) : Z :=
  let t := (log2_fraction a b * 30103 / 100000 - 1)%Z in
  let above (j : Z) : Z := if power_le 10 (t + j) a b then 1%Z else 0%Z in
  (t + above 1 + above 2 + above 3)%Z.

(** The decimal of [k] digits for the double [f * 2^q], whose decimal point
    comes after [n] digits: of the two decimals of [k] digits around the
    double, the one whose double is this one, the nearest of the two when both
    are, the even one when they are at the same distance. *)
Definition digits_at (f : N) (q : Z) (a b : N) (n k : Z) : option N :=
  let '(c, u) := scaled 10 a (k - n) in
  let d := b * u in
  let lo := c / d in
  let r := c mod d in
  let same (s : N) : bool :=
    match to_double s (n - k) with
    | Finite f' q' => (f' =? f) && (q' =? q)%Z
    | _ => false
    end in
  match same lo, same (lo + 1) with
  | true, true =>
    Some (if 2 * r <? d then lo
          else if d <? 2 * r then lo + 1
          else if N.even lo then lo else lo + 1)
  | true, false => Some lo
  | false, true => Some (lo + 1)
  | false, false => None
  end.

(** The shortest decimal [s * 10^e] whose double is [f * 2^q]; 17 digits are
    always enough. *)
Definition shortest (f : N) (q : Z) : option (N * Z) :=
  let '(a, b) := scaled 2 f q in
  let n := (log10_fraction a b + 1)%Z in
  (fix search (ks : list Z) : option (N * Z) :=
     match ks with
     | [] => None
     | k :: more =>
       match digits_at f q a b n k with
       | Some s => Some (s, (n - k)%Z)
       | None => search more
       end
     end) [1; 2; 3; 4; 5; 6; 7; 8; 9; 10; 11; 12; 13; 14; 15; 16; 17]%Z.

(** [Number::toString] (radix 10): with [s] the [k] digits of the shortest
    decimal of the double and [n] the position of the decimal point, the four
    layouts of ECMA-262. *)
Definition number_to_string (x : number) : jsstring :=
  match to_double (mant x) (expo x) with
  | Zero => js "0"
  | Infinite => if neg x then js "-Infinity" else js "Infinity"
  | Finite f q =>
    let '(m, e0) := default (mant x, expo x) (shortest f q) in
    let '(s, e) := strip_zeros (rev (decimal m)) e0 in
    let k := length s in
    let n := (Z.of_nat k + e)%Z in
    let body :=
      if ((Z.of_nat k <=? n) && (n <=? 21))%Z then
        s ++ replicate (Z.to_nat n - k) 48
      else if ((0 <? n) && (n <=? 21))%Z then
        take (Z.to_nat n) s ++ js "." ++ drop (Z.to_nat n) s
      else if ((-6 <? n) && (n <=? 0))%Z then
        js "0." ++ replicate (Z.to_nat (- n)) 48 ++ s
      else
        let e1 := (n - 1)%Z in
        let sign := if (e1 <? 0)%Z then js "-" else js "+" in
        let mantissa := if (k =? 1)%nat then s else take 1 s ++ js "." ++ drop 1 s in
        mantissa ++ js "e" ++ sign ++ decimal (Z.to_N (Z.abs e1)) in
    if neg x then js "-" ++ body else body
  end.

Definition of_nat (n : nat) : value := VNum {| neg := false; mant := N.of_nat n; expo := 0 |}.

(** [ToBoolean]; a number is falsy when its double is zero. *)
Definition truthy (v : value) : bool :=
  match v with
  | VUndefined | VNull => false
  | VBool b => b
  | VNum n => match to_double (mant n) (expo n) with Zero => false | _ => true end
  | VStr s => negb (bool_decide (s = []))
  | VArr _ | VObj _ => true
  end.

(** [a || b] *)
Definition or_else (a b : value) : value := if truthy a then a else b.

Definition own (props : object) (key : jsstring) : option value :=
  snd <$> List.find (fun p => jseqb (fst p) key) props.

(** [ToString].  An array prints its elements joined by commas, [null] and
    [undefined] elements as the empty string.  An object prints as
    [[object Object]] through [Object.prototype.toString], unless it has a
    property [toString] of its own: no value here is a function, so the
    conversion then finds nothing to call and throws a [TypeError]. *)
Fixpoint to_string (v : value) : result jsstring :=
  match v with
  | VUndefined => Ok (js "undefined")
  | VNull => Ok (js "null")
  | VBool b => Ok (if b then js "true" else js "false")
  | VNum n => Ok (number_to_string n)
  | VStr s => Ok s
  | VArr items =>
    (fix join (l : list value) : result jsstring :=
       match l with
       | [] => Ok []
       | x :: l' =>
         sx ← match x with
              | VUndefined | VNull => Ok []
              | _ => to_string x
              end;
         match l' with
         | [] => Ok sx
         | _ => more ← join l'; Ok (sx ++ js "," ++ more)
         end
       end) items
  | VObj props =>
    match own props (js "toString") with
    | Some _ => Throw TypeError
    | None => Ok (js "[object Object]")
    end
  end.

(** [v.name] for the property names the source reads ([matched_target],
    [confidence], [filename], ...; [length] is read here from values other
    than arrays and strings only): none of them is a member of a built-in
    prototype, so only an object can have one, as a property of its own.
    Reading a property of [null] or [undefined] throws. *)
Definition get_prop (v : value) (name : jsstring) : result value :=
  match v with
  | VUndefined | VNull => Throw TypeError
  | VObj props => Ok (default VUndefined (own props name))
  | _ => Ok VUndefined
  end.

Definition get (props : object) (name : jsstring) : value :=
  default VUndefined (own props name).

(** Array indices: canonical decimal numerals below [2^32 - 1]. *)
Definition array_index (key : jsstring) : option N :=
  match key with
  | [] => None
  | c :: r =>
    if forallb is_digit key && ((length key =? 1)%nat || negb (c =? 48))
       && (length key <=? 10)%nat
    then
      let n := fold_left (fun acc d => acc * 10 + (d - 48)) key 0 in
      if n <? 4294967295 then Some n else None
    else None
  end.

(** Insertion of a new property: own property keys are listed with the array
    indices first, in ascending order, then the other keys in the order of
    their creation. *)
Fixpoint insert_index (i : N) (key : jsstring) (v : value) (props : object) : object :=
  match props with
  | [] => [(key, v)]
  | (k, w) :: more =>
    match array_index k with
    | Some j => if j <? i then (k, w) :: insert_index i key v more
                else (key, v) :: props
    | None => (key, v) :: props
    end
  end.

Fixpoint replace_prop (key : jsstring) (v : value) (props : object) : object :=
  match props with
  | [] => []
  | (k, w) :: more =>
    if jseqb k key then (k, v) :: more else (k, w) :: replace_prop key v more
  end.

(** [obj[key] = v] on an ordinary object. *)
Definition set_prop (props : object) (key : jsstring) (v : value) : object :=
  match own props key with
  | Some _ => replace_prop key v props
  | None =>
    match array_index key with
    | Some i => insert_index i key v props
    | None => props ++ [(key, v)]
    end
  end.

(** [{ ...v }]: the enumerable properties of [v] itself. *)
Definition spread (v : value) : object :=
  match v with
  | VObj props => props
  | VArr items => imap (fun i x => (decimal (N.of_nat i), x)) items
  | VStr s => imap (fun i c => (decimal (N.of_nat i), VStr [c])) s
  | _ => []
  end.

(** The elements that [for (const x of v)] visits: the items of an array, the
    code points of a string (a surrogate pair is one element); anything else
    [JSON.parse] returns is not iterable. *)
Definition is_high_surrogate (c : N) : bool := (55296 <=? c) && (c <=? 56319).
Definition is_low_surrogate (c : N) : bool := (56320 <=? c) && (c <=? 57343).

Fixpoint code_points (s : jsstring) : list jsstring :=
  match s with
  | [] => []
  | c :: r =>
    match r with
    | d :: r' =>
      if is_high_surrogate c && is_low_surrogate d
      then [c; d] :: code_points r'
      else [c] :: code_points r
    | [] => [[c]]
    end
  end.

Definition iterate (v : value) : result (list value) :=
  match v with
  | VArr items => Ok items
  | VStr s => Ok (VStr <$> code_points s)
  | _ => Throw TypeError
  end.

(** ** [JSON.parse] *)

Module Json.

Definition is_ws (c : N) : bool := (c =? 32) || (c =? 9) || (c =? 10) || (c =? 13).

Fixpoint skip_ws (s : jsstring) : jsstring :=
  match s with
  | c :: s' => if is_ws c then skip_ws s' else s
  | [] => []
  end.

Definition hex_digit (c : N) : option N :=
  if is_digit c then Some (c - 48)
  else if (97 <=? c) && (c <=? 102) then Some (c - 87)
  else if (65 <=? c) && (c <=? 70) then Some (c - 55)
  else None.

Definition unescape (c : N) : option N :=
  if c =? 34 then Some 34 else if c =? 92 then Some 92
  else if c =? 47 then Some 47 else if c =? 98 then Some 8
  else if c =? 102 then Some 12 else if c =? 110 then Some 10
  else if c =? 114 then Some 13 else if c =? 116 then Some 9
  else None.

(** The characters of a string after its opening quote. *)
Fixpoint string_body (s : jsstring) : option (jsstring * jsstring) :=
  match s with
  | [] => None
  | c :: r =>
    if c =? 34 then Some ([], r)
    else if c =? 92 then
      match r with
      | [] => None
      | e :: r1 =>
        if e =? 117 then
          match r1 with
          | h1 :: h2 :: h3 :: h4 :: r2 =>
            a ← hex_digit h1; b ← hex_digit h2; c' ← hex_digit h3; d ← hex_digit h4;
            '(body, r3) ← string_body r2;
            Some ((a * 4096 + b * 256 + c' * 16 + d) :: body, r3)
          | _ => None
          end
        else
          u ← unescape e;
          '(body, r2) ← string_body r1;
          Some (u :: body, r2)
      end
    else if c <? 32 then None
    else '(body, r1) ← string_body r; Some (c :: body, r1)
  end.

Fixpoint digits (s : jsstring) : jsstring * jsstring :=
  match s with
  | c :: r => if is_digit c then let '(ds, r') := digits r in (c :: ds, r') else ([], s)
  | [] => ([], [])
  end.

Definition to_N (ds : jsstring) : N := fold_left (fun acc d => acc * 10 + (d - 48)) ds 0.

(** A number: an optional minus sign, then 0 or a digit from 1 to 9 followed
    by digits, then an optional fraction (a point and one digit or more) and
    an optional exponent (e or E, an optional sign, one digit or more). *)
Definition number_lit (s : jsstring) : option (number * jsstring) :=
  let '(negative, s1) :=
    match s with
    | c :: r => if c =? 45 then (true, r) else (false, s)
    | [] => (false, s)
    end in
  '(int, s2) ←
    match s1 with
    | c :: r =>
      if c =? 48 then Some ([48], r)
      else if is_digit c then Some (digits s1)
      else None
    | [] => None
    end;
  '(frac, s3) ←
    match s2 with
    | c :: r =>
      if c =? 46 then
        let '(ds, r') := digits r in
        match ds with [] => None | _ => Some (ds, r') end
      else Some ([], s2)
    | [] => Some ([], s2)
    end;
  '(e, s4) ←
    match s3 with
    | c :: r =>
      if (c =? 101) || (c =? 69) then
        let '(minus, r1) :=
          match r with
          | g :: r' => if g =? 45 then (true, r') else if g =? 43 then (false, r') else (false, r)
          | [] => (false, r)
          end in
        let '(ds, r2) := digits r1 in
        match ds with
        | [] => None
        | _ => Some (if minus then (- Z.of_N (to_N ds))%Z else Z.of_N (to_N ds), r2)
        end
      else Some (0%Z, s3)
    | [] => Some (0%Z, s3)
    end;
  Some ({| neg := negative; mant := to_N (int ++ frac);
           expo := (e - Z.of_nat (length frac))%Z |}, s4).

(** [CreateDataProperty] while an object is built: a repeated key keeps its
    place and takes the later value. *)
Definition define (props : object) (key : jsstring) (v : value) : object :=
  set_prop props key v.

(** The elements of an array and the members of an object, given the parser
    [one] of one value; [n] bounds their number. *)
Fixpoint elements (one : jsstring -> option (value * jsstring)) (n : nat)
    (s : jsstring) : option (list value * jsstring) :=
  match n with
  | O => None
  | S n' =>
    '(v, s1) ← one s;
    match skip_ws s1 with
    | [] => None
    | d :: s2 =>
      if d =? 44 then '(vs, s3) ← elements one n' s2; Some (v :: vs, s3)
      else if d =? 93 then Some ([v], s2)
      else None
    end
  end.

Fixpoint members (one : jsstring -> option (value * jsstring)) (n : nat)
    (acc : object) (s : jsstring) : option (object * jsstring) :=
  match n with
  | O => None
  | S n' =>
    match skip_ws s with
    | [] => None
    | q :: s0 =>
      if q =? 34 then
        '(key, s1) ← string_body s0;
        match skip_ws s1 with
        | [] => None
        | colon :: s2 =>
          if colon =? 58 then
            '(v, s3) ← one s2;
            let acc' := define acc key v in
            match skip_ws s3 with
            | [] => None
            | d :: s4 =>
              if d =? 44 then members one n' acc' s4
              else if d =? 125 then Some (acc', s4)
              else None
            end
          else None
        end
      else None
    end
  end.

(** One JSON value and the text after it.  Every level of nesting and every
    element or member takes at least one character, so a [fuel] above the
    length of the text is never used up ([value_at_fuel] below). *)
Fixpoint value_at (fuel : nat) (s : jsstring) : option (value * jsstring) :=
  match fuel with
  | O => None
  | S fuel' =>
    match skip_ws s with
    | [] => None
    | c :: r =>
      if c =? 34 then '(str, r') ← string_body r; Some (VStr str, r')
      else if c =? 91 then
        match skip_ws r with
        | [] => None
        | c1 :: r1 =>
          if c1 =? 93 then Some (VArr [], r1)
          else '(items, r') ← elements (value_at fuel') fuel' r; Some (VArr items, r')
        end
      else if c =? 123 then
        match skip_ws r with
        | [] => None
        | c1 :: r1 =>
          if c1 =? 125 then Some (VObj [], r1)
          else '(props, r') ← members (value_at fuel') fuel' [] r; Some (VObj props, r')
        end
      else if startsWith (c :: r) (js "null") then Some (VNull, drop 4 (c :: r))
      else if startsWith (c :: r) (js "true") then Some (VBool true, drop 4 (c :: r))
      else if startsWith (c :: r) (js "false") then Some (VBool false, drop 5 (c :: r))
      else '(n, r') ← number_lit (c :: r); Some (VNum n, r')
    end
  end.

(** [JSON.parse(text)]: [None] stands for the [SyntaxError] it throws. *)
Definition parse (text : jsstring) : option value :=
  '(v, r) ← value_at (S (length text)) text;
  match skip_ws r with
  | [] => Some v
  | _ => None
  end.

(** A parser of one value returns a text that is not longer than the one it
    was given. *)
Definition shrinking (one : jsstring -> option (value * jsstring)) : Prop :=
  forall s v r, one s = Some (v, r) -> (length r <= length s)%nat.

End Json.

(** ** The rest of the Metadata Extractor and the Local Index *)

(** [/(?:January|...|December)\s+\d{1,2},?\s+\d{4}/i] *)
Definition month_names : regex :=
  foldr (fun name r => Alt (word (js name)) r) (word (js "December"))
    ["January"; "February"; "March"; "April"; "May"; "June"; "July"; "August";
     "September"; "October"; "November"]%string.

Definition date_pattern : regex :=
  seqs [month_names; plus true space; digit; opt digit; opt (Lit (chr ","));
        plus true space; digit; digit; digit; digit].

Definition extractDate (text : jsstring) : value :=
  match exec true date_pattern text with
  | Some m => VStr (m_0 m)
  | None => VNull
  end.

(** An entry of [this.localCirculars]. *)
Record circular := {
  file_path : jsstring;
  filename : jsstring;
  circular_number : value;
  subject : value;
  date : value;
  key_terms : list jsstring
}.

(** [extractMetadata], given what [pdf-parse] read from the first two pages
    ([None] when reading or parsing failed), and the entry
    [loadLocalCirculars] stores for it. *)
Definition extractMetadata (pdf : option jsstring) (path pdfFile : jsstring)
  : option circular :=
  text ← pdf;
  Some {| file_path := path; filename := pdfFile;
          circular_number := extractCircularNumber text;
          subject := extractSubject text;
          date := extractDate text;
          key_terms := extractKeyTerms text |}.

(** A file of the [circulars] directory: its name, its resolved path and the
    text read from it. *)
Record dir_entry := {
  entry_name : jsstring;
  entry_path : jsstring;
  entry_text : option jsstring
}.

Definition loadLocalCirculars (files : list dir_entry) : gmap jsstring circular :=
  let pdfFiles :=
    List.filter (fun f => endsWith (toLowerCase (entry_name f)) (js ".pdf")) files in
  fold_left
    (fun localCirculars f =>
       match extractMetadata (entry_text f) (entry_path f) (entry_name f) with
       | Some metadata => <[entry_name f := metadata]> localCirculars
       | None => localCirculars
       end)
    pdfFiles ∅.

(** [this.localCirculars] is created by the literal [{}]: the members of
    [Object.prototype] are properties of it too, inherited ones. *)
Definition object_prototype_keys : list jsstring :=
  map js ["constructor"; "__defineGetter__"; "__defineSetter__"; "hasOwnProperty";
          "__lookupGetter__"; "__lookupSetter__"; "isPrototypeOf";
          "propertyIsEnumerable"; "toString"; "valueOf"; "__proto__";
          "toLocaleString"]%string.

(** [key in this.localCirculars] *)
Definition has_property (localCirculars : gmap jsstring circular) (key : jsstring) : bool :=
  bool_decide (is_Some (localCirculars !! key))
  || bool_decide (key ∈ object_prototype_keys).

(** [this.localCirculars[key].field]: the field of the entry stored under
    [key]; a member of [Object.prototype] (a function, or the prototype
    itself) has none of the fields of an entry. *)
Definition entry_field (localCirculars : gmap jsstring circular) (key : jsstring)
    (field : circular -> value) : value :=
  match localCirculars !! key with
  | Some c => field c
  | None => VUndefined
  end.

(** [a === b] where [b] is a string. *)
Definition strict_eq_str (a : value) (b : jsstring) : bool :=
  match a with
  | VStr s => jseqb s b
  | _ => false
  end.

(** ** Candidate Normalizer *)

(** [extractTextFromPdf]: the pages of the document, split at form feeds,
    each under a page marker; the empty string when the file cannot be
    read. *)
Fixpoint split_on (sep : N) (s : jsstring) : list jsstring :=
  match s with
  | [] => [[]]
  | c :: r =>
    if c =? sep then [] :: split_on sep r
    else match split_on sep r with
         | p :: ps => (c :: p) :: ps
         | [] => [[c]]
         end
  end.

Definition extractTextFromPdf (pdf : option jsstring) : jsstring :=
  match pdf with
  | Some text =>
    concat (imap (fun i page =>
      [10] ++ js "--- PAGE " ++ decimal (N.of_nat (i + 1)) ++ js " ---" ++ [10]
      ++ page ++ [10]) (split_on 12 text))
  | None => []
  end.

(** The answer of the inference collaborator to the prompt: a text, or a
    failure of the call. *)
Inductive reply :=
| Unavailable
| Responded (text : jsstring).

(** The cleaning of the response in [analyzeWithEnhancedAI]. *)
Definition clean_response (text : jsstring) : jsstring :=
  let responseText := trim text in
  let responseText :=
    if startsWith responseText (js "```json") then slice_from 7 responseText
    else responseText in
  let responseText :=
    if startsWith responseText (js "```") then slice_from 3 responseText
    else responseText in
  let responseText :=
    if endsWith responseText (js "```") then slice_to_minus 3 responseText
    else responseText in
  trim responseText.

(** The text of [references.length] in the message of the spinner. *)
Definition length_text (references : value) : result jsstring :=
  match references with
  | VArr items => Ok (decimal (N.of_nat (length items)))
  | VStr s => Ok (decimal (N.of_nat (length s)))
  | _ => len ← get_prop references (js "length"); to_string len
  end.

(** The [try] block of [analyzeWithEnhancedAI]. *)
Definition parse_response (r : reply) : result value :=
  match r with
  | Unavailable => Throw CollaboratorError
  | Responded text =>
    match Json.parse (clean_response text) with
    | None => Throw SyntaxError
    | Some references => _ ← length_text references; Ok references
    end
  end.

Definition analyzeWithEnhancedAI (pdf : option jsstring) (r : reply) : value :=
  let fullText := extractTextFromPdf pdf in
  if bool_decide (fullText = []) then VArr []
  else
    match parse_response r with
    | Ok references => references
    | Throw _ => VArr []
    end.

(** ** Resolution Engine *)

Definition local_file_of (localCirculars : gmap jsstring circular) (key : jsstring)
  : value :=
  VObj [(js "filename", entry_field localCirculars key (fun c => VStr (filename c)));
        (js "file_path", entry_field localCirculars key (fun c => VStr (file_path c)));
        (js "circular_number", entry_field localCirculars key circular_number);
        (js "subject", entry_field localCirculars key subject);
        (js "date", entry_field localCirculars key date)].

(** One turn of the loop of [enhanceReferencesWithAvailability]: [None] for
    [continue], [Some enhancedRef] for [push]. *)
Definition enhance_one (localCirculars : gmap jsstring circular)
    (sourceFilename : jsstring) (ref : value) : result (option object) :=
  let enhancedRef := spread ref in
  target ← get_prop ref (js "matched_target");
  let matchedTarget := or_else target (VStr []) in
  key ← to_string matchedTarget;
  let isSelfReference :=
    has_property localCirculars key
    && strict_eq_str (entry_field localCirculars key (fun c => VStr (filename c)))
         sourceFilename in
  if isSelfReference then Ok None
  else if has_property localCirculars key then
    let enhancedRef :=
      set_prop enhancedRef (js "availability_status") (VStr (js "available_locally")) in
    Ok (Some (set_prop enhancedRef (js "local_file") (local_file_of localCirculars key)))
  else
    let enhancedRef :=
      set_prop enhancedRef (js "availability_status") (VStr (js "external_reference")) in
    Ok (Some (set_prop enhancedRef (js "note")
                (VStr (js "Referenced document not in local collection")))).

Fixpoint enhance_loop (localCirculars : gmap jsstring circular)
    (sourceFilename : jsstring) (refs : list value) (enhancedReferences : list object)
  : result (list object) :=
  match refs with
  | [] => Ok enhancedReferences
  | ref :: more =>
    step ← enhance_one localCirculars sourceFilename ref;
    enhance_loop localCirculars sourceFilename more
      match step with
      | Some enhancedRef => enhancedReferences ++ [enhancedRef]
      | None => enhancedReferences
      end
  end.

Definition enhanceReferencesWithAvailability (localCirculars : gmap jsstring circular)
    (references : value) (sourceFilename : jsstring) : result (list object) :=
  refs ← iterate references;
  enhance_loop localCirculars sourceFilename refs [].

(** ** Aggregator and report *)

Definition has_status (status : string) (r : object) : bool :=
  strict_eq_str (get r (js "availability_status")) (js status).

Record summary := {
  total_references : nat;
  local_references_count : nat;
  external_references_count : nat
}.

(** [outputData] of [saveResults], the content of the file it writes; the
    date of the analysis and the resolved path of the source come from the
    clock and the file system.  The name of the file is left out. *)
Record report := {
  source_file : jsstring;
  source_file_full_path : jsstring;
  analysis_date : jsstring;
  analysis_method : jsstring;
  local_circulars_scanned : nat;
  report_summary : summary;
  compliance_note : jsstring;
  local_references : list object;
  external_references : list object;
  all_references : list object
}.

Definition saveResults (localCirculars : gmap jsstring circular)
    (references : list object) (sourceFilename resolvedPath now : jsstring) : report :=
  let localRefs := List.filter (has_status "available_locally") references in
  let externalRefs := List.filter (has_status "external_reference") references in
  {| source_file := sourceFilename;
     source_file_full_path := resolvedPath;
     analysis_date := now;
     analysis_method := js "Enhanced AI with comprehensive prompting for compliance";
     local_circulars_scanned := size localCirculars;
     report_summary :=
       {| total_references := length references;
          local_references_count := length localRefs;
          external_references_count := length externalRefs |};
     compliance_note := js "Complete regulatory reference analysis. Local references are immediately available for review. External references should be obtained for full compliance assessment.";
     local_references := localRefs;
     external_references := externalRefs;
     all_references := references |}.

(** ** Console report

    [formatResults]: one string per call of [console.log]; the colours of
    [chalk] are left out.  When a line cannot be built the exception ends the
    run, and what had been printed before it is not kept. *)

Definition nat_text (n : nat) : jsstring := decimal (N.of_nat n).

(** [`${v || 'N/A'}`] *)
Definition or_na (v : value) : result jsstring :=
  to_string (or_else v (VStr (js "N/A"))).

(** [(v || fallback)], about to receive a call of a method of strings: any
    other value has no such method. *)
Definition string_or (v : value) (fallback : string) : result jsstring :=
  match or_else v (VStr (js fallback)) with
  | VStr s => Ok s
  | _ => Throw TypeError
  end.

(** The two lines that default a missing confidence and a missing text, the
    same in the block of a local and of an external reference. *)
Definition confidence_line (ref : object) : result jsstring :=
  confidence ← string_or (get ref (js "confidence")) "unknown";
  Ok (js "   🤖 AI Confidence: " ++ toUpperCase confidence).

Definition text_line (ref : object) : result jsstring :=
  text ← or_na (get ref (js "exact_text"));
  Ok (js "   📄 Text: " ++ text).

Definition number_line (v : value) : result (list jsstring) :=
  if truthy v then n ← to_string v; Ok [js "   🔢 Number: " ++ n] else Ok [].

Definition local_block (i : nat) (ref : object) : result (list jsstring) :=
  let localFile := or_else (get ref (js "local_file")) (VObj []) in
  confidence ← confidence_line ref;
  text ← text_line ref;
  page ← or_na (get ref (js "page_number"));
  links ← get_prop localFile (js "filename") ≫= or_na;
  subj ← get_prop localFile (js "subject") ≫= or_na;
  number ← get_prop localFile (js "circular_number") ≫= number_line;
  reasoning ← or_na (get ref (js "reasoning"));
  context ← string_or (get ref (js "context")) "N/A";
  file ← get_prop localFile (js "file_path") ≫= or_na;
  Ok ([[10] ++ nat_text (i + 1) ++ js ". 🟢 LOCAL REFERENCE:";
       confidence;
       text;
       js "   📍 Page: " ++ page;
       js "   🎯 Links to: " ++ links;
       js "   📋 Subject: " ++ subj]
      ++ number
      ++ [js "   💭 AI Reasoning: " ++ reasoning;
          js "   📝 Context: " ++ take 200 context ++ js "...";
          js "   💾 File: " ++ file]).

(** [refType.charAt(0).toUpperCase() + refType.slice(1)] *)
Definition capitalize (s : jsstring) : jsstring := toUpperCase (take 1 s) ++ drop 1 s.

Definition external_block (i : nat) (ref : object) : result (list jsstring) :=
  reference_type ← string_or (get ref (js "reference_type")) "other";
  let refType := map (fun c => if c =? 95 then 32 else c) reference_type in
  confidence ← confidence_line ref;
  text ← text_line ref;
  page ← or_na (get ref (js "page_number"));
  title ← or_na (get ref (js "title"));
  number ← number_line (get ref (js "circular_number"));
  reasoning ← or_na (get ref (js "reasoning"));
  context ← string_or (get ref (js "context")) "N/A";
  Ok ([[10] ++ nat_text (i + 1) ++ js ". 🔴 EXTERNAL REFERENCE:";
       confidence;
       text;
       js "   📍 Page: " ++ page;
       js "   📂 Type: " ++ capitalize refType;
       js "   🎯 Title: " ++ title]
      ++ number
      ++ [js "   💭 AI Reasoning: " ++ reasoning;
          js "   📝 Context: " ++ take 200 context ++ js "...";
          js "   📍 Source Info: Check relevant regulatory website"]).

(** [refs.forEach((ref, i) => ...)] *)
Fixpoint blocks (block : nat -> object -> result (list jsstring)) (i : nat)
    (refs : list object) : result (list jsstring) :=
  match refs with
  | [] => Ok []
  | ref :: more =>
    lines ← block i ref;
    rest ← blocks block (S i) more;
    Ok (lines ++ rest)
  end.

Definition formatResults (references : list object) (sourceFilename now : jsstring)
  : result (list jsstring) :=
  let rule := replicate 80 (chr "=") in
  let header :=
    [[10] ++ rule;
     js "🤖 AI-BASED REFERENCE ANALYSIS RESULTS";
     js "📄 Source: " ++ sourceFilename;
     js "🕐 Analyzed: " ++ now;
     js "🎯 Total References Found: " ++ nat_text (length references);
     rule] in
  if (length references =? 0)%nat then
    Ok (header ++
        [js "❌ No references found.";
         js "💡 The AI searched thoroughly but found no regulatory references."])
  else
    let localRefs := List.filter (has_status "available_locally") references in
    let externalRefs := List.filter (has_status "external_reference") references in
    locals ←
      (if (0 <? length localRefs)%nat then
         lines ← blocks local_block 0 localRefs;
         Ok ([[10] ++ js "🟢 LOCAL REFERENCES (" ++ nat_text (length localRefs)
              ++ js ") - Available in your collection:"] ++ lines)
       else Ok []);
    externals ←
      (if (0 <? length externalRefs)%nat then
         lines ← blocks external_block 0 externalRefs;
         Ok ([[10] ++ js "🔴 EXTERNAL REFERENCES (" ++ nat_text (length externalRefs)
              ++ js ") - Need to obtain:"] ++ lines)
       else Ok []);
    Ok (header
        ++ [js "📊 SUMMARY: " ++ nat_text (length localRefs) ++ js " Local | "
            ++ nat_text (length externalRefs) ++ js " External"]
        ++ locals ++ externals
        ++ [[10] ++ js "🏦 COMPLIANCE SUMMARY:";
            js "   ✅ Local documents ready for review: " ++ nat_text (length localRefs);
            js "   📥 External documents needed: " ++ nat_text (length externalRefs)]
        ++ (if (0 <? length externalRefs)%nat then
              [js "   💡 Recommendation: Obtain external references for complete compliance review"]
            else [])).

(** ** The run

    What the host supplies to one run of [main], after the checks of the
    command line: the files of the [circulars] directory, the name of the
    document and the text read from it, the answer of the inference
    collaborator, the resolved path and the clock. *)
Record host := {
  circulars_dir : list dir_entry;
  document_name : jsstring;
  document_text : option jsstring;
  inference : reply;
  resolved_path : jsstring;
  clock_locale : jsstring;
  clock_iso : jsstring
}.

(** The action of [main]: [Throw] stands for the exit with status 1, reached
    on an empty collection or from the [catch] around the run. *)
Definition main (h : host) : result (list jsstring * report) :=
  let localCirculars := loadLocalCirculars (circulars_dir h) in
  if (size localCirculars =? 0)%nat then Throw NoLocalCirculars
  else
    let references := analyzeWithEnhancedAI (document_text h) (inference h) in
    enhancedReferences ←
      enhanceReferencesWithAvailability localCirculars references (document_name h);
    lines ← formatResults enhancedReferences (document_name h) (clock_locale h);
    Ok (lines,
        saveResults localCirculars enhancedReferences (document_name h)
          (resolved_path h) (clock_iso h)).

(** ** Statement-side definitions *)

(** A text between double quotes, for the payloads of the examples. *)
Definition quoted (s : string) : jsstring := [34] ++ js s ++ [34].

(** A candidate with the two fields the resolution and the examples look
    at. *)
Definition candidate (text target : string) : value :=
  VObj [(js "exact_text", VStr (js text)); (js "matched_target", VStr (js target))].

(** A collection of one circular, and a run over it on the document [name]
    with the answer [payload]. *)
Definition example_dir : list dir_entry :=
  [{| entry_name := js "circA.pdf";
      entry_path := js "/data/circulars/circA.pdf";
      entry_text :=
        Some (js "CIRCULAR SEBI/HO/MIRSD/CIR/P/2021/670 March 15, 2021" ++ [10]
              ++ js "Subject: Guidelines for investment advisers") |}].

Definition example_host (name : string) (payload : jsstring) : host :=
  {| circulars_dir := example_dir;
     document_name := js name;
     document_text := Some (js "As per the earlier circular, advisers must comply.");
     inference := Responded payload;
     resolved_path := js "/data/" ++ js name;
     clock_locale := js "3/15/2021, 10:00:00 AM";
     clock_iso := js "2021-03-15T10:00:00.000Z" |}.

(** The match of the first of the two labelled-line patterns that matches. *)
Definition first_labelled (text : jsstring) : option rmatch_result :=
  match exec true subject_pattern text with
  | Some m => Some m
  | None => exec true re_pattern text
  end.

(** What is left to try once the first labelled line is rejected: the [Re:]
    pattern, after a rejected [Subject:] line. *)
Definition after_rejection (text : jsstring) : value :=
  match exec true subject_pattern text, exec true re_pattern text with
  | Some _, Some m' =>
    if (10 <? length (normalized_subject m'))%nat
    then VStr (normalized_subject m') else VNull
  | _, _ => VNull
  end.

(** A resolved reference carries exactly one of the two statuses. *)
Definition materialized (r : object) : Prop :=
  (has_status "available_locally" r = true /\ has_status "external_reference" r = false)
  \/ (has_status "available_locally" r = false /\ has_status "external_reference" r = true).

(** A stretch of [text] has [term] as its lower case. *)
Definition occurs_ignoring_case (term text : jsstring) : Prop :=
  exists before stretch after,
    text = before ++ stretch ++ after /\ toLowerCase stretch = term.

(** Occurrence up to case, said without the lower-casing of the source.  The
    terms of the vocabulary are made of small ASCII letters and spaces; a
    code unit of the text stands for such a code unit [t] of a term when it is
    [t] itself, the capital of the letter [t], or the kelvin sign U+212A for
    [k]. *)
Definition same_letter (c t : N) : bool :=
  (c =? t) || ((65 <=? c) && (c <=? 90) && (c + 32 =? t)) || ((c =? 8490) && (t =? 107)).

Fixpoint matches_here (text term : jsstring) {struct term} : bool :=
  match term with
  | [] => true
  | t :: term' =>
    match text with
    | [] => false
    | c :: text' => same_letter c t && matches_here text' term'
    end
  end.

Fixpoint occurs_up_to_case (term text : jsstring) {struct text} : bool :=
  matches_here text term
  || match text with
     | [] => false
     | _ :: text' => occurs_up_to_case term text'
     end.

(** A small ASCII letter or a space. *)
Definition is_small (t : N) : bool := ((97 <=? t) && (t <=? 122)) || (t =? 32).

(** The files of the directory that [loadLocalCirculars] indexes: those whose
    name ends in [.pdf], in any case, and from which [pdf-parse] read a
    text. *)
Definition is_pdf_name (name : jsstring) : bool :=
  endsWith (toLowerCase name) (js ".pdf").

Definition indexable (f : dir_entry) : Prop :=
  is_pdf_name (entry_name f) = true /\ is_Some (entry_text f).

(** One turn of the loop of [loadLocalCirculars]. *)
Definition load_step (localCirculars : gmap jsstring circular) (f : dir_entry)
  : gmap jsstring circular :=
  match extractMetadata (entry_text f) (entry_path f) (entry_name f) with
  | Some metadata => <[entry_name f := metadata]> localCirculars
  | None => localCirculars
  end.

(** A directory of two circulars, a note and a PDF that cannot be read. *)
Definition two_circulars_dir : list dir_entry :=
  [{| entry_name := js "circA.pdf"; entry_path := js "/data/circulars/circA.pdf";
      entry_text := Some (js "SEBI/HO/MIRSD/CIR/P/2021/670 on KYC norms") |};
   {| entry_name := js "notes.txt"; entry_path := js "/data/circulars/notes.txt";
      entry_text := Some (js "Subject: not a circular at all") |};
   {| entry_name := js "CircB.PDF"; entry_path := js "/data/circulars/CircB.PDF";
      entry_text := Some (js "Circular No. 12 dated March 3, 2020") |};
   {| entry_name := js "scan.pdf"; entry_path := js "/data/circulars/scan.pdf";
      entry_text := None |}].

(** [s] is a stretch of [text]. *)
Definition stretch_of (s text : jsstring) : Prop :=
  exists before after, text = before ++ s ++ after.

(** A text whose white space is single spaces between other code units: no
    white space at either end, no white space but the space, no two spaces in
    a row.  [after_space] tells that a space, or the start, comes just
    before. *)
Fixpoint single_spaced_from (after_space : bool) (s : jsstring) : bool :=
  match s with
  | [] => negb after_space
  | c :: s' =>
    if is_space c then (c =? 32) && negb after_space && single_spaced_from true s'
    else single_spaced_from false s'
  end.

Definition single_spaced (s : jsstring) : bool := single_spaced_from true s.

(** No white space at either end. *)
Definition trimmed (s : jsstring) : bool :=
  match head s with Some c => negb (is_space c) | None => true end
  && match last s with Some c => negb (is_space c) | None => true end.

Definition all_space (s : jsstring) : Prop := Forall (fun c => is_space c = true) s.

(** A step that can only throw a [TypeError]. *)
Definition throws_only_TypeError {A} (r : result A) : Prop :=
  match r with
  | Ok _ => True
  | Throw e => e = TypeError
  end.

(** Values whose conversion to a string cannot throw: all but arrays and
    objects. *)
Definition plain (v : value) : bool :=
  match v with
  | VArr _ | VObj _ => false
  | _ => true
  end.

(** The snapshot of an entry that a local reference carries. *)
Definition snapshot (c : circular) : value :=
  VObj [(js "filename", VStr (filename c)); (js "file_path", VStr (file_path c));
        (js "circular_number", circular_number c); (js "subject", subject c);
        (js "date", date c)].

(** The names of the properties that the resolution step writes. *)
Definition written_by_resolution : list jsstring :=
  [js "availability_status"; js "local_file"; js "note"].

(** A candidate the resolution step cannot fail on: an object whose target,
    if any, is not an array or an object. *)
Definition resolvable (ref : value) : Prop :=
  exists props, ref = VObj props /\ plain (get props (js "matched_target")) = true.

(** A value on which the report can call a method of strings after the
    fallback of [||]: a string, or a falsy value, which the fallback
    replaces. *)
Definition text_or_falsy (v : value) : bool :=
  match v with
  | VStr _ => true
  | _ => negb (truthy v)
  end.

(** The properties of a reference on which both blocks of the report call a
    method of strings, and the other properties that the report reads. *)
Definition label_fields : list jsstring := [js "confidence"; js "context"].

Definition printed_fields : list jsstring :=
  [js "exact_text"; js "page_number"; js "title"; js "circular_number"; js "reasoning"].

(** A candidate on which no step of the run fails: an object whose target
    and printed properties are not arrays or objects, and whose labels and
    reference type are strings when they are set. *)
Definition well_formed (ref : value) : Prop :=
  exists props,
    ref = VObj props
    /\ plain (get props (js "matched_target")) = true
    /\ (forall name, name ∈ js "reference_type" :: label_fields ->
          text_or_falsy (get props name) = true)
    /\ (forall name, name ∈ printed_fields -> plain (get props name) = true).

(** The lines of the report that give the two counts. *)
Definition count_lines (locals externals : nat) : list jsstring :=
  [js "📊 SUMMARY: " ++ nat_text locals ++ js " Local | " ++ nat_text externals
   ++ js " External";
   js "   ✅ Local documents ready for review: " ++ nat_text locals;
   js "   📥 External documents needed: " ++ nat_text externals].

(** A payload that is a number, a boolean or an object without a [length]:
    its [length] can be printed, and it cannot be iterated. *)
Definition opaque_payload (v : value) : Prop :=
  match v with
  | VNum _ | VBool _ => True
  | VObj props => own props (js "length") = None
  | _ => False
  end.

(** [pages.join(sep)] *)
Fixpoint join_with (sep : N) (pages : list jsstring) : jsstring :=
  match pages with
  | [] => []
  | [page] => page
  | page :: more => page ++ sep :: join_with sep more
  end.

(** What [extractTextFromPdf] writes for the page of index [i]. *)
Definition page_block (i : nat) (page : jsstring) : jsstring :=
  [10] ++ js "--- PAGE " ++ decimal (N.of_nat (i + 1)) ++ js " ---" ++ [10] ++ page ++ [10].

(** A resolved reference whose block of the report can be printed: the block
    of the local references when its status is [available_locally], that of
    the external ones when it is [external_reference]. *)
Definition printable (e : object) : Prop :=
  (has_status "available_locally" e = true ->
   forall i, exists lines, local_block i e = Ok lines)
  /\ (has_status "external_reference" e = true ->
      forall i, exists lines, external_block i e = Ok lines).

(** The month names of the date pattern, and a text that is one of them up
    to the case of its ASCII letters. *)
Definition months : list jsstring :=
  map js ["January"; "February"; "March"; "April"; "May"; "June"; "July"; "August";
          "September"; "October"; "November"; "December"]%string.

Definition is_month (w : jsstring) : Prop :=
  exists name, name ∈ months /\ map to_upper w = map to_upper name.

(** * Properties *)

(** ** Strings *)

Lemma startsWith_spec (s p : jsstring) :
  startsWith s p = true <-> exists r, s = p ++ r.
Proof.
  revert s. induction p as [|b p IH]; intros s; simpl.
  - split; eauto.
  - destruct s as [|a s].
    + split; [discriminate | intros [r Hr]; discriminate].
    + rewrite andb_true_iff, N.eqb_eq, IH. split.
      * intros [-> [r ->]]. eauto.
      * intros [r Hr]. injection Hr as -> ->. eauto.
Qed.

Lemma includes_spec (s t : jsstring) :
  includes s t = true <-> exists pre post, s = pre ++ t ++ post.
Proof.
  induction s as [|a s IH]; simpl.
  - rewrite orb_false_r, startsWith_spec. split.
    + intros [r Hr]. exists [], r. done.
    + intros (pre & post & H). destruct pre; [|discriminate]. eauto.
  - rewrite orb_true_iff, startsWith_spec, IH. split.
    + intros [[r Hr] | (pre & post & ->)].
      * exists [], r. done.
      * exists (a :: pre), post. done.
    + intros (pre & post & H). destruct pre as [|b pre].
      * left. eauto.
      * right. injection H as -> ->. eauto.
Qed.

Lemma includes_unit (s : jsstring) (c : N) : includes s [c] = true <-> c ∈ s.
Proof.
  rewrite includes_spec. split.
  - intros (pre & post & ->). set_solver.
  - intros H. apply list_elem_of_split in H as (pre & post & ->). eauto.
Qed.

(** ** The matcher consumes words of the pattern *)

Section Soundness.
Context (icase : bool).

Lemma step_sound (p : N -> bool) : sound_for (fun w => exists c, w = [c] /\ p c = true) (step p).
Proof.
  intros k [s cs] res. unfold step. simpl.
  destruct s as [|c s']; [discriminate|].
  destruct (p c) eqn:Hp; [|discriminate].
  intros Hk. exists [c], {| rest := s'; caps := cs |}. eauto.
Qed.

Lemma star_loop_sound body g r :
  sound_for (lang icase r) body ->
  forall n, sound_for (lang icase (Star g r)) (fun k => star_loop body g k n).
Proof.
  intros Hbody n. induction n as [|n IH]; intros k st res; simpl.
  - intros Hk. exists [], st. split; [done|]. split; [constructor | done].
  - assert (Hagain : forall o,
      body (fun st' => if (length (rest st') <? length (rest st))%nat
                       then star_loop body g k n st' else None) st = Some o ->
      exists w st', rest st = w ++ rest st' /\ lang icase (Star g r) w /\ k st' = Some o).
    { intros o Ho. apply Hbody in Ho as (w1 & st1 & E1 & L1 & H1).
      destruct (length (rest st1) <? length (rest st))%nat; [|discriminate].
      apply IH in H1 as (w2 & st2 & E2 & L2 & H2).
      exists (w1 ++ w2), st2. rewrite E1, E2, app_assoc.
      split; [done|]. split; [by constructor | done]. }
    assert (Hstop : forall o, k st = Some o ->
      exists w st', rest st = w ++ rest st' /\ lang icase (Star g r) w /\ k st' = Some o).
    { intros o Ho. exists [], st. split; [done|]. split; [constructor | done]. }
    unfold orelse. destruct g.
    + destruct (body _ st) eqn:E; intros H.
      * injection H as <-. by apply Hagain.
      * by apply Hstop.
    + destruct (k st) eqn:E; intros H.
      * injection H as <-. by apply Hstop.
      * by apply Hagain.
Qed.

Lemma rmatch_sound (r : regex) : sound_for (lang icase r) (rmatch icase r).
Proof.
  induction r as [| a | items | | r1 IH1 r2 IH2 | r1 IH1 r2 IH2 | g r IH | n r IH |];
    intros k st res; simpl.
  - intros Hk. exists [], st. split; [done|]. split; [constructor | done].
  - intros H. apply step_sound in H as (w & st' & E & (c & -> & Hc) & Hk).
    exists [c], st'. split; [done|]. split; [by constructor | done].
  - intros H. apply step_sound in H as (w & st' & E & (c & -> & Hc) & Hk).
    exists [c], st'. split; [done|]. split; [by constructor | done].
  - intros H. apply step_sound in H as (w & st' & E & (c & -> & Hc) & Hk).
    exists [c], st'. split; [done|]. split; [by constructor | done].
  - intros H. apply IH1 in H as (w1 & st1 & E1 & L1 & H).
    apply IH2 in H as (w2 & st2 & E2 & L2 & H).
    exists (w1 ++ w2), st2. rewrite E1, E2, app_assoc.
    split; [done|]. split; [by constructor | done].
  - unfold orelse. destruct (rmatch icase r1 k st) eqn:E; intros H.
    + injection H as <-. apply IH1 in E as (w & st' & ? & ? & ?).
      exists w, st'. split; [done|]. split; [by apply lang_alt_l | done].
    + apply IH2 in H as (w & st' & ? & ? & ?).
      exists w, st'. split; [done|]. split; [by apply lang_alt_r | done].
  - intros H. by apply (star_loop_sound _ g r IH) in H.
  - intros H. apply IH in H as (w & st' & E & L & Hk).
    eexists w, {| rest := rest st'; caps := _ |}. simpl.
    split; [done|]. split; [by constructor | exact Hk].
  - destruct (rest st) eqn:E; [|discriminate]. intros Hk.
    exists [], st. split; [done|]. split; [constructor | done].
Qed.

Lemma exec_from_inv (r : regex) (i : nat) (s : jsstring) (m : rmatch_result) :
  exec_from icase r i s = Some m ->
  exists s' st,
    rmatch icase r Some {| rest := s'; caps := [] |} = Some st
    /\ m_0 m = take (length s' - length (rest st)) s'
    /\ m_caps m = caps st.
Proof.
  revert i. induction s as [|c s IH]; intros i; simpl.
  - destruct (rmatch icase r Some _) as [st|] eqn:E; [|discriminate].
    intros [= <-]. exists [], st. done.
  - destruct (rmatch icase r Some _) as [st|] eqn:E.
    + intros [= <-]. exists (c :: s), st. done.
    + apply IH.
Qed.

Lemma take_consumed (w r : jsstring) : take (length (w ++ r) - length r) (w ++ r) = w.
Proof.
  rewrite length_app. replace (length w + length r - length r)%nat with (length w) by lia.
  by rewrite take_app_length.
Qed.

(** The text of a match is a word of the pattern. *)
Lemma exec_lang (r : regex) (s : jsstring) (m : rmatch_result) :
  exec icase r s = Some m -> lang icase r (m_0 m).
Proof.
  intros H. apply exec_from_inv in H as (s' & st & H & -> & _).
  apply rmatch_sound in H as (w & st' & E & L & [= <-]). simpl in E.
  rewrite E. by rewrite take_consumed.
Qed.

(** A match of [p(v)], with [(v)] the group [n]: the text is a word of [p]
    followed by a word of [v], and the group holds the latter. *)
Lemma exec_prefix_group (p v : regex) (n : nat) (s : jsstring) (m : rmatch_result) :
  exec icase (Seq p (Group n v)) s = Some m ->
  exists w1 w2,
    m_0 m = w1 ++ w2 /\ lang icase p w1 /\ lang icase v w2
    /\ exists more, m_caps m = (n, w2) :: more.
Proof.
  intros H. apply exec_from_inv in H as (s' & st & H & -> & ->). simpl in H.
  apply rmatch_sound in H as (w1 & st1 & E1 & L1 & H). simpl in E1.
  apply rmatch_sound in H as (w2 & st2 & E2 & L2 & [= <-]). simpl.
  exists w1, w2. rewrite E1, E2.
  split; [by rewrite app_assoc, take_consumed|].
  split; [done|]. split; [done|].
  exists (caps st2). by rewrite take_consumed.
Qed.

Lemma lang_seq_inv (r1 r2 : regex) (w : jsstring) :
  lang icase (Seq r1 r2) w ->
  exists w1 w2, w = w1 ++ w2 /\ lang icase r1 w1 /\ lang icase r2 w2.
Proof. inversion 1; subst. eauto. Qed.

Lemma lang_alphabet (r : regex) (w : jsstring) :
  lang icase r w -> Forall (fun c => alphabet icase r c = true) w.
Proof.
  induction 1; simpl; try (by constructor); try done.
  - apply Forall_app. split; eapply Forall_impl; eauto; simpl; intros ? ->; done || by rewrite orb_true_r.
  - eapply Forall_impl; eauto. simpl. by intros ? ->.
  - eapply Forall_impl; eauto. simpl. intros ? ->. by rewrite orb_true_r.
  - apply Forall_app. done.
Qed.

Lemma lang_word (p w : jsstring) :
  lang icase (word p) w -> Forall2 (fun a c => lit_mem icase a c = true) p w.
Proof.
  revert w. induction p as [|a p IH]; intros w H; simpl in H.
  - inversion H. constructor.
  - inversion H as [| | | | r1 r2 w1 w2 H1 H2 | | | | | |]; subst.
    inversion H1; subst. simpl. constructor; [done | by apply IH].
Qed.
End Soundness.

(** ** The loop of a quantifier never reaches its bound *)

Lemma step_forward (p : N -> bool) : forward (step p).
Proof.
  intros k1 k2 [s cs] H. unfold step. simpl in *.
  destruct s as [|c s']; [done|]. destruct (p c); [|done].
  apply H. simpl. lia.
Qed.

Lemma star_loop_forward body g n : forward body -> forward (fun k => star_loop body g k n).
Proof.
  intros Hbody. induction n as [|n IH]; intros k1 k2 st H; simpl.
  - by apply H.
  - rewrite (H st) by done.
    rewrite (Hbody _ (fun st' => if (length (rest st') <? length (rest st))%nat
                                  then star_loop body g k2 n st' else None) st); [done|].
    intros st' Hle. destruct (length (rest st') <? length (rest st))%nat eqn:E; [|done].
    apply Nat.ltb_lt in E. apply IH. intros st'' Hle'. apply H. lia.
Qed.

Lemma rmatch_forward icase (r : regex) : forward (rmatch icase r).
Proof.
  induction r as [| a | items | | r1 IH1 r2 IH2 | r1 IH1 r2 IH2 | g r IH | n r IH |];
    intros k1 k2 st H; simpl.
  - by apply H.
  - by apply step_forward.
  - by apply step_forward.
  - by apply step_forward.
  - apply IH1. intros st' Hle. apply IH2. intros st'' Hle'. apply H. lia.
  - by rewrite (IH1 k1 k2 st H), (IH2 k1 k2 st H).
  - by apply (star_loop_forward _ g _ IH).
  - apply IH. intros st' Hle. by apply H.
  - pose proof (H st (le_n _)) as Hst. destruct (rest st); [exact Hst | done].
Qed.

(** The bound of the loop of a quantifier is never reached: a larger bound
    gives the same result. *)
Lemma star_loop_fuel body g k :
  forward body ->
  (forall st, body (fun _ => None) st = None) ->
  forall n m st,
    (length (rest st) <= n)%nat -> (n <= m)%nat ->
    star_loop body g k m st = star_loop body g k n st.
Proof.
  intros Hfwd Hnone. induction n as [|n IH]; intros m st Hlen Hm.
  - destruct m as [|m]; [done|]. simpl.
    rewrite (Hfwd _ (fun _ => None) st).
    + rewrite Hnone. unfold orelse. destruct g; [done | by destruct (k st)].
    + intros st' Hle. destruct (length (rest st') <? length (rest st))%nat eqn:E; [|done].
      apply Nat.ltb_lt in E. lia.
  - destruct m as [|m]; [lia|]. simpl.
    rewrite (Hfwd _ (fun st' => if (length (rest st') <? length (rest st))%nat
                                  then star_loop body g k n st' else None) st); [done|].
    intros st' Hle. destruct (length (rest st') <? length (rest st))%nat eqn:E; [|done].
    apply Nat.ltb_lt in E. apply IH; lia.
Qed.

Lemma rmatch_star_fuel icase g r k st (extra : nat) :
  rmatch icase (Star g r) k st
  = star_loop (rmatch icase r) g k (length (rest st) + extra) st.
Proof.
  simpl. symmetry. apply star_loop_fuel; [apply rmatch_forward | | lia | lia].
  intros st'. destruct (rmatch icase r (fun _ => None) st') as [res|] eqn:E; [|done].
  by apply rmatch_sound in E as (? & ? & _ & _ & ?).
Qed.

(** ** The fuel of the JSON parser *)

Lemma skip_ws_length (s : jsstring) : (length (Json.skip_ws s) <= length s)%nat.
Proof.
  induction s as [|c s IH]; simpl; [done|]. destruct (Json.is_ws c); simpl; lia.
Qed.

Lemma skip_ws_cons (s r : jsstring) (c : N) :
  Json.skip_ws s = c :: r -> (length r < length s)%nat.
Proof. intros H. pose proof (skip_ws_length s) as Hle. rewrite H in Hle. simpl in Hle. lia. Qed.

Lemma string_body_length (s body r : jsstring) :
  Json.string_body s = Some (body, r) -> (length r < length s)%nat.
Proof.
  remember (length s) as n eqn:Hn. assert (Hle : (length s <= n)%nat) by lia. clear Hn.
  revert s body r Hle. induction n as [|n IH]; intros s body r Hle.
  - destruct s; [done | simpl in Hle; lia].
  - destruct s as [|c s]; [done|]. simpl in Hle. simpl.
    destruct (c =? 34); [intros [= <- <-]; simpl; lia|].
    destruct (c =? 92).
    + destruct s as [|e s1]; [done|]. simpl in Hle.
      destruct (e =? 117).
      * destruct s1 as [|h1 [|h2 [|h3 [|h4 s2]]]]; try done.
        simpl in Hle.
        destruct (Json.hex_digit h1); [simpl|done].
        destruct (Json.hex_digit h2); [simpl|done].
        destruct (Json.hex_digit h3); [simpl|done].
        destruct (Json.hex_digit h4); [simpl|done].
        destruct (Json.string_body s2) as [[b r']|] eqn:E; [simpl|done].
        intros [= <- <-]. apply IH in E; [simpl; lia | lia].
      * destruct (Json.unescape e); [simpl|done].
        destruct (Json.string_body s1) as [[b r']|] eqn:E; [simpl|done].
        intros [= <- <-]. apply IH in E; [simpl; lia | lia].
    + destruct (c <? 32); [done|].
      destruct (Json.string_body s) as [[b r']|] eqn:E; [simpl|done].
      intros [= <- <-]. apply IH in E; [simpl; lia | lia].
Qed.

Lemma digits_length (s ds r : jsstring) :
  Json.digits s = (ds, r) -> (length r <= length s)%nat.
Proof.
  revert ds r. induction s as [|c s IH]; intros ds r; simpl.
  - by intros [= <- <-].
  - destruct (is_digit c).
    + destruct (Json.digits s) as [ds' r'] eqn:E. intros [= <- <-].
      specialize (IH _ _ eq_refl). lia.
    + intros [= <- <-]. simpl. lia.
Qed.

Lemma number_lit_length (s r : jsstring) (x : number) :
  Json.number_lit s = Some (x, r) -> (length r <= length s)%nat.
Proof.
  unfold Json.number_lit.
  repeat (simpl; match goal with
    | |- context [Json.digits ?t] =>
      let E := fresh "E" in
      destruct (Json.digits t) as [? ?] eqn:E; apply digits_length in E; simpl in E
    | |- context [match ?t with [] => _ | _ :: _ => _ end] => destruct t
    | |- context [if ?b then _ else _] => destruct b
    | |- Some _ = Some _ -> _ => intros [= <- <-]
    | |- None = Some _ -> _ => done
    end); simpl in *; try lia.
Qed.

Lemma elements_length one n s vs r :
  Json.shrinking one -> Json.elements one n s = Some (vs, r) -> (length r <= length s)%nat.
Proof.
  intros Hone. revert s vs r. induction n as [|n IH]; intros s vs r; simpl; [done|].
  destruct (one s) as [[v s1]|] eqn:E1; [simpl|done]. apply Hone in E1.
  destruct (Json.skip_ws s1) as [|d s2] eqn:E2; [done|]. apply skip_ws_cons in E2.
  destruct (d =? 44).
  - destruct (Json.elements one n s2) as [[vs' s3]|] eqn:E3; [simpl|done].
    intros [= <- <-]. apply IH in E3. lia.
  - destruct (d =? 93); [|done]. intros [= <- <-]. lia.
Qed.

Lemma members_length one n acc s props r :
  Json.shrinking one -> Json.members one n acc s = Some (props, r) -> (length r <= length s)%nat.
Proof.
  intros Hone. revert acc s props r. induction n as [|n IH]; intros acc s props r; simpl; [done|].
  destruct (Json.skip_ws s) as [|q s0] eqn:E0; [done|]. apply skip_ws_cons in E0.
  destruct (q =? 34); [|done].
  destruct (Json.string_body s0) as [[key s1]|] eqn:E1; [simpl|done].
  apply string_body_length in E1.
  destruct (Json.skip_ws s1) as [|colon s2] eqn:E2; [done|]. apply skip_ws_cons in E2.
  destruct (colon =? 58); [|done].
  destruct (one s2) as [[v s3]|] eqn:E3; [simpl|done]. apply Hone in E3.
  destruct (Json.skip_ws s3) as [|d s4] eqn:E4; [done|]. apply skip_ws_cons in E4.
  destruct (d =? 44).
  - intros E5. apply IH in E5. lia.
  - destruct (d =? 125); [|done]. intros [= <- <-]. lia.
Qed.

Lemma value_at_length (fuel : nat) : Json.shrinking (Json.value_at fuel).
Proof.
  induction fuel as [|fuel IH]; intros s v r; simpl; [done|].
  destruct (Json.skip_ws s) as [|c r0] eqn:E0; [done|].
  pose proof (skip_ws_length s) as Hs. rewrite E0 in Hs. simpl in Hs.
  destruct (c =? 34).
  { destruct (Json.string_body r0) as [[str r']|] eqn:E; [simpl|done].
    apply string_body_length in E. intros [= <- <-]. lia. }
  destruct (c =? 91).
  { destruct (Json.skip_ws r0) as [|c1 r1] eqn:E1; [done|]. apply skip_ws_cons in E1.
    destruct (c1 =? 93); [intros [= <- <-]; lia|].
    destruct (Json.elements _ fuel r0) as [[items r']|] eqn:E; [simpl|done].
    apply elements_length in E; [|done]. intros [= <- <-]. lia. }
  destruct (c =? 123).
  { destruct (Json.skip_ws r0) as [|c1 r1] eqn:E1; [done|]. apply skip_ws_cons in E1.
    destruct (c1 =? 125); [intros [= <- <-]; lia|].
    destruct (Json.members _ fuel [] r0) as [[props r']|] eqn:E; [simpl|done].
    apply members_length in E; [|done]. intros [= <- <-]. lia. }
  match goal with |- context [if ?b then _ else _] => destruct b end;
    [intros [= <- <-]; rewrite ?length_drop; simpl; lia|].
  match goal with |- context [if ?b then _ else _] => destruct b end;
    [intros [= <- <-]; rewrite ?length_drop; simpl; lia|].
  match goal with |- context [if ?b then _ else _] => destruct b end;
    [intros [= <- <-]; rewrite ?length_drop; simpl; lia|].
  destruct (Json.number_lit (c :: r0)) as [[x r']|] eqn:E; [simpl|done].
  apply number_lit_length in E. simpl in E. intros [= <- <-]. lia.
Qed.

Section Agreement.
Context (one1 one2 : jsstring -> option (value * jsstring)) (bound : nat).
Hypothesis agree : forall s, (length s < bound)%nat -> one1 s = one2 s.
Hypothesis shrink : Json.shrinking one2.

Lemma elements_agree n1 n2 s :
  (length s < bound)%nat -> (length s < n1)%nat -> (length s < n2)%nat ->
  Json.elements one1 n1 s = Json.elements one2 n2 s.
Proof.
  revert n2 s. induction n1 as [|n1 IH]; intros n2 s Hb H1 H2; [lia|].
  destruct n2 as [|n2]; [lia|]. simpl. rewrite agree by done.
  destruct (one2 s) as [[v s1]|] eqn:E1; [simpl|done]. apply shrink in E1.
  destruct (Json.skip_ws s1) as [|d s2] eqn:E2; [done|]. apply skip_ws_cons in E2.
  destruct (d =? 44); [|done].
  by rewrite (IH n2 s2) by lia.
Qed.

Lemma members_agree n1 n2 acc s :
  (length s < bound)%nat -> (length s < n1)%nat -> (length s < n2)%nat ->
  Json.members one1 n1 acc s = Json.members one2 n2 acc s.
Proof.
  revert n2 acc s. induction n1 as [|n1 IH]; intros n2 acc s Hb H1 H2; [lia|].
  destruct n2 as [|n2]; [lia|]. simpl.
  destruct (Json.skip_ws s) as [|q s0] eqn:E0; [done|]. apply skip_ws_cons in E0.
  destruct (q =? 34); [|done].
  destruct (Json.string_body s0) as [[key s1]|] eqn:E1; [simpl|done].
  apply string_body_length in E1.
  destruct (Json.skip_ws s1) as [|colon s2] eqn:E2; [done|]. apply skip_ws_cons in E2.
  destruct (colon =? 58); [|done].
  rewrite agree by lia.
  destruct (one2 s2) as [[v s3]|] eqn:E3; [simpl|done]. apply shrink in E3.
  destruct (Json.skip_ws s3) as [|d s4] eqn:E4; [done|]. apply skip_ws_cons in E4.
  destruct (d =? 44); [|done].
  apply IH; lia.
Qed.
End Agreement.

(** A fuel above the length of the text is never used up: more fuel gives the
    same result. *)
Lemma value_at_fuel (n m : nat) (s : jsstring) :
  (length s < n)%nat -> (n <= m)%nat -> Json.value_at m s = Json.value_at n s.
Proof.
  revert m s. induction n as [|n IH]; intros m s Hs Hm; [lia|].
  destruct m as [|m]; [lia|]. simpl.
  assert (Hagree : forall s', (length s' < n)%nat -> Json.value_at m s' = Json.value_at n s').
  { intros s' Hs'. apply IH; lia. }
  pose proof (value_at_length n) as Hshrink.
  destruct (Json.skip_ws s) as [|c r0] eqn:E0; [done|]. apply skip_ws_cons in E0.
  destruct (c =? 34); [done|].
  destruct (c =? 91).
  { destruct (Json.skip_ws r0) as [|c1 r1]; [done|]. destruct (c1 =? 93); [done|].
    by rewrite (elements_agree _ _ n Hagree Hshrink m n r0) by lia. }
  destruct (c =? 123); [|done].
  destruct (Json.skip_ws r0) as [|c1 r1]; [done|]. destruct (c1 =? 125); [done|].
  by rewrite (members_agree _ _ n Hagree Hshrink m n [] r0) by lia.
Qed.

Lemma parse_fuel (text : jsstring) (extra : nat) :
  Json.parse text
  = ('(v, r) ← Json.value_at (S (length text) + extra) text;
     match Json.skip_ws r with [] => Some v | _ => None end).
Proof.
  unfold Json.parse. by rewrite (value_at_fuel (S (length text)) (S (length text) + extra)) by lia.
Qed.

(** Numbers are tested and printed as the doubles [JSON.parse] makes of
    them. *)
Example numbers_are_doubles :
  (forall v, Json.parse (js "[9007199254740993, 0.1000000000000000055, 1e-400, 1e400, 5e-324, 1e21, 0.000001, 1e-7, -0]") = Some v ->
     to_string v
     = Ok (js "9007199254740992,0.1,0,Infinity,5e-324,1e+21,0.000001,1e-7,0"))
  /\ (forall v, Json.parse (js "1e-400") = Some v -> truthy v = false)
  /\ (forall v, Json.parse (js "2e-324") = Some v -> truthy v = false)
  /\ (forall v, Json.parse (js "3e-324") = Some v -> truthy v = true)
  /\ (forall v, Json.parse (js "-0.0") = Some v -> truthy v = false).
Proof.
  split_and!; intros v H; vm_compute in H; injection H as <-; by vm_compute.
Qed.

(** ** Circular numbers *)

Lemma word_upper (p w : jsstring) :
  Forall2 (fun a c => lit_mem true a c = true) p w -> map to_upper w = map to_upper p.
Proof.
  induction 1 as [|a c p w H _ IH]; simpl; [done|].
  unfold lit_mem in H. apply N.eqb_eq in H. by rewrite H, IH.
Qed.

Lemma upper_slash (c : N) : to_upper c = 47 -> c = 47.
Proof.
  unfold to_upper. destruct (_ && _) eqn:E; [|done].
  apply andb_true_iff in E as [E1 E2]. apply N.leb_le in E1, E2. lia.
Qed.

(** Every match of the canonical pattern contains a slash: it begins with
    [SEBI/]. *)
Lemma canonical_has_slash (text : jsstring) (m : rmatch_result) :
  exec true canonical_pattern text = Some m -> includes (m_0 m) (js "/") = true.
Proof.
  intros H. apply exec_lang in H.
  cbv [canonical_pattern seqs fold_right] in H.
  apply lang_seq_inv in H as (w1 & w2 & -> & H1 & _).
  apply lang_word, word_upper in H1.
  apply (includes_unit (w1 ++ w2) 47), elem_of_app. left.
  change (map to_upper (js "SEBI/")) with [83; 69; 66; 73; 47] in H1.
  destruct w1 as [|c1 [|c2 [|c3 [|c4 [|c5 [|]]]]]]; try discriminate.
  injection H1 as _ _ _ _ H5. apply upper_slash in H5. set_solver.
Qed.

(** The label of the generic pattern: [Circular], separators, [No], an
    optional point and white space; none of it is a slash. *)
Lemma generic_label (label : jsstring) :
  lang true generic_prefix label ->
  (47 ∉ label) /\ map to_upper (take 8 label) = js "CIRCULAR".
Proof.
  intros H. split.
  - apply lang_alphabet in H. intros Hin.
    rewrite Forall_forall in H. apply H in Hin. vm_compute in Hin. discriminate.
  - cbv [generic_prefix seqs fold_right] in H.
    apply lang_seq_inv in H as (w1 & w2 & -> & H1 & _).
    apply lang_word in H1. pose proof (Forall2_length _ _ _ H1) as Hlen.
    apply word_upper in H1.
    rewrite take_app_length'; [exact H1 | done].
Qed.

(** C8. Whenever the canonical slash-delimited SEBI identifier pattern and the
    generic [Circular No.] pattern both match a text, [extractCircularNumber]
    returns the text matched by the canonical pattern, wherever in the text
    the generic pattern matches. *)
Theorem canonical_takes_precedence (text : jsstring) (mc mg : rmatch_result) :
  exec true canonical_pattern text = Some mc ->
  exec true generic_pattern text = Some mg ->
  extractCircularNumber text = VStr (m_0 mc).
Proof.
  intros Hc _. unfold extractCircularNumber. simpl.
  rewrite Hc. by rewrite (canonical_has_slash text mc Hc).
Qed.

(** The generic label comes first in this text, at index 0, and the canonical
    identifier, at index 20, is still the result. *)
Lemma canonical_takes_precedence_witness :
  let text := js "Circular No. 12 see SEBI/HO/CIR/X/2020/1" in
  (m_index <$> exec true generic_pattern text) = Some 0%nat
  /\ (m_index <$> exec true canonical_pattern text) = Some 20%nat
  /\ extractCircularNumber text = VStr (js "SEBI/HO/CIR/X/2020/1").
Proof.
  intros text.
  destruct (exec true canonical_pattern text) as [mc|] eqn:Hc; [|vm_compute in Hc; discriminate].
  destruct (exec true generic_pattern text) as [mg|] eqn:Hg; [|vm_compute in Hg; discriminate].
  split; [vm_compute in Hg; by injection Hg as <-|].
  split; [vm_compute in Hc; by injection Hc as <-|].
  rewrite (canonical_takes_precedence text mc mg Hc Hg).
  vm_compute in Hc. by injection Hc as <-.
Defined.

(** C10. When the canonical pattern does not match and the generic
    [Circular No.] pattern does, the match is a label (beginning with
    [Circular], in any case, and free of slashes) followed by the captured
    value; [extractCircularNumber] returns the captured value alone when it
    contains no slash, and the whole match, label included, when it contains
    one. *)
Theorem generic_keeps_label_on_slash (text : jsstring) (mg : rmatch_result) :
  exec true canonical_pattern text = None ->
  exec true generic_pattern text = Some mg ->
  exists label v,
    m_0 mg = label ++ v /\ group mg 1 = Some v
    /\ map to_upper (take 8 label) = js "CIRCULAR"
    /\ extractCircularNumber text
       = VStr (if includes v (js "/") then label ++ v else v).
Proof.
  intros Hc Hg. unfold extractCircularNumber. simpl. rewrite Hc, Hg.
  apply exec_prefix_group in Hg as (label & v & E0 & Hl & _ & more & Ecaps).
  apply generic_label in Hl as [Hslash Hup].
  exists label, v. unfold group_value, group. rewrite E0, Ecaps. simpl.
  split_and!; [done..|].
  change (js "/") with [47].
  destruct (includes v [47]) eqn:Ev.
  - apply (includes_unit v 47) in Ev.
    assert (Hin : includes (label ++ v) [47] = true).
    { apply (includes_unit (label ++ v) 47). set_solver. }
    by rewrite Hin.
  - destruct (includes (label ++ v) [47]) eqn:Hin; [|done].
    apply (includes_unit (label ++ v) 47), elem_of_app in Hin as [Hin|Hin]; [done|].
    apply (includes_unit v 47) in Hin. congruence.
Qed.

(** A value without a slash is returned alone, a value with a slash together
    with its label. *)
Lemma generic_keeps_label_on_slash_witness :
  extractCircularNumber (js "Circular No. ABC-12 of 2020") = VStr (js "ABC-12")
  /\ extractCircularNumber (js "Circular No. CIR/MRD/12 of 2020")
     = VStr (js "Circular No. CIR/MRD/12").
Proof.
  split.
  - destruct (generic_keeps_label_on_slash (js "Circular No. ABC-12 of 2020")
                {| m_index := 0; m_0 := js "Circular No. ABC-12";
                   m_caps := [(1%nat, js "ABC-12")] |})
      as (label & v & _ & Hv & _ & ->); [by vm_compute | by vm_compute |].
    injection Hv as <-. done.
  - destruct (generic_keeps_label_on_slash (js "Circular No. CIR/MRD/12 of 2020")
                {| m_index := 0; m_0 := js "Circular No. CIR/MRD/12";
                   m_caps := [(1%nat, js "CIR/MRD/12")] |})
      as (label & v & E0 & Hv & _ & ->); [by vm_compute | by vm_compute |].
    injection Hv as <-. simpl in E0.
    change (includes (js "CIR/MRD/12") (js "/")) with true. simpl.
    by rewrite <- E0.
Defined.

(** ** Subjects *)

(** The claim as stated fails: a [Subject:] line of exactly 10 characters is
    rejected, but the [Re:] line after it is then tried and returned. *)
Lemma subject_boundary_counterexample :
  let text := js "Subject: 0123456789" ++ [10] ++ js "Re: a longer subject line" in
  exists m,
    exec true subject_pattern text = Some m
    /\ normalized_subject m = js "0123456789"
    /\ length (normalized_subject m) = 10%nat
    /\ extractSubject text = VStr (js "a longer subject line")
    /\ extractSubject text <> VNull.
Proof.
  eexists. split; [by vm_compute|]. by vm_compute.
Qed.

(** C7 (amended). Let the first labelled line be the match of [Subject:], or
    of [Re:] when [Subject:] does not match.  When its text, trimmed and with
    white space collapsed, has exactly 11 characters, [extractSubject] yields
    that text.  When it has exactly 10, the line is rejected and the result is
    absent, except that after a rejected [Subject:] line the [Re:] pattern is
    still tried and its text is returned when it is longer than 10
    characters. *)
Theorem subject_boundary (text : jsstring) (m : rmatch_result) :
  first_labelled text = Some m ->
  (length (normalized_subject m) = 11%nat ->
   extractSubject text = VStr (normalized_subject m))
  /\ (length (normalized_subject m) = 10%nat ->
      extractSubject text = after_rejection text).
Proof.
  unfold first_labelled, after_rejection, extractSubject. simpl.
  destruct (exec true subject_pattern text) as [ms|] eqn:Hs.
  - intros [= ->]. split; intros Hlen; rewrite Hlen; simpl.
    + done.
    + destruct (exec true re_pattern text) as [m'|]; [|done].
      by destruct (10 <? length (normalized_subject m'))%nat.
  - intros Hr. rewrite Hr. split; intros Hlen; rewrite Hlen; simpl; done.
Qed.

(** Ten characters under either label are rejected, eleven are returned, and
    a [Re:] line is tried after a rejected [Subject:] line. *)
Lemma subject_boundary_witness :
  extractSubject (js "Subject:   0123456789  ") = VNull
  /\ extractSubject (js "Subject:  0123  56  890 ") = VStr (js "0123 56 890")
  /\ extractSubject (js "Re: 0123456789") = VNull
  /\ extractSubject (js "Re: 01234567890") = VStr (js "01234567890")
  /\ extractSubject (js "Subject: 0123456789" ++ [10] ++ js "Re: a longer subject line")
     = VStr (js "a longer subject line").
Proof.
  split_and!.
  - refine (proj2 (subject_boundary (js "Subject:   0123456789  ")
      {| m_index := 0; m_0 := js "Subject:   0123456789  ";
         m_caps := [(1%nat, js "0123456789  ")] |} _) _); by vm_compute.
  - refine (proj1 (subject_boundary (js "Subject:  0123  56  890 ")
      {| m_index := 0; m_0 := js "Subject:  0123  56  890 ";
         m_caps := [(1%nat, js "0123  56  890 ")] |} _) _); by vm_compute.
  - refine (proj2 (subject_boundary (js "Re: 0123456789")
      {| m_index := 0; m_0 := js "Re: 0123456789";
         m_caps := [(1%nat, js "0123456789")] |} _) _); by vm_compute.
  - refine (proj1 (subject_boundary (js "Re: 01234567890")
      {| m_index := 0; m_0 := js "Re: 01234567890";
         m_caps := [(1%nat, js "01234567890")] |} _) _); by vm_compute.
  - refine (proj2 (subject_boundary
      (js "Subject: 0123456789" ++ [10] ++ js "Re: a longer subject line")
      {| m_index := 0; m_0 := js "Subject: 0123456789" ++ [10];
         m_caps := [(1%nat, js "0123456789")] |} _) _); by vm_compute.
Defined.

(** ** Key terms *)

Lemma push_loop_filter {A} (P : A -> bool) (l acc : list A) :
  fold_left (fun found x => if P x then found ++ [x] else found) l acc
  = acc ++ List.filter P l.
Proof.
  revert acc. induction l as [|x l IH]; intros acc; simpl.
  - by rewrite app_nil_r.
  - rewrite IH. destruct (P x); [|done]. by rewrite <- app_assoc.
Qed.

Lemma extractKeyTerms_filter (text : jsstring) :
  extractKeyTerms text = List.filter (includes (toLowerCase text)) terms.
Proof. unfold extractKeyTerms. by rewrite push_loop_filter. Qed.

Lemma sublist_filter_bool {A} (P : A -> bool) (l : list A) : sublist (List.filter P l) l.
Proof.
  induction l as [|x l IH]; simpl; [done|].
  destruct (P x); by constructor.
Qed.

Lemma toLowerCase_app (a b : jsstring) :
  toLowerCase (a ++ b) = toLowerCase a ++ toLowerCase b.
Proof. apply flat_map_app. Qed.

(** The lower case of a code unit is one code unit, or [i] followed by
    U+0307. *)
Lemma lower_unit_cases (c : N) :
  (exists x, lower_unit c = [x]) \/ lower_unit c = [105; 775].
Proof.
  unfold lower_unit. repeat (destruct (_ : bool); [eauto|]); eauto.
Qed.

(** A term found at the head of the lower-cased text is the lower case of a
    stretch of the text, unless it stops in the middle of the lower case of
    U+0130, in which case it ends in [i]. *)
Lemma lower_prefix (text t post : jsstring) :
  toLowerCase text = t ++ post ->
  (forall t0, t <> t0 ++ [105]) ->
  exists stretch after, text = stretch ++ after /\ toLowerCase stretch = t.
Proof.
  revert t. induction text as [|c text IH]; intros t E Hend.
  - destruct t; [|discriminate]. exists [], []. done.
  - destruct t as [|y t]; [by exists [], (c :: text)|].
    change (toLowerCase (c :: text)) with (lower_unit c ++ toLowerCase text) in E.
    destruct (lower_unit_cases c) as [[x Hc] | Hc]; rewrite Hc in E; simpl in E.
    + injection E as <- E. apply IH in E as (m & b & -> & <-).
      * exists (c :: m), b. split; [done|].
        change (toLowerCase (c :: m)) with (lower_unit c ++ toLowerCase m).
        by rewrite Hc.
      * intros t0 ->. by apply (Hend (x :: t0)).
    + injection E as <- E. destruct t as [|z t]; [exfalso; by apply (Hend [])|].
      injection E as <- E. apply IH in E as (m & b & -> & <-).
      * exists (c :: m), b. split; [done|].
        change (toLowerCase (c :: m)) with (lower_unit c ++ toLowerCase m).
        by rewrite Hc.
      * intros t0 ->. by apply (Hend (105 :: 775 :: t0)).
Qed.

Lemma lower_infix (text pre t post : jsstring) :
  toLowerCase text = pre ++ t ++ post ->
  (forall t0, t <> t0 ++ [105]) ->
  (forall t0, t <> 775 :: t0) ->
  occurs_ignoring_case t text.
Proof.
  revert pre. induction text as [|c text IH]; intros pre E Hend Hstart.
  - destruct pre; [|discriminate]. destruct t; [|discriminate].
    exists [], [], []. done.
  - destruct pre as [|p pre].
    + change ([] ++ t ++ post) with (t ++ post) in E. apply lower_prefix in E as (m & b & Em & <-); [|done].
      exists [], m, b. by rewrite Em.
    + change (toLowerCase (c :: text)) with (lower_unit c ++ toLowerCase text) in E.
      assert (Hmore : forall pre', toLowerCase text = pre' ++ t ++ post ->
                occurs_ignoring_case t (c :: text)).
      { intros pre' E'. apply IH in E' as (a & m & b & -> & <-); [|done..].
        exists (c :: a), m, b. done. }
      destruct (lower_unit_cases c) as [[x Hc] | Hc]; rewrite Hc in E; simpl in E.
      * injection E as _ E. by apply (Hmore pre).
      * injection E as _ E. destruct pre as [|q pre]; simpl in E.
        -- destruct t as [|z t]; [by exists [], [], (c :: text)|].
           injection E as <- _. exfalso. by apply (Hstart t).
        -- injection E as _ E. by apply (Hmore pre).
Qed.

Lemma terms_shape :
  Forall (fun t => (forall t0, t <> t0 ++ [105]) /\ (forall t0, t <> 775 :: t0)) terms.
Proof.
  assert (H : forall t : jsstring,
             last t <> Some 105 -> head t <> Some 775 ->
             (forall t0, t <> t0 ++ [105]) /\ (forall t0, t <> 775 :: t0)).
  { intros t Hl Hh. split; intros t0 ->.
    - by rewrite last_snoc in Hl.
    - done. }
  repeat (constructor; [apply H; by vm_compute|]). constructor.
Qed.

Lemma includes_lower_occurs (term text : jsstring) :
  term ∈ terms ->
  includes (toLowerCase text) term = true <-> occurs_ignoring_case term text.
Proof.
  intros Hterm. rewrite includes_spec. split.
  - intros (pre & post & E).
    pose proof terms_shape as Hshape. rewrite Forall_forall in Hshape.
    destruct (Hshape term Hterm) as [Hend Hstart].
    by apply (lower_infix text pre term post).
  - intros (a & m & b & -> & <-).
    exists (toLowerCase a), (toLowerCase b). by rewrite !toLowerCase_app.
Qed.

(** *** Occurrence up to case *)

Ltac to_arith :=
  repeat match goal with
  | H : _ && _ = true |- _ => apply andb_true_iff in H as [? ?]
  | H : _ && _ = false |- _ => apply andb_false_iff in H
  | H : _ || _ = true |- _ => apply orb_true_iff in H
  | H : _ || _ = false |- _ => apply orb_false_iff in H as [? ?]
  | H : negb _ = true |- _ => apply negb_true_iff in H
  | H : negb _ = false |- _ => apply negb_false_iff in H
  | H : (_ <=? _) = true |- _ => apply N.leb_le in H
  | H : (_ <=? _) = false |- _ => apply N.leb_gt in H
  | H : (_ =? _) = true |- _ => apply N.eqb_eq in H
  | H : (_ =? _) = false |- _ => apply N.eqb_neq in H
  end.

(** The code units whose lower case is a small ASCII letter or a space [t]:
    [t], its capital, and the kelvin sign for [k]. *)
Lemma lower_unit_small (c t : N) :
  is_small t = true -> lower_unit c = [t] <-> same_letter c t = true.
Proof.
  unfold is_small, lower_unit, same_letter. intros Ht.
  destruct ((65 <=? c) && (c <=? 90)) eqn:E1;
    [|destruct ((192 <=? c) && (c <=? 222) && negb (c =? 215)) eqn:E2;
      [|destruct (c =? 8490) eqn:E3; [|destruct (c =? 304) eqn:E4]]];
    (split; [intros [= H] | intros H]); to_arith;
    rewrite ?orb_true_iff, ?andb_true_iff, ?N.eqb_eq, ?N.leb_le in *;
    try (f_equal; lia); try lia.
Qed.

Lemma lower_stretch (stretch term : jsstring) :
  forallb is_small term = true ->
  toLowerCase stretch = term <-> Forall2 (fun c t => same_letter c t = true) stretch term.
Proof.
  revert term. induction stretch as [|c stretch IH]; intros term Hterm.
  - split; [intros <-; constructor | by inversion 1].
  - change (toLowerCase (c :: stretch)) with (lower_unit c ++ toLowerCase stretch).
    split.
    + intros E. destruct (lower_unit_cases c) as [[x Hc] | Hc]; rewrite Hc in E.
      * destruct term as [|t term]; [discriminate|]. injection E as -> E.
        simpl in Hterm. apply andb_true_iff in Hterm as [Ht Hterm].
        constructor; [by apply lower_unit_small | by apply IH].
      * destruct term as [|t [|t' term]]; try discriminate. injection E as <- <- _.
        by vm_compute in Hterm.
    + inversion 1 as [|? t ? term' Hc Hrest]; subst.
      simpl in Hterm. apply andb_true_iff in Hterm as [Ht Hterm].
      apply (lower_unit_small c t Ht) in Hc. rewrite Hc. simpl. f_equal. by apply IH.
Qed.

Lemma terms_small : Forall (fun term => forallb is_small term = true) terms.
Proof. repeat (constructor; [by vm_compute|]). constructor. Qed.

Lemma matches_here_spec (text term : jsstring) :
  matches_here text term = true
  <-> exists stretch after,
        text = stretch ++ after /\ Forall2 (fun c t => same_letter c t = true) stretch term.
Proof.
  revert text. induction term as [|t term IH]; intros text; simpl.
  - split; [intros _; exists [], text; by split; [|constructor] | done].
  - destruct text as [|c text].
    + split; [done|]. intros (stretch & after & E & H). inversion H; subst. discriminate.
    + rewrite andb_true_iff, IH. split.
      * intros (Hc & stretch & after & -> & H). exists (c :: stretch), after.
        split; [done | by constructor].
      * intros (stretch & after & E & H). inversion H as [|c' ? stretch' ? Hc Hrest]; subst.
        injection E as -> ->. split; [done|]. by exists stretch', after.
Qed.

Lemma occurs_up_to_case_spec (term text : jsstring) :
  occurs_up_to_case term text = true
  <-> exists before stretch after,
        text = before ++ stretch ++ after
        /\ Forall2 (fun c t => same_letter c t = true) stretch term.
Proof.
  induction text as [|c text IH]; cbn [occurs_up_to_case]; rewrite orb_true_iff, matches_here_spec.
  - split.
    + intros [(stretch & after & E & H) | ?]; [|done]. by exists [], stretch, after.
    + intros (before & stretch & after & E & H). left.
      destruct before; [|discriminate]. by exists stretch, after.
  - rewrite IH. split.
    + intros [(stretch & after & E & H) | (before & stretch & after & -> & H)].
      * by exists [], stretch, after.
      * by exists (c :: before), stretch, after.
    + intros (before & stretch & after & E & H). destruct before as [|c' before].
      * left. by exists stretch, after.
      * injection E as -> ->. right. by exists before, stretch, after.
Qed.

Lemma includes_lower_up_to_case (term text : jsstring) :
  term ∈ terms ->
  includes (toLowerCase text) term = occurs_up_to_case term text.
Proof.
  intros Hterm. apply Bool.eq_iff_eq_true.
  rewrite (includes_lower_occurs term text Hterm), occurs_up_to_case_spec.
  pose proof terms_small as Hsmall. rewrite Forall_forall in Hsmall.
  specialize (Hsmall term Hterm).
  split; intros (before & stretch & after & E & H); exists before, stretch, after;
    (split; [exact E|]); by apply (lower_stretch stretch term Hsmall).
Qed.

(** C9. For every text, [extractKeyTerms] returns the entries of the fixed
    vocabulary of 18 distinct terms that occur in the text up to case, in the
    order of the vocabulary.  Occurrence up to case is said without the
    lower-casing of the source: some stretch of the text has, place by place,
    the code unit of the term, the capital of that letter, or the kelvin sign
    for [k].  The result is the vocabulary filtered by that test, hence a
    subsequence of the vocabulary, and a term is in it exactly when it is in
    the vocabulary and occurs in the text in that way. *)
Theorem key_terms_in_vocabulary_order (text : jsstring) :
  extractKeyTerms text = List.filter (fun term => occurs_up_to_case term text) terms
  /\ sublist (extractKeyTerms text) terms
  /\ (forall term,
        term ∈ extractKeyTerms text
        <-> term ∈ terms
            /\ exists before stretch after,
                 text = before ++ stretch ++ after
                 /\ Forall2 (fun c t => same_letter c t = true) stretch term)
  /\ length terms = 18%nat
  /\ NoDup terms.
Proof.
  assert (Hfilter : extractKeyTerms text
                    = List.filter (fun term => occurs_up_to_case term text) terms).
  { rewrite extractKeyTerms_filter. apply filter_ext_in. intros term Hterm.
    apply includes_lower_up_to_case. by apply list_elem_of_In. }
  split_and!.
  - exact Hfilter.
  - rewrite Hfilter. apply sublist_filter_bool.
  - intros term. rewrite Hfilter, list_elem_of_In, filter_In, <- list_elem_of_In.
    by rewrite occurs_up_to_case_spec.
  - done.
  - apply (bool_decide_unpack _). by vm_compute.
Qed.

(** Capitals in the text, terms in the order of the vocabulary and not of
    the document; a term broken by a line feed is not found. *)
Lemma key_terms_in_vocabulary_order_witness :
  extractKeyTerms (js "The KYC norms and Audit of a MUTUAL FUND" ++ [10]
                   ++ js "Risk" ++ [10] ++ js "Management")
  = map js ["mutual fund"; "audit"; "norms"; "kyc"]%string.
Proof.
  rewrite (proj1 (key_terms_in_vocabulary_order _)). by vm_compute.
Defined.

(** Terms come out in the order of the vocabulary, not of the document. *)
Example key_terms_example :
  extractKeyTerms (js "The KYC norms and Audit of a MUTUAL FUND")
  = map js ["mutual fund"; "audit"; "norms"; "kyc"]%string.
Proof. by vm_compute. Qed.

(** ** Objects *)

Lemma own_cons (k : jsstring) (w : value) (more : object) (name : jsstring) :
  own ((k, w) :: more) name = if jseqb k name then Some w else own more name.
Proof. unfold own. simpl. by destruct (jseqb k name). Qed.

Lemma jseqb_true (a b : jsstring) : jseqb a b = true <-> a = b.
Proof. unfold jseqb. apply bool_decide_eq_true. Qed.

Lemma jseqb_false (a b : jsstring) : jseqb a b = false <-> a <> b.
Proof. unfold jseqb. apply bool_decide_eq_false. Qed.

Ltac jseq :=
  repeat match goal with
  | H : jseqb _ _ = true |- _ => apply jseqb_true in H
  | H : jseqb _ _ = false |- _ => apply jseqb_false in H
  end;
  try done; try congruence.

Lemma own_replace (props : object) (key name : jsstring) (v : value) :
  own (replace_prop key v props) name
  = if jseqb key name then (fun _ => v) <$> own props name else own props name.
Proof.
  induction props as [|[k w] more IH]; simpl.
  - by destruct (jseqb key name).
  - destruct (jseqb k key) eqn:Ek; rewrite !own_cons; [|rewrite IH];
      destruct (jseqb k name) eqn:En, (jseqb key name) eqn:En2; simpl; jseq.
Qed.

Lemma own_insert_index (i : N) (props : object) (key name : jsstring) (v : value) :
  own props key = None ->
  own (insert_index i key v props) name
  = if jseqb key name then Some v else own props name.
Proof.
  induction props as [|[k w] more IH]; simpl; intros Hnone.
  - rewrite own_cons. by destruct (jseqb key name).
  - rewrite own_cons in Hnone. destruct (jseqb k key) eqn:Ek; [discriminate|].
    assert (Hcons : own ((key, v) :: (k, w) :: more) name
                    = if jseqb key name then Some v else own ((k, w) :: more) name)
      by apply own_cons.
    destruct (array_index k) as [j|]; [|done].
    destruct (j <? i); [|done].
    rewrite !own_cons, IH by done.
    destruct (jseqb k name) eqn:En, (jseqb key name) eqn:En2; simpl; jseq.
Qed.

Lemma own_snoc (props : object) (key name : jsstring) (v : value) :
  own props key = None ->
  own (props ++ [(key, v)]) name
  = if jseqb key name then Some v else own props name.
Proof.
  induction props as [|[k w] more IH]; simpl; intros Hnone.
  - rewrite own_cons. by destruct (jseqb key name).
  - rewrite own_cons in Hnone. destruct (jseqb k key) eqn:Ek; [discriminate|].
    rewrite !own_cons, IH by done.
    destruct (jseqb k name) eqn:En, (jseqb key name) eqn:En2; simpl; jseq.
Qed.

(** Reading back after [obj[key] = v]. *)
Lemma own_set_prop (props : object) (key name : jsstring) (v : value) :
  own (set_prop props key v) name
  = if jseqb key name then Some v else own props name.
Proof.
  unfold set_prop. destruct (own props key) as [old|] eqn:E.
  - rewrite own_replace. destruct (jseqb key name) eqn:En; [|done].
    apply jseqb_true in En as <-. by rewrite E.
  - destruct (array_index key); [by apply own_insert_index | by apply own_snoc].
Qed.

Lemma get_set_prop (props : object) (key name : jsstring) (v : value) :
  get (set_prop props key v) name = if jseqb key name then v else get props name.
Proof. unfold get. rewrite own_set_prop. by destruct (jseqb key name). Qed.

(** ** Resolution *)

Lemma enhance_one_materialized idx src ref e :
  enhance_one idx src ref = Ok (Some e) -> materialized e.
Proof.
  unfold enhance_one.
  destruct (get_prop ref (js "matched_target")) as [target|]; [simpl|discriminate].
  destruct (to_string (or_else target (VStr []))) as [key|]; [simpl|discriminate].
  destruct (_ && _); [discriminate|].
  destruct (has_property idx key); intros [= <-]; [left | right];
    unfold has_status; rewrite !get_set_prop; by vm_compute.
Qed.

Lemma enhance_loop_app idx src (l1 l2 : list value) (acc : list object) :
  enhance_loop idx src (l1 ++ l2) acc
  = (acc' ← enhance_loop idx src l1 acc; enhance_loop idx src l2 acc').
Proof.
  revert acc. induction l1 as [|ref l1 IH]; intros acc; simpl; [done|].
  destruct (enhance_one idx src ref) as [step|]; simpl; [apply IH | done].
Qed.

Lemma enhance_loop_materialized idx src (refs : list value) (acc out : list object) :
  Forall materialized acc ->
  enhance_loop idx src refs acc = Ok out ->
  Forall materialized out.
Proof.
  revert acc. induction refs as [|ref refs IH]; intros acc Hacc; simpl.
  - by intros [= <-].
  - destruct (enhance_one idx src ref) as [[e|]|] eqn:E; simpl; [| |discriminate].
    + apply IH. apply Forall_app. split; [done|].
      constructor; [by eapply enhance_one_materialized | constructor].
    + by apply IH.
Qed.

Lemma enhance_materialized idx references src out :
  enhanceReferencesWithAvailability idx references src = Ok out ->
  Forall materialized out.
Proof.
  unfold enhanceReferencesWithAvailability.
  destruct (iterate references) as [refs|]; [simpl|discriminate].
  by apply enhance_loop_materialized.
Qed.

(** The candidates that are dropped: those whose target is a key of the index
    with the file name of the source. *)
Lemma enhance_one_self idx src ref k c :
  get_prop ref (js "matched_target") = Ok (VStr k) ->
  idx !! k = Some c ->
  filename c = src ->
  enhance_one idx src ref = Ok None.
Proof.
  intros Ht Hk <-. unfold enhance_one. rewrite Ht. simpl.
  assert (Hkey : to_string (or_else (VStr k) (VStr [])) = Ok k).
  { unfold or_else. simpl. case_bool_decide; simpl; [by subst | done]. }
  assert (Hp : has_property idx k = true).
  { unfold has_property. rewrite Hk. by rewrite bool_decide_eq_true_2 by eauto. }
  assert (Hs : strict_eq_str (entry_field idx k (fun c => VStr (filename c)))
                 (filename c) = true).
  { unfold entry_field. rewrite Hk. simpl. by apply jseqb_true. }
  rewrite Hkey. simpl. by rewrite Hp, Hs.
Qed.

(** C1. A candidate whose [matched_target] is a key of the Local Index, under
    which the entry has the file name of the document under analysis, is
    dropped by the resolution step: the loop pushes nothing for it, the
    resolved list is the one obtained without the candidate, and so are the
    local partition, the external partition, the list of all references and
    the summary counts of the report. *)
Theorem self_reference_excluded (idx : gmap jsstring circular) (src : jsstring)
    (before after : list value) (ref : value) (k : jsstring) (c : circular)
    (path now : jsstring) :
  get_prop ref (js "matched_target") = Ok (VStr k) ->
  idx !! k = Some c ->
  filename c = src ->
  enhance_one idx src ref = Ok None
  /\ enhanceReferencesWithAvailability idx (VArr (before ++ ref :: after)) src
     = enhanceReferencesWithAvailability idx (VArr (before ++ after)) src
  /\ (out ← enhanceReferencesWithAvailability idx (VArr (before ++ ref :: after)) src;
      Ok (saveResults idx out src path now))
     = (out ← enhanceReferencesWithAvailability idx (VArr (before ++ after)) src;
        Ok (saveResults idx out src path now)).
Proof.
  intros Ht Hk Hf.
  pose proof (enhance_one_self idx src ref k c Ht Hk Hf) as Hdrop.
  assert (Hsame :
    enhanceReferencesWithAvailability idx (VArr (before ++ ref :: after)) src
    = enhanceReferencesWithAvailability idx (VArr (before ++ after)) src).
  { unfold enhanceReferencesWithAvailability. simpl.
    rewrite !enhance_loop_app. simpl. by rewrite Hdrop. }
  split; [done|]. split; [done|]. by rewrite Hsame.
Qed.

(** The collection holds [circA.pdf]; under analysis, [circA.pdf] itself.  Of
    a reference to an outside document and a reference to [circA.pdf], only
    the first is resolved. *)
Lemma self_reference_excluded_witness :
  let idx := loadLocalCirculars example_dir in
  let outside := VObj [(js "matched_target", VStr (js "external_reference"))] in
  let self := VObj [(js "matched_target", VStr (js "circA.pdf"))] in
  enhanceReferencesWithAvailability idx (VArr [outside; self]) (js "circA.pdf")
  = Ok [[(js "matched_target", VStr (js "external_reference"));
         (js "availability_status", VStr (js "external_reference"));
         (js "note", VStr (js "Referenced document not in local collection"))]].
Proof.
  intros idx outside self.
  destruct (idx !! js "circA.pdf") as [c|] eqn:Hc; [|by vm_compute in Hc].
  assert (Hname : filename c = js "circA.pdf").
  { vm_compute in Hc. by injection Hc as <-. }
  destruct (self_reference_excluded idx (js "circA.pdf") [outside] [] self
              (js "circA.pdf") c [] [] eq_refl Hc Hname) as (_ & -> & _).
  by vm_compute.
Defined.

(** ** Partitions *)

Lemma status_exclusive (r : object) :
  has_status "available_locally" r = true ->
  has_status "external_reference" r = true -> False.
Proof.
  unfold has_status, strict_eq_str. destruct (get r _) as [| | | |s| |]; try done.
  intros H1 H2. apply jseqb_true in H1, H2. by subst.
Qed.

Lemma partition_permutation (l : list object) :
  Forall materialized l ->
  List.filter (has_status "available_locally") l
    ++ List.filter (has_status "external_reference") l ≡ₚ l.
Proof.
  induction 1 as [|r l [[H1 H2] | [H1 H2]] _ IH]; cbn [List.filter]; [done| |];
    rewrite H1, H2.
  - by constructor.
  - rewrite <- Permutation_middle. by constructor.
Qed.

Lemma elem_of_filter_bool {A} (P : A -> bool) (l : list A) (x : A) :
  x ∈ List.filter P l <-> x ∈ l /\ P x = true.
Proof. by rewrite !list_elem_of_In, filter_In. Qed.

(** C5. For every list of resolved references that the resolution step
    returns, the report of [saveResults] splits it in two: every element is in
    exactly one of the local partition (status [available_locally]) and the
    external partition (status [external_reference]); no record is in both;
    each partition is a subsequence of the list, in its order; together they
    are a rearrangement of the list; and the local count plus the external
    count is the total count, the length of the list. *)
Theorem partition_complete (idx : gmap jsstring circular) (references : value)
    (src path now : jsstring) (out : list object) :
  enhanceReferencesWithAvailability idx references src = Ok out ->
  let rep := saveResults idx out src path now in
  all_references rep = out
  /\ (forall r, r ∈ out ->
        (r ∈ local_references rep /\ r ∉ external_references rep)
        \/ (r ∈ external_references rep /\ r ∉ local_references rep))
  /\ (forall r, r ∈ local_references rep -> r ∈ external_references rep -> False)
  /\ (forall r, r ∈ local_references rep ->
        get r (js "availability_status") = VStr (js "available_locally"))
  /\ (forall r, r ∈ external_references rep ->
        get r (js "availability_status") = VStr (js "external_reference"))
  /\ sublist (local_references rep) out
  /\ sublist (external_references rep) out
  /\ local_references rep ++ external_references rep ≡ₚ out
  /\ local_references_count (report_summary rep) = length (local_references rep)
  /\ external_references_count (report_summary rep) = length (external_references rep)
  /\ (length (local_references rep) + length (external_references rep)
      = total_references (report_summary rep))%nat.
Proof.
  intros Hout rep. apply enhance_materialized in Hout. simpl.
  assert (Hstatus : forall status r,
            has_status status r = true ->
            get r (js "availability_status") = VStr (js status)).
  { unfold has_status, strict_eq_str. intros status r.
    destruct (get r _) as [| | | |s| |]; try done.
    intros H. apply jseqb_true in H. by subst. }
  split_and!.
  - done.
  - intros r Hr. rewrite !elem_of_filter_bool.
    rewrite Forall_forall in Hout. destruct (Hout r Hr) as [[H1 H2] | [H1 H2]].
    + left. split; [done|]. intros [_ H]. congruence.
    + right. split; [done|]. intros [_ H]. congruence.
  - intros r. rewrite !elem_of_filter_bool. intros [_ H1] [_ H2].
    by apply (status_exclusive r).
  - intros r. rewrite elem_of_filter_bool. intros [_ H]. by apply Hstatus.
  - intros r. rewrite elem_of_filter_bool. intros [_ H]. by apply Hstatus.
  - apply sublist_filter_bool.
  - apply sublist_filter_bool.
  - by apply partition_permutation.
  - done.
  - done.
  - rewrite <- length_app. by rewrite (partition_permutation out Hout).
Qed.

(** Four candidates over the collection of [circA.pdf]: outside, local,
    outside, local.  Each partition keeps the order of arrival. *)
Lemma partition_complete_witness :
  let idx := loadLocalCirculars example_dir in
  let references :=
    VArr [candidate "first" "external_reference"; candidate "second" "circA.pdf";
          candidate "third" "other.pdf"; candidate "fourth" "circA.pdf"] in
  exists out,
    enhanceReferencesWithAvailability idx references (js "doc.pdf") = Ok out
    /\ let rep := saveResults idx out (js "doc.pdf") (js "/data/doc.pdf") [] in
       (fun r => get r (js "exact_text")) <$> local_references rep
       = [VStr (js "second"); VStr (js "fourth")]
       /\ (fun r => get r (js "exact_text")) <$> external_references rep
          = [VStr (js "first"); VStr (js "third")]
       /\ local_references rep ++ external_references rep ≡ₚ out
       /\ report_summary rep
          = {| total_references := 4; local_references_count := 2;
               external_references_count := 2 |}.
Proof.
  intros idx references.
  destruct (enhanceReferencesWithAvailability idx references (js "doc.pdf"))
    as [out|] eqn:Hout; [|by vm_compute in Hout].
  exists out. split; [done|].
  pose proof (partition_complete idx references (js "doc.pdf") (js "/data/doc.pdf") []
                out Hout) as H.
  destruct H as (_ & _ & _ & _ & _ & _ & _ & Hperm & _).
  vm_compute in Hout. injection Hout as <-.
  split_and!; [by vm_compute | by vm_compute | exact Hperm | by vm_compute].
Defined.

(** A target that is no property of the index, neither an own key nor a
    member of [Object.prototype], makes the reference external; so does a
    missing or empty target, whose key is the empty string. *)
Lemma enhance_one_external idx src ref target key :
  get_prop ref (js "matched_target") = Ok target ->
  to_string (or_else target (VStr [])) = Ok key ->
  idx !! key = None ->
  key ∉ object_prototype_keys ->
  enhance_one idx src ref
  = Ok (Some (set_prop
                (set_prop (spread ref) (js "availability_status")
                   (VStr (js "external_reference")))
                (js "note") (VStr (js "Referenced document not in local collection")))).
Proof.
  intros Ht Hkey Hown Hproto. unfold enhance_one. rewrite Ht. simpl. rewrite Hkey. simpl.
  assert (Hp : has_property idx key = false).
  { unfold has_property. rewrite Hown.
    rewrite bool_decide_eq_false_2 by (by intros [? ?]).
    by rewrite bool_decide_eq_false_2. }
  by rewrite Hp.
Qed.

(** C2 (failing input). The collection holds [circA.pdf] only, and the
    document under analysis is [doc.pdf].  The target [constructor] is not a
    key of the index, but it is a member of [Object.prototype], which the
    [in] test of the resolution step also finds: the candidate is listed as
    available locally, with a [local_file] whose fields are all
    [undefined], and not as an external reference. *)
Theorem inherited_member_listed_as_local :
  let payload :=
    js "[{" ++ quoted "matched_target" ++ js ":" ++ quoted "constructor" ++ js "}]" in
  let idx := loadLocalCirculars example_dir in
  idx !! js "constructor" = None
  /\ exists lines rep,
       main (example_host "doc.pdf" payload) = Ok (lines, rep)
       /\ external_references rep = []
       /\ local_references rep
          = [[(js "matched_target", VStr (js "constructor"));
              (js "availability_status", VStr (js "available_locally"));
              (js "local_file",
               VObj [(js "filename", VUndefined); (js "file_path", VUndefined);
                     (js "circular_number", VUndefined); (js "subject", VUndefined);
                     (js "date", VUndefined)])]].
Proof.
  intros payload idx. split; [by vm_compute|].
  destruct (main (example_host "doc.pdf" payload)) as [[lines rep]|] eqn:Hmain;
    [|by vm_compute in Hmain].
  exists lines, rep. split; [done|].
  vm_compute in Hmain. injection Hmain as _ <-. by vm_compute.
Qed.

(** ** Decoding the answer of the collaborator *)

Lemma analyze_on_failure (pdf : option jsstring) (r : reply) (e : error) :
  parse_response r = Throw e -> analyzeWithEnhancedAI pdf r = VArr [].
Proof.
  intros H. unfold analyzeWithEnhancedAI. rewrite H. by case_bool_decide.
Qed.

Lemma parse_response_syntax_error (payload : jsstring) :
  Json.parse (clean_response payload) = None ->
  parse_response (Responded payload) = Throw SyntaxError.
Proof. intros H. unfold parse_response. by rewrite H. Qed.

Lemma formatResults_empty (name now : jsstring) :
  exists lines, formatResults [] name now = Ok lines
    /\ js "❌ No references found." ∈ lines.
Proof.
  unfold formatResults.
  change (length (@nil object) =? 0)%nat with true. cbv iota.
  eexists. split; [reflexivity|].
  apply elem_of_app. right. apply elem_of_cons. by left.
Qed.

Lemma main_without_candidates (h : host) :
  loadLocalCirculars (circulars_dir h) <> ∅ ->
  analyzeWithEnhancedAI (document_text h) (inference h) = VArr [] ->
  exists lines,
    main h = Ok (lines,
                 saveResults (loadLocalCirculars (circulars_dir h)) []
                   (document_name h) (resolved_path h) (clock_iso h))
    /\ js "❌ No references found." ∈ lines.
Proof.
  intros Hidx Hnone. unfold main. rewrite Hnone.
  assert (Hsize : (size (loadLocalCirculars (circulars_dir h)) =? 0)%nat = false).
  { apply Nat.eqb_neq. by rewrite map_size_empty_iff. }
  rewrite Hsize.
  change (enhanceReferencesWithAvailability (loadLocalCirculars (circulars_dir h))
            (VArr []) (document_name h)) with (@Ok (list object) []).
  destruct (formatResults_empty (document_name h) (clock_locale h)) as (lines & Hf & Hin).
  exists lines. split; [|done].
  change (Ok [] ≫= _) with
    (lines0 ← formatResults [] (document_name h) (clock_locale h);
     Ok (lines0, saveResults (loadLocalCirculars (circulars_dir h)) []
                   (document_name h) (resolved_path h) (clock_iso h))).
  by rewrite Hf.
Qed.

(** The claim as stated fails: on a payload that is not JSON the call returns
    the empty sequence, and the run goes on to its report. *)
Lemma unparseable_payload_counterexample :
  let payload := js "this is not JSON" in
  let h := example_host "doc.pdf" payload in
  Json.parse (clean_response payload) = None
  /\ analyzeWithEnhancedAI (document_text h) (inference h) = VArr []
  /\ (forall e, main h <> Throw e)
  /\ exists lines rep, main h = Ok (lines, rep) /\ total_references (report_summary rep) = 0%nat.
Proof.
  intros payload h.
  destruct (main h) as [[lines rep]|] eqn:Hmain; [|by vm_compute in Hmain].
  split_and!; [by vm_compute | by vm_compute | done |].
  exists lines, rep. split; [done|].
  vm_compute in Hmain. by injection Hmain as _ <-.
Qed.

(** C3 (amended). When the payload, stripped of its wrapper markers, cannot be
    parsed, the normalization call does not fail: the [SyntaxError] of
    [JSON.parse] is caught inside the call, which returns the empty sequence,
    and nothing of the payload. *)
Theorem unparseable_payload_gives_empty (pdf : option jsstring) (payload : jsstring) :
  Json.parse (clean_response payload) = None ->
  parse_response (Responded payload) = Throw SyntaxError
  /\ analyzeWithEnhancedAI pdf (Responded payload) = VArr [].
Proof.
  intros H. apply parse_response_syntax_error in H.
  split; [done|]. by apply (analyze_on_failure pdf _ SyntaxError).
Qed.

(** A payload cut in the middle of its second record: the first record is not
    returned. *)
Lemma unparseable_payload_gives_empty_witness :
  let payload :=
    js "```json" ++ [10] ++ js "[{" ++ quoted "exact_text" ++ js ":" ++ quoted "first"
    ++ js "}, {" ++ quoted "exact_text" in
  analyzeWithEnhancedAI (Some (js "text of the document")) (Responded payload) = VArr [].
Proof.
  intros payload.
  apply (unparseable_payload_gives_empty (Some (js "text of the document")) payload).
  by vm_compute.
Defined.

(** The part of the soft failure that the code has: whenever [JSON.parse]
    rejects the payload of the inference collaborator, stripped of the wrapper
    markers, the candidate sequence is empty and the run is not aborted: over
    a collection that is not empty, [main] prints the report of a run without
    references and saves a report whose three lists are empty and whose
    counts are 0. *)
Lemma syntax_error_is_not_fatal (h : host) (payload : jsstring) :
  inference h = Responded payload ->
  Json.parse (clean_response payload) = None ->
  loadLocalCirculars (circulars_dir h) <> ∅ ->
  analyzeWithEnhancedAI (document_text h) (inference h) = VArr []
  /\ exists lines rep,
       main h = Ok (lines, rep)
       /\ js "❌ No references found." ∈ lines
       /\ all_references rep = []
       /\ local_references rep = []
       /\ external_references rep = []
       /\ report_summary rep
          = {| total_references := 0; local_references_count := 0;
               external_references_count := 0 |}.
Proof.
  intros Hreply Hparse Hidx.
  assert (Hnone : analyzeWithEnhancedAI (document_text h) (inference h) = VArr []).
  { rewrite Hreply. apply (analyze_on_failure _ _ SyntaxError).
    by apply parse_response_syntax_error. }
  split; [done|].
  destruct (main_without_candidates h Hidx Hnone) as (lines & Hmain & Hline).
  eexists lines, _. split; [exact Hmain|]. by split_and!.
Qed.

(** A wrapped payload that is not JSON, over the collection of
    [circA.pdf]. *)
Lemma syntax_error_is_not_fatal_witness :
  let payload := js "```json" ++ [10] ++ js "I could not find any reference." ++ [10] ++ js "```" in
  let h := example_host "doc.pdf" payload in
  clean_response payload = js "I could not find any reference."
  /\ exists lines rep,
       main h = Ok (lines, rep)
       /\ report_summary rep
          = {| total_references := 0; local_references_count := 0;
               external_references_count := 0 |}.
Proof.
  intros payload h. split; [by vm_compute|].
  destruct (syntax_error_is_not_fatal h payload) as (_ & lines & rep & Hmain & _ & _ & _ & _ & Hsum).
  - done.
  - by vm_compute.
  - intros Hempty. apply (f_equal (fun m => m !! js "circA.pdf")) in Hempty.
    by vm_compute in Hempty.
  - exists lines, rep. split; [exact Hmain | exact Hsum].
Defined.

(** C4 (failing input). The collaborator wraps the records in an object,
    [{"references": [...]}], over the collection of [circA.pdf].  The payload
    does not decode into a sequence of records, but [JSON.parse] accepts it
    and nothing checks what it returned: the analysis hands on the object
    instead of an empty sequence of candidates, the resolution step cannot
    iterate it, and the run ends in the handler of [main] on a [TypeError],
    with no report printed or saved.  A payload that is a number or a boolean
    ends the run in the same way. *)
Theorem undecoded_shape_aborts_run :
  let payload :=
    js "{" ++ quoted "references" ++ js ":[{" ++ quoted "exact_text" ++ js ":"
    ++ quoted "SEBI Act, 1992" ++ js "}]}" in
  let h := example_host "doc.pdf" payload in
  (exists props,
     Json.parse (clean_response payload) = Some (VObj props)
     /\ analyzeWithEnhancedAI (document_text h) (inference h) = VObj props)
  /\ analyzeWithEnhancedAI (document_text h) (inference h) <> VArr []
  /\ loadLocalCirculars (circulars_dir h) <> ∅
  /\ main h = Throw TypeError
  /\ main (example_host "doc.pdf" (js "42")) = Throw TypeError
  /\ main (example_host "doc.pdf" (js "true")) = Throw TypeError.
Proof.
  intros payload h. split_and!.
  - eexists. split; by vm_compute.
  - by vm_compute.
  - intros Hempty. apply (f_equal (fun m => m !! js "circA.pdf")) in Hempty.
    by vm_compute in Hempty.
  - by vm_compute.
  - by vm_compute.
  - by vm_compute.
Qed.

(** ** Missing optional fields *)

(** A parsed array is returned as it is. *)
Lemma analyze_returns_parsed (pdf : option jsstring) (payload : jsstring)
    (items : list value) :
  extractTextFromPdf pdf <> [] ->
  Json.parse (clean_response payload) = Some (VArr items) ->
  analyzeWithEnhancedAI pdf (Responded payload) = VArr items.
Proof.
  intros Htext Hparse. unfold analyzeWithEnhancedAI, parse_response.
  rewrite Hparse. simpl. by case_bool_decide.
Qed.

(** The resolution step adds [availability_status] and [local_file] or
    [note], and leaves the other properties of a record as they are. *)
Lemma enhance_one_keeps idx src props e name :
  enhance_one idx src (VObj props) = Ok (Some e) ->
  name <> js "availability_status" ->
  name <> js "local_file" ->
  name <> js "note" ->
  own e name = own props name.
Proof.
  unfold enhance_one. simpl.
  destruct (to_string _) as [key|]; [simpl|discriminate].
  destruct (_ && _); [discriminate|].
  intros H Hs Hl Hn.
  destruct (has_property idx key); injection H as <-; rewrite !own_set_prop;
    repeat (destruct (jseqb _ name) eqn:?; jseq).
Qed.

(** The claim as stated fails: a record without [confidence] and
    [exact_text] is returned by the normalization without them, and is saved
    without them in the report. *)
Lemma missing_fields_counterexample :
  let payload :=
    js "[{" ++ quoted "matched_target" ++ js ":" ++ quoted "external_reference" ++ js "}]" in
  let h := example_host "doc.pdf" payload in
  let record := [(js "matched_target", VStr (js "external_reference"))] in
  analyzeWithEnhancedAI (document_text h) (inference h) = VArr [VObj record]
  /\ own record (js "confidence") = None
  /\ own record (js "exact_text") = None
  /\ exists lines rep r,
       main h = Ok (lines, rep)
       /\ all_references rep = [r]
       /\ own r (js "confidence") = None
       /\ own r (js "exact_text") = None.
Proof.
  intros payload h record.
  destruct (main h) as [[lines rep]|] eqn:Hmain; [|by vm_compute in Hmain].
  split; [by vm_compute|]. split; [by vm_compute|]. split; [by vm_compute|].
  vm_compute in Hmain. injection Hmain as _ <-.
  eexists lines, _, _. split; [reflexivity|]. split; [reflexivity|].
  split; by vm_compute.
Qed.

(** C6 (amended). For a record of a successfully parsed array that has no
    [confidence] and no [exact_text], nothing is defaulted in the data: the
    normalization returns the array as parsed, and the materialized reference
    still has neither field.  The defaults exist in the console report only,
    whose lines print the confidence as [UNKNOWN] (the default [unknown], in
    upper case) and the text as [N/A]. *)
Theorem defaults_only_in_report (idx : gmap jsstring circular) (src : jsstring)
    (pdf : option jsstring) (payload : jsstring) (items : list value)
    (props e : object) :
  extractTextFromPdf pdf <> [] ->
  Json.parse (clean_response payload) = Some (VArr items) ->
  VObj props ∈ items ->
  own props (js "confidence") = None ->
  own props (js "exact_text") = None ->
  enhance_one idx src (VObj props) = Ok (Some e) ->
  analyzeWithEnhancedAI pdf (Responded payload) = VArr items
  /\ own e (js "confidence") = None
  /\ own e (js "exact_text") = None
  /\ confidence_line e = Ok (js "   🤖 AI Confidence: UNKNOWN")
  /\ text_line e = Ok (js "   📄 Text: N/A").
Proof.
  intros Htext Hparse _ Hc Ht He.
  assert (Hc' : own e (js "confidence") = None).
  { rewrite (enhance_one_keeps idx src props e _ He); [done | by vm_compute..]. }
  assert (Ht' : own e (js "exact_text") = None).
  { rewrite (enhance_one_keeps idx src props e _ He); [done | by vm_compute..]. }
  split; [by apply analyze_returns_parsed|]. split; [done|]. split; [done|].
  unfold confidence_line, text_line, get. rewrite Hc', Ht'. split; by vm_compute.
Qed.

(** A record with a target only, out of a wrapped payload. *)
Lemma defaults_only_in_report_witness :
  let payload :=
    js "```json" ++ [10] ++ js "[{" ++ quoted "matched_target" ++ js ":"
    ++ quoted "external_reference" ++ js "}]" ++ [10] ++ js "```" in
  let e := [(js "matched_target", VStr (js "external_reference"));
            (js "availability_status", VStr (js "external_reference"));
            (js "note", VStr (js "Referenced document not in local collection"))] in
  confidence_line e = Ok (js "   🤖 AI Confidence: UNKNOWN")
  /\ text_line e = Ok (js "   📄 Text: N/A")
  /\ own e (js "confidence") = None.
Proof.
  intros payload e.
  destruct (defaults_only_in_report (loadLocalCirculars example_dir) (js "doc.pdf")
              (Some (js "text of the document")) payload
              [VObj [(js "matched_target", VStr (js "external_reference"))]]
              [(js "matched_target", VStr (js "external_reference"))] e)
    as (_ & Hc & _ & Hline & Htext).
  - by vm_compute.
  - by vm_compute.
  - apply list_elem_of_singleton. reflexivity.
  - by vm_compute.
  - by vm_compute.
  - by vm_compute.
  - split; [exact Hline|]. split; [exact Htext | exact Hc].
Defined.

(** * Further properties of the code *)

(** ** The Local Index *)

Lemma loadLocalCirculars_fold (files : list dir_entry) :
  loadLocalCirculars files
  = fold_left load_step (List.filter (fun f => is_pdf_name (entry_name f)) files) ∅.
Proof. reflexivity. Qed.

Lemma extractMetadata_Some (pdf : option jsstring) (path name : jsstring) (c : circular) :
  extractMetadata pdf path name = Some c ->
  exists text,
    pdf = Some text
    /\ c = {| file_path := path; filename := name;
              circular_number := extractCircularNumber text;
              subject := extractSubject text;
              date := extractDate text;
              key_terms := extractKeyTerms text |}.
Proof.
  unfold extractMetadata. destruct pdf as [text|]; [|done].
  intros [= <-]. by exists text.
Qed.

Lemma extractMetadata_is_Some (pdf : option jsstring) (path name : jsstring) :
  is_Some (extractMetadata pdf path name) <-> is_Some pdf.
Proof.
  unfold extractMetadata. destruct pdf; simpl; split; intros [? ?]; eauto; done.
Qed.

Lemma load_fold_Some (l : list dir_entry) (acc : gmap jsstring circular) k c :
  fold_left load_step l acc !! k = Some c ->
  acc !! k = Some c
  \/ exists f, f ∈ l /\ entry_name f = k
               /\ extractMetadata (entry_text f) (entry_path f) (entry_name f) = Some c.
Proof.
  revert acc. induction l as [|f l IH]; intros acc; simpl; [by left|].
  intros H. apply IH in H as [H | (g & Hg & Hn & Hm)].
  - unfold load_step in H.
    destruct (extractMetadata _ _ _) as [metadata|] eqn:E; [|by left].
    destruct (decide (entry_name f = k)) as [Heq|Hne].
    + rewrite Heq, lookup_insert_eq in H. injection H as <-.
      right. exists f. split; [by left|]. done.
    + rewrite lookup_insert_ne in H by done. by left.
  - right. exists g. split; [by right | done].
Qed.

Lemma load_fold_is_Some (l : list dir_entry) (acc : gmap jsstring circular) k :
  is_Some (acc !! k)
  \/ (exists f, f ∈ l /\ entry_name f = k /\ is_Some (entry_text f)) ->
  is_Some (fold_left load_step l acc !! k).
Proof.
  revert acc. induction l as [|f l IH]; intros acc; simpl.
  - intros [H | (f & Hf & _)]; [done | by apply elem_of_nil in Hf].
  - intros [H | (g & Hg & Hn & Ht)].
    + apply IH. left. unfold load_step.
      destruct (extractMetadata _ _ _); [|done].
      destruct (decide (entry_name f = k)) as [->|Hne].
      * rewrite lookup_insert_eq. eauto.
      * by rewrite lookup_insert_ne.
    + apply elem_of_cons in Hg as [-> | Hg].
      * apply IH. left. unfold load_step.
        apply (extractMetadata_is_Some _ (entry_path f) (entry_name f)) in Ht as [m Hm].
        rewrite Hm, Hn, lookup_insert_eq. eauto.
      * apply IH. right. eauto.
Qed.

(** With one file per name, the entry under a name is the metadata of the
    file of that name. *)
Lemma load_fold_unique (l : list dir_entry) (acc : gmap jsstring circular) f c :
  NoDup (entry_name <$> l) ->
  f ∈ l ->
  extractMetadata (entry_text f) (entry_path f) (entry_name f) = Some c ->
  fold_left load_step l acc !! entry_name f = Some c.
Proof.
  revert acc. induction l as [|g l IH]; intros acc Hnd Hf Hm; [by apply elem_of_nil in Hf|].
  simpl in *. apply NoDup_cons in Hnd as [Hg Hnd].
  apply elem_of_cons in Hf as [-> | Hf].
  - destruct (fold_left load_step l (load_step acc g) !! entry_name g) as [c'|] eqn:E.
    + apply load_fold_Some in E as [E | (h & Hh & Hn & _)].
      * unfold load_step in E. rewrite Hm, lookup_insert_eq in E. by injection E as <-.
      * exfalso. apply Hg. rewrite <- Hn. by apply list_elem_of_fmap_2.
    + assert (His : is_Some (fold_left load_step l (load_step acc g) !! entry_name g)).
      { apply load_fold_is_Some. left. unfold load_step.
        rewrite Hm, lookup_insert_eq. eauto. }
      rewrite E in His. by destruct His.
  - by apply IH.
Qed.

Lemma elem_of_pdf_files (files : list dir_entry) (f : dir_entry) :
  f ∈ List.filter (fun f => is_pdf_name (entry_name f)) files
  <-> f ∈ files /\ is_pdf_name (entry_name f) = true.
Proof. by rewrite !list_elem_of_In, filter_In. Qed.

Lemma prototype_key_not_pdf (k : jsstring) :
  k ∈ object_prototype_keys -> is_pdf_name k = false.
Proof.
  unfold object_prototype_keys. rewrite list_elem_of_In. simpl.
  intros H. repeat (destruct H as [<- | H]; [by vm_compute|]). done.
Qed.

(** X1. Every entry of the index built by [loadLocalCirculars] is stored
    under the name of a file of the directory: its [filename] is its key, the
    key ends in [.pdf] in some case and is therefore no member of
    [Object.prototype], and its fields are the path of that file and what the
    four extractors find in the text read from it. *)
Theorem index_entry_of_file (files : list dir_entry) (k : jsstring) (c : circular) :
  loadLocalCirculars files !! k = Some c ->
  filename c = k
  /\ is_pdf_name k = true
  /\ (k ∉ object_prototype_keys)
  /\ exists f text,
       f ∈ files /\ entry_name f = k /\ entry_text f = Some text
       /\ file_path c = entry_path f
       /\ circular_number c = extractCircularNumber text
       /\ subject c = extractSubject text
       /\ date c = extractDate text
       /\ key_terms c = extractKeyTerms text.
Proof.
  rewrite loadLocalCirculars_fold. intros H.
  apply load_fold_Some in H as [H | (f & Hf & Hn & Hm)]; [by rewrite lookup_empty in H|].
  apply elem_of_pdf_files in Hf as [Hf Hpdf].
  apply extractMetadata_Some in Hm as (text & Ht & ->). simpl.
  rewrite <- Hn. split_and!; [done | done | |].
  - intros Hproto. apply prototype_key_not_pdf in Hproto. congruence.
  - exists f, text. by split_and!.
Qed.

Lemma index_entry_of_file_witness :
  exists c,
    loadLocalCirculars two_circulars_dir !! js "CircB.PDF" = Some c
    /\ filename c = js "CircB.PDF"
    /\ is_pdf_name (js "CircB.PDF") = true.
Proof.
  destruct (loadLocalCirculars two_circulars_dir !! js "CircB.PDF") as [c|] eqn:Hc;
    [|by vm_compute in Hc].
  exists c. split; [done|].
  destruct (index_entry_of_file two_circulars_dir (js "CircB.PDF") c Hc) as (Hname & Hpdf & _).
  split; [exact Hname | exact Hpdf].
Defined.

(** X2. A name is a key of the index exactly when the directory has a file of
    that name whose name ends in [.pdf], in any case, and whose text could be
    read: files of another kind and files that fail to parse are left out, and
    nothing else is put in. *)
Theorem index_keys (files : list dir_entry) (k : jsstring) :
  is_Some (loadLocalCirculars files !! k)
  <-> exists f, f ∈ files /\ entry_name f = k /\ indexable f.
Proof.
  rewrite loadLocalCirculars_fold. split.
  - intros [c H].
    apply load_fold_Some in H as [H | (f & Hf & Hn & Hm)]; [by rewrite lookup_empty in H|].
    apply elem_of_pdf_files in Hf as [Hf Hpdf].
    exists f. split; [done|]. split; [done|]. split; [done|].
    apply (extractMetadata_is_Some _ (entry_path f) (entry_name f)). eauto.
  - intros (f & Hf & Hn & Hpdf & Ht). apply load_fold_is_Some. right.
    exists f. split; [by apply elem_of_pdf_files | done].
Qed.

Example index_keys_example :
  dom (loadLocalCirculars two_circulars_dir) = {[js "circA.pdf"; js "CircB.PDF"]}.
Proof. apply (bool_decide_unpack _). by vm_compute. Qed.

(** X3. When the names of the files are distinct, as in a directory, the
    order in which the files are listed does not change the index. *)
Theorem index_order_independent (files files' : list dir_entry) :
  files ≡ₚ files' ->
  NoDup (entry_name <$> files) ->
  loadLocalCirculars files = loadLocalCirculars files'.
Proof.
  intros Hperm Hnd.
  assert (Hnd' : NoDup (entry_name <$> files')) by by rewrite <- Hperm.
  assert (Hspec : forall l k c,
    NoDup (entry_name <$> l) ->
    loadLocalCirculars l !! k = Some c
    <-> exists f, f ∈ l /\ is_pdf_name (entry_name f) = true /\ entry_name f = k
                  /\ extractMetadata (entry_text f) (entry_path f) (entry_name f) = Some c).
  { intros l k c Hl. rewrite loadLocalCirculars_fold. split.
    - intros H. apply load_fold_Some in H as [H | (f & Hf & Hn & Hm)];
        [by rewrite lookup_empty in H|].
      apply elem_of_pdf_files in Hf as [Hf Hpdf]. by exists f.
    - intros (f & Hf & Hpdf & <- & Hm). apply load_fold_unique; [| |done].
      + eapply sublist_NoDup; [exact Hl|]. apply fmap_sublist, sublist_filter_bool.
      + by apply elem_of_pdf_files. }
  apply map_eq. intros k. apply option_eq. intros c.
  rewrite !Hspec by done. by setoid_rewrite Hperm.
Qed.

Lemma index_order_independent_witness :
  loadLocalCirculars two_circulars_dir = loadLocalCirculars (reverse two_circulars_dir).
Proof.
  apply index_order_independent.
  - by rewrite reverse_Permutation.
  - apply (bool_decide_unpack _). by vm_compute.
Defined.

(** ** Matches are taken from the text *)

Lemma exec_from_stretch icase (r : regex) (i : nat) (s : jsstring) (m : rmatch_result) :
  exec_from icase r i s = Some m -> stretch_of (m_0 m) s.
Proof.
  revert i. induction s as [|c s IH]; intros i; simpl.
  - destruct (rmatch icase r Some _) as [st|] eqn:E; [|done].
    intros [= <-]. simpl. by exists [], [].
  - destruct (rmatch icase r Some _) as [st|] eqn:E.
    + intros [= <-]. simpl.
      apply rmatch_sound in E as (w & st' & E & _ & Hk). injection Hk as ->.
      simpl in E. exists [], (rest st). simpl.
      change (take (S (length s) - length (rest st)) (c :: s))
        with (take (length (c :: s) - length (rest st)) (c :: s)).
      by rewrite E, take_consumed.
    + intros H. apply IH in H as (before & after & ->).
      by exists (c :: before), after.
Qed.

Lemma exec_stretch icase (r : regex) (text : jsstring) (m : rmatch_result) :
  exec icase r text = Some m -> stretch_of (m_0 m) text.
Proof. apply exec_from_stretch. Qed.

Lemma stretch_of_app_r (a b text : jsstring) : stretch_of (a ++ b) text -> stretch_of b text.
Proof.
  intros (before & after & ->). exists (before ++ a), after. by rewrite <- !app_assoc.
Qed.

Lemma lang_plus_nonempty icase (r : regex) (g : bool) (w : jsstring) :
  (forall u, lang icase r u -> u <> []) -> lang icase (plus g r) w -> w <> [].
Proof.
  intros Hr H. apply lang_seq_inv in H as (w1 & w2 & -> & H1 & _).
  apply Hr in H1. by destruct w1.
Qed.

Lemma lang_class_nonempty icase items (u : jsstring) :
  lang icase (Class items) u -> u <> [].
Proof. by inversion 1. Qed.

(** X4. [extractCircularNumber] returns [null] exactly when neither pattern
    matches; otherwise it returns a string, never [undefined], which is not
    empty and is a stretch of the text, copied as it stands. *)
Theorem circular_number_from_text (text : jsstring) :
  (extractCircularNumber text = VNull
   <-> exec true canonical_pattern text = None /\ exec true generic_pattern text = None)
  /\ (extractCircularNumber text = VNull
      \/ exists s, extractCircularNumber text = VStr s /\ s <> [] /\ stretch_of s text).
Proof.
  unfold extractCircularNumber. simpl.
  destruct (exec true canonical_pattern text) as [mc|] eqn:Hc.
  - rewrite (canonical_has_slash text mc Hc). split.
    + split; [done | by intros [? _]].
    + right. exists (m_0 mc). split; [done|]. split; [|by eapply exec_stretch].
      pose proof (canonical_has_slash text mc Hc) as Hs.
      intros Hnil. rewrite Hnil in Hs. by vm_compute in Hs.
  - destruct (exec true generic_pattern text) as [mg|] eqn:Hg; [|by split; [|left]].
    pose proof (exec_stretch _ _ _ _ Hg) as Hin.
    apply exec_prefix_group in Hg as (label & v & E0 & _ & Hv & more & Ecaps).
    assert (Hne : v <> []).
    { eapply lang_plus_nonempty; [|exact Hv]. apply lang_class_nonempty. }
    unfold group_value, group. rewrite Ecaps, E0 in *. simpl.
    destruct (includes (label ++ v) (js "/")); (split; [split; [done | by intros [_ ?]]|]);
      right; eexists; (split; [done|]).
    + split; [by destruct label, v | done].
    + split; [done | by eapply stretch_of_app_r].
Qed.

Example circular_number_from_text_example :
  extractCircularNumber (js "see Circular: No.A/7, ok") = VStr (js "Circular: No.A/7")
  /\ extractCircularNumber (js "SEBI/HO/CIR/2021/670") = VNull.
Proof. by vm_compute. Qed.

(** ** Trimming *)

Lemma rev_is_reverse {A} (l : list A) : rev l = reverse l.
Proof. apply rev_alt. Qed.

Lemma trimStart_split (s : jsstring) : exists ws, s = ws ++ trimStart s /\ all_space ws.
Proof.
  induction s as [|c s (ws & IH & Hws)]; simpl; [exists []; split; [done | constructor]|].
  destruct (is_space c) eqn:E; [|exists []; split; [done | constructor]].
  exists (c :: ws). split; [simpl; by rewrite <- IH | by constructor].
Qed.

Lemma trimStart_head (s : jsstring) :
  match head (trimStart s) with Some c => is_space c = false | None => True end.
Proof.
  induction s as [|c s IH]; simpl; [done|]. by destruct (is_space c) eqn:E.
Qed.

Lemma trimStart_spaces (ws x : jsstring) : all_space ws -> trimStart (ws ++ x) = trimStart x.
Proof. induction 1 as [|c ws Hc _ IH]; simpl; [done|]. by rewrite Hc. Qed.

Lemma trimStart_fixed (x : jsstring) :
  match head x with Some c => is_space c = false | None => True end -> trimStart x = x.
Proof. destruct x as [|c x]; simpl; [done|]. by intros ->. Qed.

Lemma trimmed_head (b : jsstring) :
  trimmed b = true -> match head b with Some c => is_space c = false | None => True end.
Proof.
  unfold trimmed. intros [H _]%andb_true_iff. destruct (head b); [|done].
  by apply negb_true_iff.
Qed.

Lemma trimmed_last (b : jsstring) :
  trimmed b = true -> match last b with Some c => is_space c = false | None => True end.
Proof.
  unfold trimmed. intros [_ H]%andb_true_iff. destruct (last b); [|done].
  by apply negb_true_iff.
Qed.

Lemma trimEnd_spaces (x ws : jsstring) : all_space ws -> trimEnd (x ++ ws) = trimEnd x.
Proof.
  intros H. unfold trimEnd. rewrite rev_app_distr, trimStart_spaces; [done|].
  unfold all_space in *. rewrite rev_is_reverse. by apply Forall_reverse.
Qed.

Lemma trimEnd_fixed (x : jsstring) :
  match last x with Some c => is_space c = false | None => True end -> trimEnd x = x.
Proof.
  intros H. unfold trimEnd. rewrite trimStart_fixed; [apply rev_involutive|].
  by rewrite rev_is_reverse, head_reverse.
Qed.

(** Trimming takes the white space off both ends and nothing else. *)
Lemma trim_padded (before body after : jsstring) :
  all_space before -> all_space after -> trimmed body = true ->
  trim (before ++ body ++ after) = body.
Proof.
  intros Hb Ha Ht. unfold trim. rewrite trimStart_spaces by done.
  destruct body as [|c body].
  - simpl. pose proof (trimStart_split after) as (ws & E & _).
    assert (Hnil : trimStart after = []).
    { destruct (trimStart after) as [|d r] eqn:Ed; [done|].
      pose proof (trimStart_head after) as Hh. rewrite Ed in Hh. simpl in Hh.
      unfold all_space in Ha. rewrite Forall_forall in Ha.
      assert (Hd : d ∈ after) by (rewrite E; set_solver).
      apply Ha in Hd. congruence. }
    by rewrite Hnil.
  - rewrite trimStart_fixed by (by apply (trimmed_head (c :: body))).
    rewrite trimEnd_spaces by done.
    by apply trimEnd_fixed, trimmed_last.
Qed.

Lemma trim_trimmed (s : jsstring) : trimmed (trim s) = true.
Proof.
  unfold trim, trimEnd. set (u := trimStart s).
  pose proof (trimStart_head s) as Hu. fold u in Hu.
  pose proof (trimStart_split (rev u)) as (ws & E & _).
  pose proof (trimStart_head (rev u)) as Hv.
  set (v := trimStart (rev u)) in *.
  unfold trimmed. rewrite (rev_is_reverse v), head_reverse, last_reverse.
  apply andb_true_iff. split.
  - destruct (last v) as [c|] eqn:El; [|done].
    assert (Hc : head u = Some c).
    { rewrite <- (rev_involutive u), E, rev_app_distr, (rev_is_reverse v).
      apply last_Some in El as (v' & ->). by rewrite reverse_snoc. }
    rewrite Hc in Hu. by rewrite Hu.
  - destruct (head v) as [c|]; [by rewrite Hv | done].
Qed.

Lemma trim_fixed (s : jsstring) : trimmed s = true -> trim s = s.
Proof.
  intros H. rewrite <- (trim_padded [] s []) at 2; [by rewrite app_nil_r | constructor.. | done].
Qed.

(** ** Subjects are normalized *)

Lemma last_space_cons (c : N) (t : jsstring) (b : bool) :
  match last (c :: t) with Some d => is_space d | None => b end
  = match last t with Some d => is_space d | None => is_space c end.
Proof.
  destruct t as [|d t]; [done|]. rewrite last_cons_cons.
  destruct (last (d :: t)) eqn:E; [done|]. by apply last_None in E.
Qed.

Lemma single_spaced_collapse (b : bool) (t : jsstring) :
  single_spaced_from b (collapse_from b t)
  = negb match last t with Some c => is_space c | None => b end.
Proof.
  revert b. induction t as [|c t IH]; intros b; [done|].
  rewrite last_space_cons. cbn [collapse_from]. destruct (is_space c) eqn:Ec.
  - destruct b; [apply IH|]. cbn [single_spaced_from].
    change (is_space 32) with true. cbv iota. rewrite N.eqb_refl. simpl. apply IH.
  - cbn [single_spaced_from]. rewrite Ec. apply IH.
Qed.

Lemma collapse_trimmed (t : jsstring) :
  trimmed t = true -> t <> [] -> single_spaced (collapse_spaces t) = true.
Proof.
  intros Ht Hne. destruct t as [|c t]; [done|].
  pose proof (trimmed_head _ Ht) as Hc. pose proof (trimmed_last _ Ht) as Hl. simpl in Hc.
  unfold single_spaced, collapse_spaces. simpl. rewrite Hc. simpl. rewrite Hc.
  rewrite single_spaced_collapse. destruct t as [|d t]; [done|].
  rewrite last_cons_cons in Hl. destruct (last (d :: t)); [by rewrite Hl | done].
Qed.

Lemma normalized_subject_spaced (m : rmatch_result) :
  normalized_subject m <> [] -> single_spaced (normalized_subject m) = true.
Proof.
  unfold normalized_subject. intros Hne. apply collapse_trimmed; [apply trim_trimmed|].
  by intros E; rewrite E in Hne.
Qed.

(** X5. [extractSubject] returns [null] or a string of more than 10 code
    units that is normalized: it has no white space at either end, and its
    only white space is single spaces, so that a subject is one line,
    whatever tabs, line breaks or runs of blanks the labelled line has. *)
Theorem subject_is_normalized (text : jsstring) :
  extractSubject text = VNull
  \/ exists s,
       extractSubject text = VStr s /\ (10 < length s)%nat /\ single_spaced s = true.
Proof.
  unfold extractSubject. simpl.
  assert (Hstep : forall m rest_result,
    (rest_result = VNull
     \/ exists s, rest_result = VStr s /\ (10 < length s)%nat /\ single_spaced s = true) ->
    (if (10 <? length (normalized_subject m))%nat
     then VStr (normalized_subject m) else rest_result) = VNull
    \/ exists s,
         (if (10 <? length (normalized_subject m))%nat
          then VStr (normalized_subject m) else rest_result) = VStr s
         /\ (10 < length s)%nat /\ single_spaced s = true).
  { intros m rest_result Hrest.
    destruct (10 <? length (normalized_subject m))%nat eqn:E; [|done].
    apply Nat.ltb_lt in E. right. exists (normalized_subject m).
    split; [done|]. split; [done|]. apply normalized_subject_spaced.
    intros Hnil. rewrite Hnil in E. simpl in E. lia. }
  assert (Hre : match exec true re_pattern text with
                | Some m => if (10 <? length (normalized_subject m))%nat
                            then VStr (normalized_subject m) else VNull
                | None => VNull
                end = VNull
                \/ exists s,
                     match exec true re_pattern text with
                     | Some m => if (10 <? length (normalized_subject m))%nat
                                 then VStr (normalized_subject m) else VNull
                     | None => VNull
                     end = VStr s /\ (10 < length s)%nat /\ single_spaced s = true).
  { destruct (exec true re_pattern text) as [m|]; [|by left]. apply Hstep. by left. }
  destruct (exec true subject_pattern text) as [m|]; [|exact Hre].
  by apply Hstep.
Qed.

Example subject_is_normalized_example :
  extractSubject (js "SUBJECT:" ++ [9; 9] ++ js "Framework   for" ++ [9; 160] ++ js "advisers  " ++ [10] ++ js "next")
  = VStr (js "Framework for advisers").
Proof. by vm_compute. Qed.

(** ** Dates *)

Lemma digit_class (c : N) : class_mem true [Range 48 57] c = true -> is_digit c = true.
Proof.
  unfold class_mem, is_digit, to_upper, to_lower. simpl.
  repeat match goal with |- context [if ?b then _ else _] => destruct b eqn:? end;
    rewrite ?orb_false_r; intros H;
    repeat match goal with
    | H : _ || _ = true |- _ => apply orb_true_iff in H as [H | H]
    | H : _ && _ = true |- _ => apply andb_true_iff in H as [? ?]
    | H : _ && _ = false |- _ => apply andb_false_iff in H
    | H : (_ <=? _) = true |- _ => apply N.leb_le in H
    | H : (_ <=? _) = false |- _ => apply N.leb_gt in H
    end;
    try (apply andb_true_iff; split; apply N.leb_le); try lia.
Qed.

Lemma lang_digit (w : jsstring) :
  lang true digit w -> exists c, w = [c] /\ is_digit c = true.
Proof. inversion 1; subst. eexists. split; [done|]. by apply digit_class. Qed.

Lemma is_space_not_letter (c : N) : is_space c = true -> ~ (65 <= c <= 122).
Proof.
  unfold is_space. rewrite !orb_true_iff, !andb_true_iff, !N.leb_le, !N.eqb_eq. lia.
Qed.

Lemma space_class (c : N) : class_mem true [SpaceEsc] c = true -> is_space c = true.
Proof.
  unfold class_mem. cbn [existsb item_mem andb]. rewrite orb_false_r.
  destruct (is_space c) eqn:Hs; [done|]. rewrite orb_false_l.
  unfold to_upper, to_lower.
  destruct ((97 <=? c) && (c <=? 122)) eqn:E1; destruct ((65 <=? c) && (c <=? 90)) eqn:E2;
    rewrite ?Hs, ?orb_false_r, ?orb_false_l; try done;
    intros H;
    try match type of H with
        | is_space _ || is_space _ = true => apply orb_true_iff in H as [H | H]
        end;
    apply is_space_not_letter in H;
    try (apply andb_true_iff in E1 as [E1 E1']; apply N.leb_le in E1, E1');
    try (apply andb_true_iff in E2 as [E2 E2']; apply N.leb_le in E2, E2'); lia.
Qed.

Lemma lang_spaces (w : jsstring) : lang true (plus true space) w -> w <> [] /\ all_space w.
Proof.
  intros H. split.
  - revert H. apply lang_plus_nonempty. apply lang_class_nonempty.
  - apply lang_alphabet in H. unfold all_space. eapply Forall_impl; [exact H|].
    intros c Hc. cbn [alphabet plus space] in Hc. rewrite orb_diag in Hc.
    by apply space_class.
Qed.

Lemma lang_opt_digit (w : jsstring) :
  lang true (opt digit) w -> w = [] \/ exists c, w = [c] /\ is_digit c = true.
Proof.
  unfold opt. inversion 1 as [| | | | |? ? ? Hd|? ? ? He| | | |]; subst.
  - right. by apply lang_digit.
  - left. by inversion He.
Qed.

Lemma upper_comma (c : N) : to_upper c = 44 -> c = 44.
Proof.
  unfold to_upper. destruct (_ && _) eqn:E; [|done].
  apply andb_true_iff in E as [E1 E2]. apply N.leb_le in E1, E2. lia.
Qed.

Lemma lang_opt_comma (w : jsstring) :
  lang true (opt (Lit 44)) w -> w = [] \/ w = [44].
Proof.
  unfold opt. inversion 1 as [| | | | |? ? ? Hd|? ? ? He| | | |]; subst.
  - right. inversion Hd as [|? c Hc| | | | | | | | |]; subst.
    unfold lit_mem in Hc. apply N.eqb_eq in Hc. by rewrite (upper_comma c Hc).
  - left. by inversion He.
Qed.

Lemma lang_alt_inv icase (r1 r2 : regex) (w : jsstring) :
  lang icase (Alt r1 r2) w -> lang icase r1 w \/ lang icase r2 w.
Proof. inversion 1; subst; eauto. Qed.

Lemma lang_month (w : jsstring) : lang true month_names w -> is_month w.
Proof.
  assert (Hname : forall name : string,
            js name ∈ months -> lang true (word (js name)) w -> is_month w).
  { intros name Hin H. exists (js name). split; [done|].
    by apply lang_word, word_upper in H. }
  assert (Hin : forall name : string,
            bool_decide (js name ∈ months) = true -> js name ∈ months).
  { intros name. apply bool_decide_eq_true. }
  cbv [month_names foldr]. intros H.
  repeat (apply lang_alt_inv in H as [H | H];
          [revert H; apply Hname, Hin; by vm_compute|]).
  revert H. apply Hname, Hin. by vm_compute.
Qed.

(** X6. [extractDate] returns [null] exactly when the date pattern does not
    match; otherwise it returns a stretch of the text as it stands, made of a
    month name in any case, white space, a day of one or two digits, a comma
    or none, white space, and four digits.  The four digits come after white
    space, so they are the first four digits of the number written there,
    whatever follows them in the text; nothing is normalized and nothing
    checks that the day exists. *)
Theorem date_from_text (text : jsstring) :
  (extractDate text = VNull <-> exec true date_pattern text = None)
  /\ (extractDate text = VNull
      \/ exists month gap day comma gap' year,
           extractDate text = VStr (month ++ gap ++ day ++ comma ++ gap' ++ year)
           /\ stretch_of (month ++ gap ++ day ++ comma ++ gap' ++ year) text
           /\ is_month month
           /\ gap <> [] /\ all_space gap
           /\ (length day = 1 \/ length day = 2)%nat
           /\ Forall (fun c => is_digit c = true) day
           /\ (comma = [] \/ comma = js ",")
           /\ gap' <> [] /\ all_space gap'
           /\ length year = 4%nat
           /\ Forall (fun c => is_digit c = true) year).
Proof.
  unfold extractDate. destruct (exec true date_pattern text) as [m|] eqn:E.
  - split; [done|]. right. pose proof (exec_stretch _ _ _ _ E) as Hin.
    apply exec_lang in E. cbv [date_pattern seqs fold_right] in E.
    apply lang_seq_inv in E as (w1 & r1 & Hm & Hmonth & E).
    apply lang_seq_inv in E as (w2 & r2 & -> & Hgap & E).
    apply lang_seq_inv in E as (w3 & r3 & -> & Hd1 & E).
    apply lang_seq_inv in E as (w4 & r4 & -> & Hd2 & E).
    apply lang_seq_inv in E as (w5 & r5 & -> & Hcomma & E).
    apply lang_seq_inv in E as (w6 & r6 & -> & Hgap' & E).
    apply lang_seq_inv in E as (d1 & r7 & -> & H1 & E).
    apply lang_seq_inv in E as (d2 & r8 & -> & H2 & E).
    apply lang_seq_inv in E as (d3 & r9 & -> & H3 & E).
    apply lang_seq_inv in E as (d4 & r10 & -> & H4 & E).
    inversion E; subst r10.
    apply lang_digit in H1 as (c1 & -> & ?), H2 as (c2 & -> & ?),
      H3 as (c3 & -> & ?), H4 as (c4 & -> & ?).
    apply lang_month in Hmonth. apply lang_spaces in Hgap as [? ?], Hgap' as [? ?].
    apply lang_digit in Hd1 as (c0 & -> & ?). apply lang_opt_comma in Hcomma.
    assert (Eshape : m_0 m = w1 ++ w2 ++ ([c0] ++ w4) ++ w5 ++ w6 ++ [c1; c2; c3; c4]).
    { rewrite Hm. by rewrite <- !app_assoc. }
    rewrite Eshape in *.
    exists w1, w2, ([c0] ++ w4), w5, w6, [c1; c2; c3; c4].
    split_and!; try done.
    + apply lang_opt_digit in Hd2 as [-> | (c & -> & ?)]; [by left | by right].
    + apply lang_opt_digit in Hd2 as [-> | (c & -> & ?)]; by repeat constructor.
    + by repeat constructor.
  - split; [done | by left].
Qed.

Example date_from_text_example :
  extractDate (js "dated february 31," ++ [10] ++ js "2021 and March 1, 2020")
  = VStr (js "february 31," ++ [10] ++ js "2021")
  /\ extractDate (js "by MARCH 3 20251231") = VStr (js "MARCH 3 2025")
  /\ extractDate (js "March 123, 2021") = VNull.
Proof. by vm_compute. Qed.

(** ** The text of the document *)

Lemma split_on_nonempty (sep : N) (s : jsstring) : split_on sep s <> [].
Proof.
  induction s as [|c s IH]; simpl; [done|].
  destruct (c =? sep); [done|]. by destruct (split_on sep s).
Qed.

Lemma extractTextFromPdf_nonempty (text : jsstring) : extractTextFromPdf (Some text) <> [].
Proof.
  unfold extractTextFromPdf. pose proof (split_on_nonempty 12 text) as H.
  destruct (split_on 12 text) as [|page pages]; [done|]. simpl. done.
Qed.

(** X7. The text handed to the analysis is empty exactly when the document
    could not be read.  An unreadable document gives no candidates whatever
    the collaborator would answer; a readable one, even without any text,
    gives what decoding the answer gives, and the empty sequence when
    decoding throws. *)
Theorem analysis_needs_readable_document (pdf : option jsstring) (r : reply) :
  (extractTextFromPdf pdf = [] <-> pdf = None)
  /\ (pdf = None -> analyzeWithEnhancedAI pdf r = VArr [])
  /\ (forall text, pdf = Some text ->
        analyzeWithEnhancedAI pdf r
        = match parse_response r with Ok references => references | Throw _ => VArr [] end).
Proof.
  split_and!.
  - destruct pdf as [text|]; [|done].
    split; [|done]. intros H. by apply extractTextFromPdf_nonempty in H.
  - by intros ->.
  - intros text ->. unfold analyzeWithEnhancedAI.
    rewrite bool_decide_eq_false_2; [done|]. apply extractTextFromPdf_nonempty.
Qed.

(** ** The pages of the document *)

Lemma split_on_join (sep : N) (s : jsstring) : join_with sep (split_on sep s) = s.
Proof.
  induction s as [|c s IH]; [done|]. cbn [split_on].
  pose proof (split_on_nonempty sep s) as Hne.
  destruct (c =? sep) eqn:Ec.
  - apply N.eqb_eq in Ec as ->.
    destruct (split_on sep s) as [|p ps]; [done|]. cbn [join_with]. simpl. by rewrite <- IH.
  - destruct (split_on sep s) as [|p ps]; [done|].
    rewrite <- IH. by destruct ps.
Qed.

Lemma split_on_length (sep : N) (s : jsstring) :
  length (split_on sep s) = S (length (List.filter (fun c => c =? sep) s)).
Proof.
  induction s as [|c s IH]; [done|]. cbn [split_on List.filter].
  pose proof (split_on_nonempty sep s) as Hne.
  destruct (c =? sep); simpl; [by rewrite IH|].
  by destruct (split_on sep s).
Qed.

Lemma split_on_pages (sep : N) (s : jsstring) :
  Forall (fun page => sep ∉ page) (split_on sep s).
Proof.
  induction s as [|c s IH]; cbn [split_on].
  - constructor; [apply not_elem_of_nil | constructor].
  - pose proof (split_on_nonempty sep s) as Hne.
    destruct (c =? sep) eqn:Ec.
    + constructor; [apply not_elem_of_nil | exact IH].
    + destruct (split_on sep s) as [|p ps]; [done|].
      apply Forall_cons in IH as [Hp Hps]. constructor; [|done].
      apply N.eqb_neq in Ec. rewrite not_elem_of_cons. split; [congruence | done].
Qed.

Lemma concat_imap_stretch {A} (f : nat -> A -> jsstring) (l : list A) (i : nat) (x : A) :
  l !! i = Some x -> stretch_of (f i x) (concat (imap f l)).
Proof.
  intros Hi.
  assert (Hf : imap f l !! i = Some (f i x)) by by rewrite list_lookup_imap, Hi.
  apply list_elem_of_split_length in Hf as (before & after & -> & _).
  exists (concat before), (concat after). by rewrite concat_app.
Qed.

(** X21. [extractTextFromPdf] loses nothing of a readable document: the
    pages it marks are the stretches of the text between form feeds, one more
    than there are form feeds, joining them with form feeds gives the text
    back, and the full text holds every page, after the marker that carries
    its number and before a line feed. *)
Theorem pages_are_marked (text : jsstring) :
  let pages := split_on 12 text in
  length pages = S (length (List.filter (fun c => c =? 12) text))
  /\ Forall (fun page => 12 ∉ page) pages
  /\ join_with 12 pages = text
  /\ forall i page,
       pages !! i = Some page ->
       stretch_of (page_block i page) (extractTextFromPdf (Some text)).
Proof.
  intros pages. split_and!.
  - apply split_on_length.
  - apply split_on_pages.
  - apply split_on_join.
  - intros i page Hi. unfold extractTextFromPdf.
    exact (concat_imap_stretch page_block pages i page Hi).
Qed.

Example pages_are_marked_example :
  extractTextFromPdf (Some (js "first page" ++ [12] ++ js "second page"))
  = [10] ++ js "--- PAGE 1 ---" ++ [10] ++ js "first page" ++ [10]
    ++ [10] ++ js "--- PAGE 2 ---" ++ [10] ++ js "second page" ++ [10].
Proof. by vm_compute. Qed.

(** ** Wrapper markers *)

Lemma startsWith_app (p r : jsstring) : startsWith (p ++ r) p = true.
Proof. apply startsWith_spec. eauto. Qed.

Lemma endsWith_app (r p : jsstring) : endsWith (r ++ p) p = true.
Proof.
  unfold endsWith. rewrite rev_app_distr. apply startsWith_app.
Qed.

Lemma startsWith_head (s p : jsstring) (c : N) :
  head p = Some c -> head s <> Some c -> startsWith s p = false.
Proof.
  destruct p as [|b p]; [done|]. intros [= ->]. destruct s as [|a s]; [done|].
  simpl. intros H. destruct (a =? c) eqn:E; [|done].
  apply N.eqb_eq in E. by subst.
Qed.

Lemma head_padded (gap body more : jsstring) (c : N) :
  all_space gap -> is_space c = false -> body <> [] -> head body <> Some c ->
  head (gap ++ body ++ more) <> Some c.
Proof.
  intros Hgap Hc Hne Hb. destruct gap as [|g gap].
  - simpl. destruct body; [done|]. done.
  - simpl. apply Forall_cons in Hgap as [Hg _]. intros [= ->]. congruence.
Qed.

(** X8. A payload wrapped in a [```json] fence is unwrapped: with white space
    around the fences and around the body, the cleaned text is the body, for
    every body that is not empty, has no white space at its ends and does not
    begin with a backquote. *)
Theorem fenced_payload_unwrapped (before gap1 body gap2 after : jsstring) :
  all_space before -> all_space gap1 -> all_space gap2 -> all_space after ->
  trimmed body = true -> body <> [] -> head body <> Some 96 ->
  clean_response (before ++ js "```json" ++ gap1 ++ body ++ gap2 ++ js "```" ++ after)
  = body.
Proof.
  intros Hb H1 H2 Ha Ht Hne Hq. unfold clean_response.
  set (inner := gap1 ++ body ++ gap2 ++ js "```").
  assert (Etrim : trim (before ++ js "```json" ++ gap1 ++ body ++ gap2 ++ js "```" ++ after)
                  = js "```json" ++ inner).
  { replace (before ++ js "```json" ++ gap1 ++ body ++ gap2 ++ js "```" ++ after)
      with (before ++ (js "```json" ++ inner) ++ after)
      by (unfold inner; by rewrite <- !app_assoc).
    apply trim_padded; [done..|]. unfold trimmed, inner.
    apply andb_true_iff. split; [done|].
    rewrite !app_assoc. change (js "```") with ([96; 96] ++ [96]).
    by rewrite app_assoc, last_snoc. }
  rewrite Etrim, startsWith_app.
  change (slice_from 7 (js "```json" ++ inner)) with inner.
  assert (Ehead : startsWith inner (js "```") = false).
  { apply (startsWith_head _ _ 96); [done|]. unfold inner. by apply head_padded. }
  assert (Eend : endsWith inner (js "```") = true).
  { unfold inner. rewrite !app_assoc. apply endsWith_app. }
  rewrite Ehead, Eend. unfold slice_to_minus.
  assert (Etake : take (length inner - 3) inner = gap1 ++ body ++ gap2).
  { unfold inner. rewrite !app_assoc. rewrite length_app.
    change (length (js "```")) with 3%nat.
    replace (length ((gap1 ++ body) ++ gap2) + 3 - 3)%nat
      with (length ((gap1 ++ body) ++ gap2)) by lia.
    by rewrite take_app_length. }
  rewrite Etake. by apply trim_padded.
Qed.

Lemma fenced_payload_unwrapped_witness :
  clean_response ([32; 10] ++ js "```json" ++ [10] ++ js "[1, 2]" ++ [13; 10] ++ js "```" ++ [10])
  = js "[1, 2]".
Proof.
  apply fenced_payload_unwrapped; try (repeat constructor; done); by vm_compute.
Defined.

(** X9. A payload without fences is only trimmed: when the text between the
    surrounding white space neither begins nor ends with three backquotes, the
    cleaned text is that text. *)
Theorem bare_payload_trimmed (before body after : jsstring) :
  all_space before -> all_space after -> trimmed body = true ->
  startsWith body (js "```") = false ->
  endsWith body (js "```") = false ->
  clean_response (before ++ body ++ after) = body.
Proof.
  intros Hb Ha Ht Hs He. unfold clean_response. rewrite trim_padded by done.
  assert (Hj : startsWith body (js "```json") = false).
  { destruct (startsWith body (js "```json")) eqn:E; [|done].
    apply startsWith_spec in E as (r & ->).
    change (js "```json" ++ r) with (js "```" ++ (js "json" ++ r)) in Hs.
    by rewrite startsWith_app in Hs. }
  rewrite Hj, Hs, He. by apply trim_fixed.
Qed.

Lemma bare_payload_trimmed_witness :
  clean_response ([10] ++ js "[{}]" ++ [32; 32]) = js "[{}]".
Proof.
  apply bare_payload_trimmed; try (repeat constructor; done); by vm_compute.
Defined.

(** ** Exceptions of the resolution step *)

Lemma bind_TypeError {A B} (m : result A) (f : A -> result B) :
  throws_only_TypeError m -> (forall a, throws_only_TypeError (f a)) ->
  throws_only_TypeError (m ≫= f).
Proof. destruct m as [a|e]; simpl; [by intros _ H | by intros -> _]. Qed.

Lemma to_string_TypeError (v : value) : throws_only_TypeError (to_string v).
Proof.
  revert v. fix IH 1. intros [| | b | n | s | items | props]; simpl; try done.
  - induction items as [|x l IHl]; [done|].
    apply bind_TypeError.
    + pose proof (IH x) as Hx. by destruct x.
    + intros sx. destruct l; [done|]. apply bind_TypeError; [exact IHl | done].
  - by destruct (own props _).
Qed.

Lemma get_prop_TypeError (v : value) (name : jsstring) :
  throws_only_TypeError (get_prop v name).
Proof. by destruct v. Qed.

Lemma enhance_one_TypeError idx src ref : throws_only_TypeError (enhance_one idx src ref).
Proof.
  unfold enhance_one. apply bind_TypeError; [apply get_prop_TypeError|]. intros target.
  apply bind_TypeError; [apply to_string_TypeError|]. intros key.
  destruct (_ && _); [done|]. by destruct (has_property idx key).
Qed.

Lemma enhance_loop_TypeError idx src refs acc :
  throws_only_TypeError (enhance_loop idx src refs acc).
Proof.
  revert acc. induction refs as [|ref refs IH]; intros acc; simpl; [done|].
  apply bind_TypeError; [apply enhance_one_TypeError | intros step; apply IH].
Qed.

Lemma enhance_TypeError idx references src :
  throws_only_TypeError (enhanceReferencesWithAvailability idx references src).
Proof.
  unfold enhanceReferencesWithAvailability. apply bind_TypeError.
  - by destruct references.
  - intros refs. apply enhance_loop_TypeError.
Qed.

Lemma enhance_loop_throws idx src before ref after acc e :
  enhance_one idx src ref = Throw e ->
  exists e', enhance_loop idx src (before ++ ref :: after) acc = Throw e'.
Proof.
  intros Href. rewrite enhance_loop_app.
  destruct (enhance_loop idx src before acc) as [acc'|e']; simpl; [|by eauto].
  rewrite Href. simpl. eauto.
Qed.

(** ** Local references *)

Ltac eval_jseqb :=
  repeat match goal with
  | |- context [jseqb (js ?a) (js ?b)] =>
    let v := eval vm_compute in (jseqb (js a) (js b)) in
    change (jseqb (js a) (js b)) with v
  end;
  cbv iota.

Lemma own_spread_enhanced idx src ref e name :
  enhance_one idx src ref = Ok (Some e) ->
  name ∉ written_by_resolution ->
  own e name = own (spread ref) name.
Proof.
  unfold enhance_one.
  destruct (get_prop ref _) as [target|]; [simpl|done].
  destruct (to_string _) as [key|]; [simpl|done].
  destruct (_ && _); [done|].
  intros H Hname.
  assert (H1 : name <> js "availability_status") by (intros ->; apply Hname; set_solver).
  assert (H2 : name <> js "local_file") by (intros ->; apply Hname; set_solver).
  assert (H3 : name <> js "note") by (intros ->; apply Hname; set_solver).
  destruct (has_property idx key); injection H as <-; rewrite !own_set_prop;
    repeat (destruct (jseqb _ name) eqn:?; jseq).
Qed.

(** X10. A candidate whose target is a key of the index, under an entry whose
    file name is not the name of the document, is resolved as
    [available_locally]; its [local_file] is the snapshot of that entry (file
    name, path, circular number, subject and date, without the key terms),
    and every property of the candidate that is not one of the three the
    resolution writes is kept, a [note] sent with the candidate included. *)
Theorem local_match_carries_snapshot (idx : gmap jsstring circular) (src : jsstring)
    (ref target : value) (key : jsstring) (c : circular) :
  get_prop ref (js "matched_target") = Ok target ->
  to_string (or_else target (VStr [])) = Ok key ->
  idx !! key = Some c ->
  filename c <> src ->
  exists e,
    enhance_one idx src ref = Ok (Some e)
    /\ get e (js "availability_status") = VStr (js "available_locally")
    /\ get e (js "local_file") = snapshot c
    /\ own e (js "note") = own (spread ref) (js "note")
    /\ forall name, name ∉ written_by_resolution -> own e name = own (spread ref) name.
Proof.
  intros Ht Hkey Hc Hsrc.
  assert (Hp : has_property idx key = true).
  { unfold has_property. rewrite Hc. by rewrite bool_decide_eq_true_2 by eauto. }
  assert (Hs : strict_eq_str (entry_field idx key (fun c => VStr (filename c))) src = false).
  { unfold entry_field. rewrite Hc. simpl. by apply jseqb_false. }
  assert (He : enhance_one idx src ref
    = Ok (Some (set_prop
                  (set_prop (spread ref) (js "availability_status")
                     (VStr (js "available_locally")))
                  (js "local_file") (local_file_of idx key)))).
  { unfold enhance_one. rewrite Ht. simpl. rewrite Hkey. simpl. by rewrite Hp, Hs. }
  eexists. split; [exact He|]. split_and!.
  - rewrite !get_set_prop. eval_jseqb. reflexivity.
  - rewrite get_set_prop. eval_jseqb.
    unfold local_file_of, entry_field, snapshot. by rewrite Hc.
  - rewrite !own_set_prop. eval_jseqb. reflexivity.
  - intros name Hname. by apply (own_spread_enhanced idx src ref).
Qed.

Lemma local_match_carries_snapshot_witness :
  exists e c,
    loadLocalCirculars example_dir !! js "circA.pdf" = Some c
    /\ enhance_one (loadLocalCirculars example_dir) (js "doc.pdf")
         (candidate "as per the earlier circular" "circA.pdf") = Ok (Some e)
    /\ get e (js "local_file") = snapshot c
    /\ circular_number c = VStr (js "SEBI/HO/MIRSD/CIR/P/2021/670").
Proof.
  destruct (loadLocalCirculars example_dir !! js "circA.pdf") as [c|] eqn:Hc;
    [|by vm_compute in Hc].
  destruct (local_match_carries_snapshot (loadLocalCirculars example_dir) (js "doc.pdf")
              (candidate "as per the earlier circular" "circA.pdf")
              (VStr (js "circA.pdf")) (js "circA.pdf") c)
    as (e & He & _ & Hl & _); [done | done | done | |].
  - vm_compute in Hc. injection Hc as <-. by vm_compute.
  - exists e, c. split; [done|]. split; [exact He|]. split; [exact Hl|].
    vm_compute in Hc. by injection Hc as <-.
Defined.

(** ** Resolution over the index of the loader *)

Lemma load_lookup (files : list dir_entry) (k : jsstring) (c : circular) :
  loadLocalCirculars files !! k = Some c -> filename c = k /\ is_pdf_name k = true.
Proof.
  rewrite loadLocalCirculars_fold. intros H.
  apply load_fold_Some in H as [H | (f & Hf & Hn & Hm)]; [by rewrite lookup_empty in H|].
  apply elem_of_pdf_files in Hf as [Hf Hpdf].
  apply extractMetadata_Some in Hm as (text & Ht & ->). simpl. by rewrite <- Hn.
Qed.

Lemma falsy_key (target : value) :
  truthy target = false -> to_string (or_else target (VStr [])) = Ok [].
Proof. unfold or_else. by intros ->. Qed.

(** X11. Over an index built by [loadLocalCirculars], a candidate whose
    [matched_target] is missing, [null], empty, [false] or zero is resolved as
    [external_reference], with the advisory note: the empty key it stands for
    is no file name and no member of [Object.prototype]. *)
Theorem missing_target_is_external (files : list dir_entry) (src : jsstring)
    (ref target : value) :
  get_prop ref (js "matched_target") = Ok target ->
  truthy target = false ->
  exists e,
    enhance_one (loadLocalCirculars files) src ref = Ok (Some e)
    /\ get e (js "availability_status") = VStr (js "external_reference")
    /\ get e (js "note") = VStr (js "Referenced document not in local collection").
Proof.
  intros Ht Hfalsy. eexists. split.
  - apply (enhance_one_external _ src ref target []); [done | by apply falsy_key | |].
    + destruct (loadLocalCirculars files !! []) as [c|] eqn:E; [|done].
      apply load_lookup in E as [_ E]. by vm_compute in E.
    + apply (bool_decide_unpack _). by vm_compute.
  - rewrite !get_set_prop. eval_jseqb. split; reflexivity.
Qed.

Lemma missing_target_is_external_witness :
  exists e,
    enhance_one (loadLocalCirculars example_dir) (js "doc.pdf")
      (VObj [(js "exact_text", VStr (js "the Companies Act")); (js "matched_target", VNull)])
    = Ok (Some e)
    /\ get e (js "availability_status") = VStr (js "external_reference").
Proof.
  destruct (missing_target_is_external example_dir (js "doc.pdf")
              (VObj [(js "exact_text", VStr (js "the Companies Act"));
                     (js "matched_target", VNull)]) VNull)
    as (e & He & Hs & _); [done | done |].
  exists e. split; [exact He | exact Hs].
Defined.

(** X12. Over an index built by [loadLocalCirculars], where every entry is
    stored under its own file name, a candidate with a string target is
    dropped exactly when the target is the name of the document under
    analysis and that name is indexed. *)
Theorem self_reference_is_by_name (files : list dir_entry) (src : jsstring)
    (ref : value) (k : jsstring) :
  get_prop ref (js "matched_target") = Ok (VStr k) ->
  enhance_one (loadLocalCirculars files) src ref = Ok None
  <-> k = src /\ is_Some (loadLocalCirculars files !! k).
Proof.
  intros Ht. split.
  - unfold enhance_one. rewrite Ht. simpl.
    assert (Hkey : to_string (or_else (VStr k) (VStr [])) = Ok k).
    { unfold or_else. simpl. case_bool_decide; simpl; [by subst | done]. }
    rewrite Hkey. simpl.
    destruct (has_property _ k && _) eqn:E.
    + intros _. apply andb_true_iff in E as [_ E]. unfold entry_field in E.
      destruct (loadLocalCirculars files !! k) as [c|] eqn:Hc; [|done].
      simpl in E. apply jseqb_true in E. apply load_lookup in Hc as [Hc _].
      split; [congruence | eauto].
    + by destruct (has_property _ k).
  - intros [-> [c Hc]]. apply (enhance_one_self _ _ ref src c); [done | done|].
    by apply load_lookup in Hc as [Hc _].
Qed.

Lemma self_reference_is_by_name_witness :
  enhance_one (loadLocalCirculars example_dir) (js "circA.pdf")
    (candidate "this circular" "circA.pdf") = Ok None
  /\ enhance_one (loadLocalCirculars example_dir) (js "doc.pdf")
       (candidate "this circular" "circA.pdf") <> Ok None.
Proof.
  split.
  - apply (self_reference_is_by_name example_dir (js "circA.pdf") _ (js "circA.pdf"));
      [done|]. split; [done|]. apply (bool_decide_unpack _). by vm_compute.
  - intros H.
    apply (self_reference_is_by_name example_dir (js "doc.pdf") _ (js "circA.pdf")) in H;
      [|done]. destruct H as [H _]. by vm_compute in H.
Defined.

(** ** What the resolution step returns and when it throws *)

(** X13. A [null] among the candidates makes the whole resolution step throw
    a [TypeError]: nothing is returned for the other candidates. *)
Theorem null_candidate_aborts_resolution (idx : gmap jsstring circular) (src : jsstring)
    (items : list value) :
  VNull ∈ items ->
  enhanceReferencesWithAvailability idx (VArr items) src = Throw TypeError.
Proof.
  intros Hin. apply list_elem_of_split in Hin as (before & after & ->).
  pose proof (enhance_TypeError idx (VArr (before ++ VNull :: after)) src) as Hkind.
  unfold enhanceReferencesWithAvailability in *. simpl in *.
  destruct (enhance_loop_throws idx src before VNull after [] TypeError eq_refl) as [e He].
  rewrite He in *. simpl in Hkind. by rewrite Hkind.
Qed.

Lemma null_candidate_aborts_resolution_witness :
  enhanceReferencesWithAvailability (loadLocalCirculars example_dir)
    (VArr [candidate "first" "circA.pdf"; VNull; candidate "third" ""]) (js "doc.pdf")
  = Throw TypeError.
Proof. apply null_candidate_aborts_resolution. set_solver. Defined.

Lemma enhance_loop_sublist idx src (refs : list value) (acc out : list object)
    (name : jsstring) :
  name ∉ written_by_resolution ->
  enhance_loop idx src refs acc = Ok out ->
  exists out',
    out = acc ++ out'
    /\ sublist ((fun e => own e name) <$> out') ((fun ref => own (spread ref) name) <$> refs).
Proof.
  intros Hname. revert acc. induction refs as [|ref refs IH]; intros acc; simpl.
  - intros [= <-]. exists []. by rewrite app_nil_r.
  - destruct (enhance_one idx src ref) as [[e|]|] eqn:E; simpl; [| |done].
    + intros H. apply IH in H as (out' & -> & Hsub).
      exists (e :: out'). split; [by rewrite <- app_assoc|].
      simpl. rewrite (own_spread_enhanced idx src ref e name E Hname). by constructor.
    + intros H. apply IH in H as (out' & -> & Hsub).
      exists out'. split; [done|]. by constructor.
Qed.

(** X14. The resolved list keeps the order of the candidates: for every
    property name that the resolution does not write, such as [exact_text],
    the values of that property along the resolved list are a subsequence of
    its values along the candidates; there is at most one resolved reference
    per candidate. *)
Theorem resolution_keeps_order (idx : gmap jsstring circular) (src : jsstring)
    (items : list value) (out : list object) (name : jsstring) :
  enhanceReferencesWithAvailability idx (VArr items) src = Ok out ->
  name ∉ written_by_resolution ->
  sublist ((fun e => own e name) <$> out) ((fun ref => own (spread ref) name) <$> items)
  /\ (length out <= length items)%nat.
Proof.
  unfold enhanceReferencesWithAvailability. simpl. intros H Hname.
  apply (enhance_loop_sublist idx src items [] out name Hname) in H as (out' & -> & Hsub).
  simpl. split; [done|]. apply sublist_length in Hsub. by rewrite !length_fmap in Hsub.
Qed.

Lemma resolution_keeps_order_witness :
  exists out,
    enhanceReferencesWithAvailability (loadLocalCirculars example_dir)
      (VArr [candidate "first" "x.pdf"; candidate "second" "circA.pdf";
             candidate "third" ""]) (js "circA.pdf") = Ok out
    /\ (fun e => own e (js "exact_text")) <$> out
       = [Some (VStr (js "first")); Some (VStr (js "third"))].
Proof.
  destruct (enhanceReferencesWithAvailability (loadLocalCirculars example_dir)
      (VArr [candidate "first" "x.pdf"; candidate "second" "circA.pdf";
             candidate "third" ""]) (js "circA.pdf")) as [out|] eqn:E;
    [|by vm_compute in E].
  exists out. split; [done|].
  pose proof (resolution_keeps_order _ _ _ _ (js "exact_text") E) as [_ Hlen];
    [apply (bool_decide_unpack _); by vm_compute|].
  vm_compute in E. by injection E as <-.
Defined.

Lemma to_string_plain (v : value) : plain v = true -> exists s, to_string v = Ok s.
Proof. destruct v as [| | [] | | | |]; simpl; try done; eauto. Qed.

Lemma enhance_one_resolvable idx src ref :
  resolvable ref -> exists step, enhance_one idx src ref = Ok step.
Proof.
  intros (props & -> & Hplain). unfold enhance_one. simpl.
  fold (get props (js "matched_target")).
  assert (Hkey : exists key, to_string (or_else (get props (js "matched_target")) (VStr []))
                             = Ok key).
  { apply to_string_plain. unfold or_else.
    by destruct (truthy (get props (js "matched_target"))). }
  destruct Hkey as [key ->]. simpl.
  destruct (_ && _); [by eauto|]. destruct (has_property idx key); eauto.
Qed.

(** X15. The resolution step returns, and does not throw, on every array of
    candidates that are objects whose [matched_target], when there is one, is
    a string, a number, a boolean or [null]. *)
Theorem resolution_returns (idx : gmap jsstring circular) (src : jsstring)
    (items : list value) :
  Forall resolvable items ->
  exists out, enhanceReferencesWithAvailability idx (VArr items) src = Ok out.
Proof.
  unfold enhanceReferencesWithAvailability. simpl. intros Hall.
  generalize (@nil object).
  induction Hall as [|ref refs Href _ IH]; intros acc; simpl; [by eauto|].
  destruct (enhance_one_resolvable idx src ref Href) as [step ->]. simpl. apply IH.
Qed.

Lemma resolution_returns_witness :
  exists out,
    enhanceReferencesWithAvailability (loadLocalCirculars example_dir)
      (VArr [candidate "first" "x.pdf"; VObj []]) (js "doc.pdf") = Ok out.
Proof.
  apply resolution_returns. repeat constructor.
  - eexists. split; [reflexivity | by vm_compute].
  - eexists. split; [reflexivity | by vm_compute].
Defined.

(** ** The report *)

Lemma or_na_TypeError (v : value) : throws_only_TypeError (or_na v).
Proof. apply to_string_TypeError. Qed.

Lemma string_or_TypeError (v : value) (fallback : string) :
  throws_only_TypeError (string_or v fallback).
Proof. unfold string_or. by destruct (or_else _ _). Qed.

Lemma number_line_TypeError (v : value) : throws_only_TypeError (number_line v).
Proof.
  unfold number_line. destruct (truthy v); [|done].
  apply bind_TypeError; [apply to_string_TypeError | done].
Qed.

Ltac only_TypeError :=
  repeat first
    [ apply bind_TypeError; [|intros ?]
    | apply or_na_TypeError
    | apply string_or_TypeError
    | apply number_line_TypeError
    | apply get_prop_TypeError
    | exact I ].

Lemma local_block_TypeError (i : nat) (ref : object) :
  throws_only_TypeError (local_block i ref).
Proof. unfold local_block, confidence_line, text_line. only_TypeError. Qed.

Lemma external_block_TypeError (i : nat) (ref : object) :
  throws_only_TypeError (external_block i ref).
Proof. unfold external_block, confidence_line, text_line. only_TypeError. Qed.

Lemma blocks_TypeError (block : nat -> object -> result (list jsstring)) (i : nat)
    (refs : list object) :
  (forall i ref, throws_only_TypeError (block i ref)) ->
  throws_only_TypeError (blocks block i refs).
Proof.
  intros Hblock. revert i. induction refs as [|ref refs IH]; intros i; simpl; [done|].
  apply bind_TypeError; [apply Hblock|]. intros lines.
  apply bind_TypeError; [apply IH | done].
Qed.

Lemma formatResults_TypeError (references : list object) (name now : jsstring) :
  throws_only_TypeError (formatResults references name now).
Proof.
  unfold formatResults. destruct (length references =? 0)%nat; [done|].
  apply bind_TypeError.
  - destruct (0 <? _)%nat; [|done].
    apply bind_TypeError; [|done]. apply blocks_TypeError, local_block_TypeError.
  - intros locals. apply bind_TypeError; [|done].
    destruct (0 <? _)%nat; [|done].
    apply bind_TypeError; [|done]. apply blocks_TypeError, external_block_TypeError.
Qed.

Lemma main_throws (h : host) (e : error) :
  main h = Throw e ->
  (e = NoLocalCirculars /\ loadLocalCirculars (circulars_dir h) = ∅)
  \/ (e = TypeError /\ loadLocalCirculars (circulars_dir h) <> ∅).
Proof.
  unfold main. destruct (size _ =? 0)%nat eqn:Hsize.
  - intros [= <-]. left. split; [done|].
    apply Nat.eqb_eq in Hsize. by apply map_size_empty_iff.
  - intros H. right. split.
    + pose proof (enhance_TypeError (loadLocalCirculars (circulars_dir h))
                    (analyzeWithEnhancedAI (document_text h) (inference h))
                    (document_name h)) as He.
      destruct (enhanceReferencesWithAvailability _ _ _) as [out|e']; simpl in H;
        [|simpl in He; congruence].
      pose proof (formatResults_TypeError out (document_name h) (clock_locale h)) as Hf.
      destruct (formatResults _ _ _) as [lines|e']; simpl in H; [done|].
      simpl in Hf. congruence.
    + apply Nat.eqb_neq in Hsize. by rewrite map_size_empty_iff in Hsize.
Qed.

Lemma blocks_throws (block : nat -> object -> result (list jsstring))
    (refs : list object) (r : object) :
  r ∈ refs ->
  (forall i, exists e, block i r = Throw e) ->
  forall i, exists e, blocks block i refs = Throw e.
Proof.
  intros Hr Hblock. induction Hr as [r refs | r r' refs _ IH]; intros i; simpl.
  - destruct (Hblock i) as [e ->]. simpl. eauto.
  - destruct (block i r') as [lines|e]; simpl; [|by eauto].
    destruct (IH Hblock (S i)) as [e ->]. simpl. eauto.
Qed.

Lemma string_or_throws (v : value) (fallback : string) :
  text_or_falsy v = false -> string_or v fallback = Throw TypeError.
Proof.
  unfold string_or, or_else, text_or_falsy.
  destruct v as [| | b | n | s | items | props]; try done;
    intros H; apply negb_false_iff in H; by rewrite H.
Qed.

Ltac next_bind :=
  match goal with
  | |- exists e, mbind _ ?m = Throw e => destruct m; simpl; [|by eauto]
  end.

Lemma local_block_throws (i : nat) (r : object) (name : jsstring) :
  name ∈ label_fields -> text_or_falsy (get r name) = false ->
  exists e, local_block i r = Throw e.
Proof.
  unfold label_fields. rewrite !elem_of_cons, elem_of_nil.
  intros [-> | [-> | []]] Hbad; unfold local_block, confidence_line.
  - rewrite (string_or_throws _ _ Hbad). simpl. eauto.
  - rewrite (string_or_throws (get r (js "context")) _ Hbad).
    do 7 next_bind. eauto.
Qed.

Lemma external_block_throws (i : nat) (r : object) (name : jsstring) :
  name ∈ label_fields -> text_or_falsy (get r name) = false ->
  exists e, external_block i r = Throw e.
Proof.
  unfold label_fields. rewrite !elem_of_cons, elem_of_nil.
  intros [-> | [-> | []]] Hbad; unfold external_block, confidence_line.
  - rewrite (string_or_throws (get r (js "confidence")) _ Hbad).
    next_bind. simpl. eauto.
  - rewrite (string_or_throws (get r (js "context")) _ Hbad).
    do 7 next_bind. eauto.
Qed.

Lemma filter_nonempty {A} (P : A -> bool) (l : list A) (x : A) :
  x ∈ l -> P x = true -> (0 <? length (List.filter P l))%nat = true.
Proof.
  intros Hx HP. assert (Hin : x ∈ List.filter P l) by by apply elem_of_filter_bool.
  destruct (List.filter P l); [by apply elem_of_nil in Hin | done].
Qed.

Lemma formatResults_throws (references : list object) (name now : jsstring)
    (r : object) (field : jsstring) :
  Forall materialized references ->
  r ∈ references ->
  field ∈ label_fields -> text_or_falsy (get r field) = false ->
  formatResults references name now = Throw TypeError.
Proof.
  intros Hall Hr Hfield Hbad.
  pose proof (formatResults_TypeError references name now) as Hkind.
  assert (Hthrows : exists e, formatResults references name now = Throw e);
    [|destruct Hthrows as [e He]; rewrite He in *; simpl in Hkind; by subst].
  clear Hkind. unfold formatResults.
  destruct references as [|r0 refs]; [by apply elem_of_nil in Hr|].
  change (length (r0 :: refs) =? 0)%nat with false. cbv iota.
  rewrite Forall_forall in Hall. destruct (Hall r Hr) as [[H1 _] | [_ H2]].
  - rewrite (filter_nonempty _ _ r Hr H1).
    destruct (blocks_throws local_block
                (List.filter (has_status "available_locally") (r0 :: refs)) r) with (i := 0%nat)
      as [e ->].
    + by apply elem_of_filter_bool.
    + intros i. by apply (local_block_throws i r field).
    + simpl. eauto.
  - match goal with |- exists e, mbind _ ?m = Throw e => destruct m as [locals|e] end;
      [|simpl; by eauto].
    rewrite (filter_nonempty _ _ r Hr H2).
    destruct (blocks_throws external_block
                (List.filter (has_status "external_reference") (r0 :: refs)) r) with (i := 0%nat)
      as [e ->].
    + by apply elem_of_filter_bool.
    + intros i. by apply (external_block_throws i r field).
    + simpl. eauto.
Qed.

(** X16. A reference whose [confidence] or [context] is a truthy value
    other than a string (a number whose double is not zero, such as 0.9,
    [true], an array or an object) ends the run: the fallback of [||] does
    not replace it, the report calls a method of strings on it, the
    [TypeError] reaches the handler of [main], and nothing is saved.  A falsy
    value ([null], [false], zero, a number too small for a double) is
    replaced by the fallback and does not end the run. *)
Theorem non_text_label_aborts_run (h : host) (out : list object) (r : object)
    (field : jsstring) :
  loadLocalCirculars (circulars_dir h) <> ∅ ->
  enhanceReferencesWithAvailability (loadLocalCirculars (circulars_dir h))
    (analyzeWithEnhancedAI (document_text h) (inference h)) (document_name h) = Ok out ->
  r ∈ out ->
  field ∈ label_fields ->
  text_or_falsy (get r field) = false ->
  main h = Throw TypeError.
Proof.
  intros Hidx Hout Hr Hfield Hbad. unfold main.
  assert (Hsize : (size (loadLocalCirculars (circulars_dir h)) =? 0)%nat = false).
  { apply Nat.eqb_neq. by rewrite map_size_empty_iff. }
  rewrite Hsize, Hout.
  pose proof (formatResults_throws out (document_name h) (clock_locale h) r field
                (enhance_materialized _ _ _ _ Hout) Hr Hfield Hbad) as Hf.
  change (Ok out ≫= ?f) with (f out). cbv beta. by rewrite Hf.
Qed.

Lemma non_text_label_aborts_run_witness :
  let payload :=
    js "[{" ++ quoted "exact_text" ++ js ":" ++ quoted "SEBI Act, 1992" ++ js ","
    ++ quoted "confidence" ++ js ":0.9}]" in
  main (example_host "doc.pdf" payload) = Throw TypeError.
Proof.
  intros payload.
  destruct (enhanceReferencesWithAvailability
              (loadLocalCirculars (circulars_dir (example_host "doc.pdf" payload)))
              (analyzeWithEnhancedAI (document_text (example_host "doc.pdf" payload))
                 (inference (example_host "doc.pdf" payload)))
              (document_name (example_host "doc.pdf" payload))) as [out|] eqn:E;
    [|by vm_compute in E].
  destruct out as [|r out]; [by vm_compute in E|].
  apply (non_text_label_aborts_run _ (r :: out) r (js "confidence")).
  - intros Hempty. apply (f_equal size) in Hempty. by vm_compute in Hempty.
  - exact E.
  - by left.
  - by left.
  - vm_compute in E. injection E as <- _. by vm_compute.
Defined.

(** A confidence too small for a double is zero for the program: the
    fallback replaces it and the run completes. *)
Example tiny_confidence_is_replaced :
  let payload :=
    js "[{" ++ quoted "exact_text" ++ js ":" ++ quoted "SEBI Act, 1992" ++ js ","
    ++ quoted "confidence" ++ js ":1e-400}]" in
  exists lines rep,
    main (example_host "doc.pdf" payload) = Ok (lines, rep)
    /\ js "   🤖 AI Confidence: UNKNOWN" ∈ lines
    /\ total_references (report_summary rep) = 1%nat.
Proof.
  intros payload.
  destruct (main (example_host "doc.pdf" payload)) as [[lines rep]|] eqn:E;
    [|by vm_compute in E].
  exists lines, rep. split; [reflexivity|].
  vm_compute in E. injection E as <- <-. split; [|reflexivity].
  apply (bool_decide_unpack _). by vm_compute.
Qed.

(** ** The run *)

Lemma bind_Ok {A B} (a : A) (f : A -> result B) : Ok a ≫= f = f a.
Proof. reflexivity. Qed.

Lemma Ok_inj {A} (a b : A) : Ok a = Ok b -> a = b.
Proof. by intros [= ->]. Qed.

Lemma formatResults_counts (references : list object) (name now : jsstring)
    (lines : list jsstring) :
  formatResults references name now = Ok lines ->
  js "🎯 Total References Found: " ++ nat_text (length references) ∈ lines
  /\ (references <> [] ->
      forall line,
        line ∈ count_lines (length (List.filter (has_status "available_locally") references))
                 (length (List.filter (has_status "external_reference") references)) ->
        line ∈ lines).
Proof.
  intros H. unfold formatResults in H. destruct references as [|r0 refs].
  - change (length (@nil object) =? 0)%nat with true in H. cbv iota in H.
    apply Ok_inj in H as <-. split; [|done].
    apply elem_of_app. left. do 4 (apply elem_of_cons; right). apply elem_of_cons. by left.
  - change (length (r0 :: refs) =? 0)%nat with false in H. cbv iota in H.
    match type of H with mbind _ ?m = _ => destruct m as [locals|]; [|done] end.
    rewrite bind_Ok in H.
    match type of H with mbind _ ?m = _ => destruct m as [externals|]; [|done] end.
    rewrite bind_Ok in H. apply Ok_inj in H as <-. split.
    + apply elem_of_app. left. do 4 (apply elem_of_cons; right). apply elem_of_cons. by left.
    + intros _ line. unfold count_lines. rewrite !elem_of_cons, elem_of_nil.
      intros [-> | [-> | [-> | []]]].
      * apply elem_of_app. right. apply elem_of_app. left. apply elem_of_cons. by left.
      * do 4 (apply elem_of_app; right). apply elem_of_app. left.
        apply elem_of_cons. right. apply elem_of_cons. by left.
      * do 4 (apply elem_of_app; right). apply elem_of_app. left.
        do 2 (apply elem_of_cons; right). apply elem_of_cons. by left.
Qed.

(** X17. What a completed run prints is what it saves: the total on the
    console is the total of the saved summary and, when there is a reference,
    the summary line and the two compliance lines of the console carry the
    local and external counts of the saved summary. *)
Theorem console_counts_match_report (h : host) (lines : list jsstring) (rep : report) :
  main h = Ok (lines, rep) ->
  let s := report_summary rep in
  js "🎯 Total References Found: " ++ nat_text (total_references s) ∈ lines
  /\ (total_references s <> 0%nat ->
      forall line,
        line ∈ count_lines (local_references_count s) (external_references_count s) ->
        line ∈ lines).
Proof.
  unfold main. destruct (size _ =? 0)%nat; [done|].
  destruct (enhanceReferencesWithAvailability _ _ _) as [out|]; [|done].
  rewrite bind_Ok.
  destruct (formatResults out _ _) as [lines'|] eqn:Hf; [|done].
  rewrite bind_Ok. intros [= <- <-]. cbn [report_summary saveResults total_references
    local_references_count external_references_count].
  apply formatResults_counts in Hf as [Htotal Hcounts].
  split; [exact Htotal|]. intros Hne. apply Hcounts. by destruct out.
Qed.

Lemma console_counts_match_report_witness :
  let payload :=
    js "[{" ++ quoted "matched_target" ++ js ":" ++ quoted "circA.pdf" ++ js "},{"
    ++ quoted "matched_target" ++ js ":" ++ quoted "other.pdf" ++ js "},{"
    ++ quoted "exact_text" ++ js ":" ++ quoted "the Act" ++ js "}]" in
  exists lines rep,
    main (example_host "doc.pdf" payload) = Ok (lines, rep)
    /\ js "📊 SUMMARY: 1 Local | 2 External" ∈ lines.
Proof.
  intros payload.
  destruct (main (example_host "doc.pdf" payload)) as [[lines rep]|] eqn:E;
    [|by vm_compute in E].
  exists lines, rep. split; [reflexivity|].
  destruct (console_counts_match_report _ lines rep E) as [_ Hcounts].
  assert (Hs : report_summary rep
               = {| total_references := 3; local_references_count := 1;
                    external_references_count := 2 |}).
  { vm_compute in E. injection E as _ <-. reflexivity. }
  rewrite Hs in Hcounts. apply Hcounts; [done|].
  apply elem_of_cons. left. by vm_compute.
Defined.

Lemma load_empty (files : list dir_entry) :
  loadLocalCirculars files = ∅ <-> forall f, f ∈ files -> ~ indexable f.
Proof.
  rewrite loadLocalCirculars_fold, map_empty. split.
  - intros H f Hf [Hpdf Ht]. specialize (H (entry_name f)).
    assert (Hsome : is_Some (fold_left load_step
                      (List.filter (fun f => is_pdf_name (entry_name f)) files) ∅
                      !! entry_name f)).
    { apply load_fold_is_Some. right. exists f. split; [by apply elem_of_pdf_files | done]. }
    rewrite H in Hsome. by destruct Hsome.
  - intros H k.
    destruct (fold_left load_step _ ∅ !! k) as [c|] eqn:Hk; [|done].
    apply load_fold_Some in Hk as [Hk | (f & Hf & Hn & Hm)]; [by rewrite lookup_empty in Hk|].
    apply elem_of_pdf_files in Hf as [Hf Hpdf].
    destruct (H f Hf). split; [done|].
    apply (extractMetadata_is_Some _ (entry_path f) (entry_name f)). eauto.
Qed.

(** X18. The run stops for want of local circulars exactly when the
    directory has no file whose name ends in [.pdf] and whose text could be
    read; the collaborator's answer and the document play no part. *)
Theorem empty_collection_stops_run (h : host) :
  main h = Throw NoLocalCirculars
  <-> forall f, f ∈ circulars_dir h -> ~ indexable f.
Proof.
  rewrite <- load_empty. split.
  - intros H. apply main_throws in H as [[_ H] | [H _]]; done.
  - intros H. unfold main. rewrite H. reflexivity.
Qed.

Example empty_collection_stops_run_example :
  main {| circulars_dir :=
            [{| entry_name := js "notes.txt"; entry_path := js "/data/circulars/notes.txt";
                entry_text := Some (js "Subject: not a circular at all") |};
             {| entry_name := js "scan.pdf"; entry_path := js "/data/circulars/scan.pdf";
                entry_text := None |}];
          document_name := js "doc.pdf";
          document_text := Some (js "As per the earlier circular.");
          inference := Responded (js "[]");
          resolved_path := js "/data/doc.pdf";
          clock_locale := [];
          clock_iso := [] |}
  = Throw NoLocalCirculars.
Proof. by vm_compute. Qed.

Lemma main_on_references (h : host) :
  loadLocalCirculars (circulars_dir h) <> ∅ ->
  main h
  = (enhancedReferences ←
       enhanceReferencesWithAvailability (loadLocalCirculars (circulars_dir h))
         (analyzeWithEnhancedAI (document_text h) (inference h)) (document_name h);
     lines ← formatResults enhancedReferences (document_name h) (clock_locale h);
     Ok (lines,
         saveResults (loadLocalCirculars (circulars_dir h)) enhancedReferences
           (document_name h) (resolved_path h) (clock_iso h))).
Proof.
  intros Hidx. unfold main.
  assert (Hsize : (size (loadLocalCirculars (circulars_dir h)) =? 0)%nat = false).
  { apply Nat.eqb_neq. by rewrite map_size_empty_iff. }
  by rewrite Hsize.
Qed.

(** X19. When the collaborator's answer decodes to a number, a boolean or an
    object without a [length], the analysis returns that value as it is, the
    resolution step cannot iterate it, and the run ends on a [TypeError]:
    nothing is printed or saved. *)
Theorem opaque_payload_aborts_run (h : host) (text payload : jsstring) (v : value) :
  loadLocalCirculars (circulars_dir h) <> ∅ ->
  document_text h = Some text ->
  inference h = Responded payload ->
  Json.parse (clean_response payload) = Some v ->
  opaque_payload v ->
  analyzeWithEnhancedAI (document_text h) (inference h) = v
  /\ main h = Throw TypeError.
Proof.
  intros Hidx Htext Hreply Hparse Hv.
  assert (Han : analyzeWithEnhancedAI (document_text h) (inference h) = v).
  { rewrite Htext, Hreply. unfold analyzeWithEnhancedAI, parse_response.
    rewrite bool_decide_eq_false_2 by apply extractTextFromPdf_nonempty.
    rewrite Hparse.
    destruct v as [| | b | n | s | items | props]; try done.
    simpl in Hv. unfold length_text, get_prop. by rewrite Hv. }
  split; [exact Han|].
  rewrite main_on_references by done. rewrite Han.
  by destruct v.
Qed.

Lemma opaque_payload_aborts_run_witness :
  let payload :=
    js "{" ++ quoted "references" ++ js ":[{" ++ quoted "exact_text" ++ js ":"
    ++ quoted "SEBI Act, 1992" ++ js "}]}" in
  main (example_host "doc.pdf" payload) = Throw TypeError.
Proof.
  intros payload.
  destruct (Json.parse (clean_response payload)) as [v|] eqn:E; [|by vm_compute in E].
  apply (opaque_payload_aborts_run (example_host "doc.pdf" payload)
           (js "As per the earlier circular, advisers must comply.") payload v).
  - intros Hempty. apply (f_equal size) in Hempty. by vm_compute in Hempty.
  - reflexivity.
  - reflexivity.
  - exact E.
  - vm_compute in E. injection E as <-. by vm_compute.
Defined.

(** X20. An answer that decodes to [null] is handled like one that does not
    decode: reading its [length] throws inside the guarded block, the
    analysis returns the empty sequence, and the run completes with the
    report of no references. *)
Theorem null_payload_gives_empty (h : host) (payload : jsstring) :
  loadLocalCirculars (circulars_dir h) <> ∅ ->
  inference h = Responded payload ->
  Json.parse (clean_response payload) = Some VNull ->
  analyzeWithEnhancedAI (document_text h) (inference h) = VArr []
  /\ exists lines rep,
       main h = Ok (lines, rep)
       /\ js "❌ No references found." ∈ lines
       /\ all_references rep = [].
Proof.
  intros Hidx Hreply Hparse.
  assert (Han : analyzeWithEnhancedAI (document_text h) (inference h) = VArr []).
  { rewrite Hreply. apply (analyze_on_failure _ _ TypeError).
    unfold parse_response. by rewrite Hparse. }
  split; [exact Han|].
  destruct (main_without_candidates h Hidx Han) as (lines & Hmain & Hin).
  eexists lines, _. split; [exact Hmain|]. split; [exact Hin | reflexivity].
Qed.

Lemma null_payload_gives_empty_witness :
  let payload := js "```json" ++ [10] ++ js "null" ++ [10] ++ js "```" in
  exists lines rep,
    main (example_host "doc.pdf" payload) = Ok (lines, rep)
    /\ all_references rep = [].
Proof.
  intros payload.
  destruct (null_payload_gives_empty (example_host "doc.pdf" payload) payload)
    as (_ & lines & rep & Hmain & _ & Hall).
  - intros Hempty. apply (f_equal size) in Hempty. by vm_compute in Hempty.
  - reflexivity.
  - by vm_compute.
  - exists lines, rep. split; [exact Hmain | exact Hall].
Defined.

(** ** Runs that complete *)

Lemma enhance_loop_all idx src (refs : list value) (acc : list object)
    (P : object -> Prop) :
  Forall (fun ref => exists e, enhance_one idx src ref = Ok (Some e) /\ P e) refs ->
  exists out,
    enhance_loop idx src refs acc = Ok (acc ++ out)
    /\ length out = length refs /\ Forall P out.
Proof.
  intros Hall. revert acc. induction Hall as [|ref refs (e & He & HP) _ IH]; intros acc.
  - exists []. by rewrite app_nil_r.
  - cbn [enhance_loop]. rewrite He, bind_Ok.
    destruct (IH (acc ++ [e])) as (out & -> & Hlen & Hout).
    exists (e :: out). rewrite <- app_assoc. split; [done|]. split; [simpl; by rewrite Hlen|].
    by constructor.
Qed.

Lemma load_no_empty_key (files : list dir_entry) : loadLocalCirculars files !! [] = None.
Proof.
  destruct (loadLocalCirculars files !! []) as [c|] eqn:E; [|done].
  apply load_lookup in E as [_ E]. by vm_compute in E.
Qed.

(** X22. When the collaborator's answer decodes to a string, the resolution
    step iterates it: every code point of the text becomes a reference of its
    own, marked [external_reference], and none is dropped. *)
Theorem text_payload_read_by_character (files : list dir_entry) (src s : jsstring) :
  exists out,
    enhanceReferencesWithAvailability (loadLocalCirculars files) (VStr s) src = Ok out
    /\ length out = length (code_points s)
    /\ Forall (fun e => get e (js "availability_status") = VStr (js "external_reference"))
         out.
Proof.
  unfold enhanceReferencesWithAvailability. cbn [iterate]. rewrite bind_Ok.
  destruct (enhance_loop_all (loadLocalCirculars files) src (VStr <$> code_points s) []
              (fun e => get e (js "availability_status") = VStr (js "external_reference")))
    as (out & Hout & Hlen & Hall).
  - apply Forall_fmap, Forall_forall. intros c _. eexists. split.
    + apply (enhance_one_external _ _ (VStr c) VUndefined []); [done | done | |].
      * apply load_no_empty_key.
      * apply (bool_decide_unpack _). by vm_compute.
    + rewrite !get_set_prop. eval_jseqb. reflexivity.
  - exists out. rewrite length_fmap in Hlen. by rewrite Hout.
Qed.

Example text_payload_read_by_character_example :
  exists lines rep,
    main (example_host "doc.pdf" (quoted "none")) = Ok (lines, rep)
    /\ report_summary rep
       = {| total_references := 4; local_references_count := 0;
            external_references_count := 4 |}.
Proof. eexists _, _. split; [by vm_compute | reflexivity]. Qed.

Lemma first_circular_number_plain (patterns : list regex) (text : jsstring) :
  plain (first_circular_number patterns text) = true.
Proof.
  induction patterns as [|pattern more IH]; simpl; [done|].
  destruct (exec true pattern text) as [m|]; [|done].
  destruct (includes _ _); [done|]. unfold group_value. by destruct (group m 1).
Qed.

Lemma first_subject_plain (patterns : list regex) (text : jsstring) :
  plain (first_subject patterns text) = true.
Proof.
  induction patterns as [|pattern more IH]; simpl; [done|].
  destruct (exec true pattern text) as [m|]; [|done]. by destruct (_ <? _)%nat.
Qed.

Lemma load_fields_plain (files : list dir_entry) (k : jsstring) (c : circular) :
  loadLocalCirculars files !! k = Some c ->
  plain (circular_number c) = true /\ plain (subject c) = true.
Proof.
  rewrite loadLocalCirculars_fold. intros H.
  apply load_fold_Some in H as [H | (f & Hf & Hn & Hm)]; [by rewrite lookup_empty in H|].
  apply extractMetadata_Some in Hm as (text & Ht & ->). cbn [circular_number subject].
  split; [apply first_circular_number_plain | apply first_subject_plain].
Qed.

Lemma or_na_returns (v : value) : plain v = true -> exists s, or_na v = Ok s.
Proof.
  intros Hv. apply to_string_plain. unfold or_else. by destruct (truthy v).
Qed.

Lemma string_or_returns (v : value) (fallback : string) :
  text_or_falsy v = true -> exists s, string_or v fallback = Ok s.
Proof.
  unfold string_or, or_else.
  destruct v as [| | [] | n | s | |]; cbn [text_or_falsy truthy negb]; try done; eauto.
  - intros H. apply negb_true_iff in H. rewrite H. eauto.
  - destruct (negb _); eauto.
Qed.

Lemma number_line_returns (v : value) :
  plain v = true -> exists lines, number_line v = Ok lines.
Proof.
  intros Hv. unfold number_line. destruct (truthy v); [|by eauto].
  destruct (to_string_plain v Hv) as [s ->]. rewrite bind_Ok. eauto.
Qed.

Lemma entry_field_plain (files : list dir_entry) (key : jsstring)
    (field : circular -> value) :
  (forall c, loadLocalCirculars files !! key = Some c -> plain (field c) = true) ->
  plain (entry_field (loadLocalCirculars files) key field) = true.
Proof.
  intros H. unfold entry_field.
  destruct (loadLocalCirculars files !! key) as [c|]; [by apply H | done].
Qed.

Ltac returned H := rewrite H, ?bind_Ok; cbv beta.

Lemma local_block_returns (files : list dir_entry) (key : jsstring) (i : nat) (e : object) :
  text_or_falsy (get e (js "confidence")) = true ->
  text_or_falsy (get e (js "context")) = true ->
  plain (get e (js "exact_text")) = true ->
  plain (get e (js "page_number")) = true ->
  plain (get e (js "reasoning")) = true ->
  get e (js "local_file") = local_file_of (loadLocalCirculars files) key ->
  exists lines, local_block i e = Ok lines.
Proof.
  intros Hconfidence Hcontext Htext Hpage Hreasoning Hfile.
  unfold local_block, confidence_line, text_line. rewrite Hfile.
  change (or_else (local_file_of (loadLocalCirculars files) key) (VObj []))
    with (local_file_of (loadLocalCirculars files) key).
  unfold local_file_of, get_prop. rewrite !own_cons. eval_jseqb. cbn [default from_option id].
  destruct (string_or_returns _ "unknown" Hconfidence) as [s1 H1]. returned H1.
 
  destruct (or_na_returns _ Htext) as [s2 H2]. returned H2.
  destruct (or_na_returns _ Hpage) as [s3 H3]. returned H3.
  destruct (or_na_returns (entry_field (loadLocalCirculars files) key
                             (fun c => VStr (filename c)))) as [s4 H4];
    [by apply entry_field_plain|]. returned H4.
  destruct (or_na_returns (entry_field (loadLocalCirculars files) key subject)) as [s5 H5];
    [apply entry_field_plain; intros c Hc; by apply (load_fields_plain files key)|].
  returned H5.
  destruct (number_line_returns (entry_field (loadLocalCirculars files) key circular_number))
    as [s6 H6];
    [apply entry_field_plain; intros c Hc; by apply (load_fields_plain files key)|].
  returned H6.
  destruct (or_na_returns _ Hreasoning) as [s7 H7]. returned H7.
  destruct (string_or_returns _ "N/A" Hcontext) as [s8 H8]. returned H8.
  destruct (or_na_returns (entry_field (loadLocalCirculars files) key
                             (fun c => VStr (file_path c)))) as [s9 H9];
    [by apply entry_field_plain|]. returned H9.
  eauto.
Qed.

Lemma external_block_returns (i : nat) (e : object) :
  text_or_falsy (get e (js "reference_type")) = true ->
  text_or_falsy (get e (js "confidence")) = true ->
  text_or_falsy (get e (js "context")) = true ->
  plain (get e (js "exact_text")) = true ->
  plain (get e (js "page_number")) = true ->
  plain (get e (js "title")) = true ->
  plain (get e (js "circular_number")) = true ->
  plain (get e (js "reasoning")) = true ->
  exists lines, external_block i e = Ok lines.
Proof.
  intros Htype Hconfidence Hcontext Htext Hpage Htitle Hnumber Hreasoning.
  unfold external_block, confidence_line, text_line.
  destruct (string_or_returns _ "other" Htype) as [s0 H0]. returned H0.
  destruct (string_or_returns _ "unknown" Hconfidence) as [s1 H1]. returned H1.
 
  destruct (or_na_returns _ Htext) as [s2 H2]. returned H2.
  destruct (or_na_returns _ Hpage) as [s3 H3]. returned H3.
  destruct (or_na_returns _ Htitle) as [s4 H4]. returned H4.
  destruct (number_line_returns _ Hnumber) as [s5 H5]. returned H5.
  destruct (or_na_returns _ Hreasoning) as [s6 H6]. returned H6.
  destruct (string_or_returns _ "N/A" Hcontext) as [s7 H7]. returned H7.
  eauto.
Qed.

Lemma well_formed_resolvable (ref : value) : well_formed ref -> resolvable ref.
Proof. intros (props & -> & Htarget & _). by exists props. Qed.

Lemma enhance_one_printable (files : list dir_entry) (src : jsstring) (ref : value)
    (e : object) :
  well_formed ref ->
  enhance_one (loadLocalCirculars files) src ref = Ok (Some e) ->
  printable e.
Proof.
  intros (props & -> & Htarget & Hlabels & Hprinted).
  assert (Htype : text_or_falsy (get props (js "reference_type")) = true).
  { apply Hlabels. apply elem_of_cons. by left. }
  assert (Hconfidence : text_or_falsy (get props (js "confidence")) = true).
  { apply Hlabels. apply elem_of_cons. right. apply elem_of_cons. by left. }
  assert (Hcontext : text_or_falsy (get props (js "context")) = true).
  { apply Hlabels. do 2 (apply elem_of_cons; right). apply elem_of_cons. by left. }
  assert (Htext : plain (get props (js "exact_text")) = true).
  { apply Hprinted. apply elem_of_cons. by left. }
  assert (Hpage : plain (get props (js "page_number")) = true).
  { apply Hprinted. apply elem_of_cons. right. apply elem_of_cons. by left. }
  assert (Htitle : plain (get props (js "title")) = true).
  { apply Hprinted. do 2 (apply elem_of_cons; right). apply elem_of_cons. by left. }
  assert (Hnumber : plain (get props (js "circular_number")) = true).
  { apply Hprinted. do 3 (apply elem_of_cons; right). apply elem_of_cons. by left. }
  assert (Hreasoning : plain (get props (js "reasoning")) = true).
  { apply Hprinted. do 4 (apply elem_of_cons; right). apply elem_of_cons. by left. }
  clear Hlabels Hprinted.
  unfold enhance_one. cbv zeta.
  change (get_prop (VObj props) (js "matched_target"))
    with (Ok (get props (js "matched_target"))).
  rewrite bind_Ok.
  destruct (to_string _) as [key|]; [|done]. rewrite bind_Ok.
  destruct (_ && _); [done|].
  change (spread (VObj props)) with props.
  destruct (has_property _ key); intros H; apply Ok_inj, (inj Some) in H; subst e; split.
  - intros _ i. apply (local_block_returns files key);
      rewrite !get_set_prop; eval_jseqb; done.
  - unfold has_status. rewrite !get_set_prop. eval_jseqb. cbn [strict_eq_str].
    eval_jseqb. done.
  - unfold has_status. rewrite !get_set_prop. eval_jseqb. cbn [strict_eq_str].
    eval_jseqb. done.
  - intros _ i. apply external_block_returns; rewrite !get_set_prop; eval_jseqb; done.
Qed.

Lemma blocks_returns (block : nat -> object -> result (list jsstring))
    (refs : list object) :
  Forall (fun e => forall i, exists lines, block i e = Ok lines) refs ->
  forall i, exists lines, blocks block i refs = Ok lines.
Proof.
  induction 1 as [|e refs He _ IH]; intros i; cbn [blocks]; [by eauto|].
  destruct (He i) as [lines ->]. rewrite bind_Ok.
  destruct (IH (S i)) as [rest ->]. rewrite bind_Ok. eauto.
Qed.

Lemma formatResults_returns (references : list object) (name now : jsstring) :
  Forall printable references ->
  exists lines, formatResults references name now = Ok lines.
Proof.
  intros Hall. unfold formatResults. destruct (length references =? 0)%nat; [by eauto|].
  destruct (blocks_returns local_block
              (List.filter (has_status "available_locally") references)) with (i := 0%nat)
    as [locals Hlocals].
  { apply Forall_forall. intros e He. apply elem_of_filter_bool in He as [He Hs].
    rewrite Forall_forall in Hall. by apply (Hall e He). }
  destruct (blocks_returns external_block
              (List.filter (has_status "external_reference") references)) with (i := 0%nat)
    as [externals Hexternals].
  { apply Forall_forall. intros e He. apply elem_of_filter_bool in He as [He Hs].
    rewrite Forall_forall in Hall. by apply (Hall e He). }
  rewrite Hlocals, Hexternals.
  destruct (0 <? _)%nat; rewrite ?bind_Ok; cbv beta;
    destruct (0 <? _)%nat; rewrite ?bind_Ok; cbv beta; eauto.
Qed.

Lemma enhance_loop_printable (files : list dir_entry) (src : jsstring)
    (refs : list value) (acc : list object) :
  Forall well_formed refs ->
  Forall printable acc ->
  exists out,
    enhance_loop (loadLocalCirculars files) src refs acc = Ok out
    /\ Forall printable out
    /\ (length out <= length acc + length refs)%nat.
Proof.
  intros Hrefs. revert acc. induction Hrefs as [|ref refs Href _ IH]; intros acc Hacc.
  - exists acc. split; [done|]. split; [done|]. simpl. lia.
  - cbn [enhance_loop].
    destruct (enhance_one_resolvable (loadLocalCirculars files) src ref
                (well_formed_resolvable ref Href)) as [step Hstep].
    rewrite Hstep, bind_Ok. destruct step as [e|].
    + destruct (IH (acc ++ [e])) as (out & Hout & Hall & Hlen).
      { apply Forall_app. split; [done|]. constructor; [|done].
        by apply (enhance_one_printable files src ref). }
      exists out. split; [done|]. split; [done|].
      rewrite length_app in Hlen. simpl in *. lia.
    + destruct (IH acc Hacc) as (out & Hout & Hall & Hlen).
      exists out. split; [done|]. split; [done|]. simpl. lia.
Qed.

(** X23. The run completes, with a report printed and saved, whenever the
    collection is not empty and every candidate of the analysis is an object
    whose [confidence], [context] and [reference_type] are strings when they
    are set and whose other printed properties and target are not arrays or
    objects; the saved list has at most one reference per candidate. *)
Theorem run_completes_on_well_formed_candidates (h : host) (items : list value) :
  loadLocalCirculars (circulars_dir h) <> ∅ ->
  analyzeWithEnhancedAI (document_text h) (inference h) = VArr items ->
  Forall well_formed items ->
  exists lines rep,
    main h = Ok (lines, rep)
    /\ (length (all_references rep) <= length items)%nat.
Proof.
  intros Hidx Han Hitems. rewrite main_on_references by done. rewrite Han.
  unfold enhanceReferencesWithAvailability. cbn [iterate]. rewrite bind_Ok.
  destruct (enhance_loop_printable (circulars_dir h) (document_name h) items [] Hitems)
    as (out & -> & Hall & Hlen); [constructor|].
  rewrite bind_Ok.
  destruct (formatResults_returns out (document_name h) (clock_locale h) Hall)
    as [lines ->].
  rewrite bind_Ok. eexists _, _. split; [reflexivity|]. exact Hlen.
Qed.

Lemma run_completes_on_well_formed_candidates_witness :
  let payload :=
    js "[{" ++ quoted "exact_text" ++ js ":" ++ quoted "the earlier circular" ++ js ","
    ++ quoted "matched_target" ++ js ":" ++ quoted "circA.pdf" ++ js ","
    ++ quoted "page_number" ++ js ":3," ++ quoted "confidence" ++ js ":"
    ++ quoted "high" ++ js "},{" ++ quoted "exact_text" ++ js ":"
    ++ quoted "SEBI Act, 1992" ++ js "," ++ quoted "context" ++ js ":null}]" in
  exists lines rep, main (example_host "doc.pdf" payload) = Ok (lines, rep).
Proof.
  intros payload.
  destruct (analyzeWithEnhancedAI (document_text (example_host "doc.pdf" payload))
              (inference (example_host "doc.pdf" payload))) as [| | | | |items|] eqn:E;
    try (by vm_compute in E).
  destruct (run_completes_on_well_formed_candidates (example_host "doc.pdf" payload) items)
    as (lines & rep & Hmain & _).
  - intros Hempty. apply (f_equal size) in Hempty. by vm_compute in Hempty.
  - exact E.
  - vm_compute in E. injection E as <-.
    apply Forall_cons_2; [|apply Forall_cons_2; [|apply Forall_nil_2]].
    + eexists. split; [reflexivity|]. split_and!; [by vm_compute | |];
        intros name; unfold label_fields, printed_fields;
        rewrite !elem_of_cons, elem_of_nil; intros H;
        repeat (destruct H as [-> | H]; [by vm_compute|]); done.
    + eexists. split; [reflexivity|]. split_and!; [by vm_compute | |];
        intros name; unfold label_fields, printed_fields;
        rewrite !elem_of_cons, elem_of_nil; intros H;
        repeat (destruct H as [-> | H]; [by vm_compute|]); done.
  - exists lines, rep. exact Hmain.
Defined.
